(** * strmangle: the identifier case-conversion functions of sqlboiler

    A shallow embedding of [strmangle/strmangle.go] (TitleCase, CamelCase,
    TitleCaseIdentifier, Placeholders, WhereClause) and the proofs of the
    properties stated about them.

    Go values are modelled as follows.
    - [string] and [[]byte] : Rocq [string] and [list ascii]; a byte is an
      [ascii], its numeric value [code c : Z], byte arithmetic wraps
      modulo 256 ([byte_of_Z]).
    - [int] : [Z]; additions whose operands are caller supplied wrap to 64
      bits ([wrap64]).
    - [map[string]string] : [gmap string string];
      [map[string]struct{}] : [gset string].
    - [*bytes.Buffer] : an index into a store of byte lists ([heap]); the
      pool is a list of such indices.
    - package-level state, the buffer store and standard output are threaded
      explicitly in a [World]; a run-time panic is an [Outcome]. *)

From Stdlib Require Import ZArith Ascii String List Lia DecimalString.
From stdpp Require Import base gmap list strings.

Local Open Scope string_scope.
Local Open Scope list_scope.
Local Open Scope Z_scope.

(** ** Bytes, strings and ints *)

Definition code (c : ascii) : Z := Z.of_N (N_of_ascii c).

(** Conversion of an integer to [uint8]: arithmetic on bytes wraps. *)
Definition byte_of_Z (z : Z) : ascii := ascii_of_N (Z.to_N (z mod 256)).

(** [[]byte(s)] and [string(bs)]. *)
Definition bytes (s : string) : list ascii := list_ascii_of_string s.
Definition str (bs : list ascii) : string := string_of_list_ascii bs.

(** [len(s)] for a byte slice and for a string. *)
Definition len (bs : list ascii) : Z := Z.of_nat (length bs).
Definition slen (s : string) : Z := len (bytes s).

(** Wrap-around of a 64 bit signed [int]. *)
Definition wrap64 (z : Z) : Z := (z + 2 ^ 63) mod 2 ^ 64 - 2 ^ 63.

Definition underscore : ascii := "_"%char.
Definition dot : ascii := "."%char.
(** The double quote character, byte 34. *)
Definition dquote : ascii := ascii_of_N 34.

(** ** World, outcomes and the monad of the embedding *)

(** What a call does to a pooled buffer and to standard output, in order. *)
Inductive Event : Type :=
  | EvGet (b : nat)            (* GetBuffer returned buffer b *)
  | EvPut (b : nat)            (* PutBuffer(b) *)
  | EvWrite (b : nat)          (* b.WriteByte / b.WriteString / b.Write *)
  | EvRead (b : nat)           (* b.String() *)
  | EvPrintln (args : list Z). (* fmt.Println of ints *)

Record World : Type := mkWorld {
  titleCaseCache : gmap string string; (* var titleCaseCache *)
  heap : list (list ascii);            (* contents of every buffer allocated so far *)
  bufPool : list nat;                  (* buffers that are in the pool, last put first *)
  events : list Event                  (* newest first *)
}.

Definition init_world : World :=
  {| titleCaseCache := ∅; heap := []; bufPool := []; events := [] |}.

Inductive Outcome (A : Type) : Type :=
  | Done (a : A) (w : World)
  | Panic (msg : string) (w : World)
  | OutOfFuel.
Arguments Done {A} a w.
Arguments Panic {A} msg w.
Arguments OutOfFuel {A}.

Definition M (A : Type) : Type := World -> Outcome A.

Definition ret {A} (a : A) : M A := fun w => Done a w.

Definition bind {A B} (m : M A) (k : A -> M B) : M B :=
  fun w =>
    match m w with
    | Done a w' => k a w'
    | Panic msg w' => Panic msg w'
    | OutOfFuel => OutOfFuel
    end.

Definition panic {A} (msg : string) : M A := fun w => Panic msg w.

Definition out_of_fuel {A} : M A := fun _ => OutOfFuel.

Notation "x <- m ;; k" := (bind m (fun x => k))
  (at level 100, m at next level, right associativity).
Notation "m ;; k" := (bind m (fun _ => k))
  (at level 100, right associativity).

(** [defer d] before [body]: [d] runs when [body] returns and also when it
    panics; the value returned is the one [body] computed. *)
Definition defer {A} (d : M unit) (body : M A) : M A :=
  fun w =>
    match body w with
    | Done a w' =>
        match d w' with
        | Done _ w'' => Done a w''
        | Panic msg w'' => Panic msg w''
        | OutOfFuel => OutOfFuel
        end
    | Panic msg w' =>
        match d w' with
        | Done _ w'' => Panic msg w''
        | Panic msg' w'' => Panic msg' w''
        | OutOfFuel => OutOfFuel
        end
    | OutOfFuel => OutOfFuel
    end.

Definition log (e : Event) : M unit :=
  fun w => Done tt {| titleCaseCache := titleCaseCache w; heap := heap w;
                      bufPool := bufPool w; events := e :: events w |}.

(** Observations of an outcome. *)
Definition result {A} (o : Outcome A) : option A :=
  match o with Done a _ => Some a | _ => None end.

Definition is_panic {A} (o : Outcome A) : bool :=
  match o with Panic _ _ => true | _ => false end.

Definition final {A} (o : Outcome A) : option World :=
  match o with Done _ w => Some w | Panic _ w => Some w | OutOfFuel => None end.

(** The events of a run, oldest first. *)
Definition trace {A} (o : Outcome A) : list Event :=
  match final o with Some w => rev (events w) | None => [] end.

(** ** Indexing and slicing, with Go's bounds checks *)

(** [s[i]] *)
Definition index (s : list ascii) (i : Z) : M ascii :=
  match (if 0 <=? i then s !! Z.to_nat i else None) with
  | Some c => ret c
  | None => panic "index out of range"
  end.

(** [s[lo:hi]].  The upper bound checked is [len(s)]; for a byte slice Go
    checks against [cap(s)], which is no smaller. *)
Definition slice (s : list ascii) (lo hi : Z) : M (list ascii) :=
  if (0 <=? lo) && (lo <=? hi) && (hi <=? len s)
  then ret (take (Z.to_nat (hi - lo)) (drop (Z.to_nat lo) s))
  else panic "slice bounds out of range".

(** [strings.IndexByte(s, c)]: the index of the first [c] in [s], or -1. *)
Fixpoint IndexByte (s : list ascii) (c : ascii) : Z :=
  match s with
  | [] => -1
  | x :: s' =>
      if Ascii.eqb x c then 0
      else let r := IndexByte s' c in if r <? 0 then -1 else r + 1
  end.

(** [fmt.Sprintf("%d", z)] *)
Definition fmt_d (z : Z) : list ascii :=
  bytes (NilZero.string_of_int (Z.to_int z)).

(** ** The buffer pool and [bytes.Buffer] *)

(** Modelled from the spec: [GetBuffer] and [PutBuffer] are declared in a
    file of the package that is not among the sources.  The spec gives the
    pool two operations, [acquire() -> growable byte buffer] and
    [release(buffer)].  Here acquiring takes the buffer last released (or
    allocates one when the pool is empty) and hands it out empty; releasing
    puts the buffer back into the pool and leaves its bytes in place. *)
Definition GetBuffer : M nat :=
  fun w =>
    match bufPool w with
    | b :: rest =>
        Done b {| titleCaseCache := titleCaseCache w;
                  heap := <[b := []]> (heap w);
                  bufPool := rest;
                  events := EvGet b :: events w |}
    | [] =>
        let b := length (heap w) in
        Done b {| titleCaseCache := titleCaseCache w;
                  heap := heap w ++ [[]];
                  bufPool := [];
                  events := EvGet b :: events w |}
    end.

Definition PutBuffer (b : nat) : M unit :=
  fun w =>
    Done tt {| titleCaseCache := titleCaseCache w;
               heap := heap w;
               bufPool := b :: bufPool w;
               events := EvPut b :: events w |}.

(** [buf.Write(bs)]: append to the buffer. *)
Definition Buffer_Write (b : nat) (bs : list ascii) : M unit :=
  fun w =>
    match heap w !! b with
    | Some old =>
        Done tt {| titleCaseCache := titleCaseCache w;
                   heap := <[b := old ++ bs]> (heap w);
                   bufPool := bufPool w;
                   events := EvWrite b :: events w |}
    | None => Panic "invalid memory address or nil pointer dereference" w
    end.

Definition Buffer_WriteByte (b : nat) (c : ascii) : M unit := Buffer_Write b [c].
Definition Buffer_WriteString (b : nat) (s : string) : M unit := Buffer_Write b (bytes s).

(** [buf.String()] *)
Definition Buffer_String (b : nat) : M string :=
  fun w =>
    match heap w !! b with
    | Some old =>
        Done (str old) {| titleCaseCache := titleCaseCache w;
                          heap := heap w;
                          bufPool := bufPool w;
                          events := EvRead b :: events w |}
    | None => Panic "invalid memory address or nil pointer dereference" w
    end.

(** ** Package-level state *)

(** [var uppercaseWords = map[string]struct{}{...}] *)
Definition uppercaseWords : gset string := {[ "guid"; "id"; "uid"; "uuid" ]}.

(** [_, match := uppercaseWords[key]] *)
Definition uppercaseWords_has (key : string) : bool :=
  bool_decide (key ∈ uppercaseWords).

(** [mut sync.RWMutex]: calls are run one after the other in this model, so
    taking and dropping the lock changes nothing. *)
Definition RLock : M unit := ret tt.
Definition RUnlock : M unit := ret tt.
Definition Lock : M unit := ret tt.
Definition Unlock : M unit := ret tt.

(** [val, ok := titleCaseCache[n]] *)
Definition cache_get (n : string) : M (option string) :=
  fun w => Done (titleCaseCache w !! n) w.

(** [titleCaseCache[n] = ret] *)
Definition cache_set (n r : string) : M unit :=
  fun w =>
    Done tt {| titleCaseCache := <[n := r]> (titleCaseCache w);
               heap := heap w;
               bufPool := bufPool w;
               events := events w |}.

(** ** TitleCase (strmangle.go, lines 168-245) *)

(** Lines 203-210: one pass over the word that looks for a vowel and for the
    position of the first digit.  [i] is the index of the head of [word] in
    the whole word, of length [wordLen]. *)
Fixpoint scanWord (word : list ascii) (i wordLen : Z)
    (vowels : bool) (numStart : Z) : bool * Z :=
  match word with
  | [] => (vowels, numStart)
  | c :: rest =>
      let vowels :=
        vowels || ((code c =? 97) || (code c =? 101) || (code c =? 105)
                   || (code c =? 111) || (code c =? 117) || (code c =? 121)) in
      let numStart :=
        if (47 <? code c) && (code c <? 58) && (numStart =? wordLen)
        then i else numStart in
      scanWord rest (i + 1) wordLen vowels numStart
  end.

(** Lines 216-222: uppercase all a-z characters. *)
Fixpoint writeUpper (buf : nat) (word : list ascii) : M unit :=
  match word with
  | [] => ret tt
  | c :: rest =>
      (if (96 <? code c) && (code c <? 123)
       then Buffer_WriteByte buf (byte_of_Z (code c - 32))
       else Buffer_WriteByte buf c) ;;
      writeUpper buf rest
  end.

(** Lines 200-230: what the loop does with one word. *)
Definition renderWord (buf : nat) (word : list ascii) : M unit :=
  let wordLen := len word in
  let '(vowels, numStart) := scanWord word 0 wordLen false wordLen in
  key <- slice word 0 numStart ;;
  let match_ := uppercaseWords_has (str key) in
  if match_ || negb vowels then
    writeUpper buf word
  else
    c <- index word 0 ;;
    if (96 <? code c) && (code c <? 123) then
      c0 <- index word 0 ;;
      Buffer_WriteByte buf (byte_of_Z (code c0 - 32)) ;;
      rest <- slice word 1 (len word) ;;
      Buffer_Write buf rest
    else
      Buffer_Write buf word.

(** Lines 183-234: the loop over the two cursors [start] and [end].  Each
    unit of fuel pays for one evaluation of the loop condition. *)
Fixpoint TitleCase_loop (fuel : nat) (name : list ascii) (ln : Z) (buf : nat)
    (start end_ : Z) : M unit :=
  match fuel with
  | O => out_of_fuel
  | S fuel' =>
      if start <? ln then
        next <- (if end_ <? ln then
                   c <- index name start ;;
                   if Ascii.eqb c underscore then
                     ret (Some (start + 1, end_ + 1))
                   else
                     c' <- index name end_ ;;
                     if negb (Ascii.eqb c' underscore) then
                       ret (Some (start, end_ + 1))
                     else ret None
                 else ret None) ;;
        match next with
        | Some (start', end') =>            (* continue *)
            TitleCase_loop fuel' name ln buf start' end'
        | None =>
            word <- slice name start end_ ;;
            renderWord buf word ;;
            TitleCase_loop fuel' name ln buf (end_ + 1) (end_ + 1)
        end
      else ret tt
  end.

Definition TitleCase_fuel (name : list ascii) : nat := S (2 * length name).

Definition TitleCase (n : string) : M string :=
  (* Attempt to fetch from cache *)
  RLock ;;
  cached <- cache_get n ;;
  RUnlock ;;
  match cached with
  | Some val => ret val
  | None =>
      let ln := slen n in
      let name := bytes n in
      buf <- GetBuffer ;;
      TitleCase_loop (TitleCase_fuel name) name ln buf 0 0 ;;
      r <- Buffer_String buf ;;
      PutBuffer buf ;;
      (* Cache the title case result *)
      Lock ;;
      cache_set n r ;;
      Unlock ;;
      ret r
  end.

(** ** CamelCase (lines 251-285) *)

(** The two search loops of CamelCase, lines 256-261 and 270-275:
    [for i := 0; i < len(name); i++ { if p(name[i]) { index = i; break } }],
    started with [index] holding [index_]. *)
Fixpoint CamelCase_find (fuel : nat) (p : ascii -> bool) (name : list ascii)
    (i index_ : Z) : M Z :=
  match fuel with
  | O => out_of_fuel
  | S fuel' =>
      if i <? len name then
        c <- index name i ;;
        if p c then ret i                                  (* break *)
        else CamelCase_find fuel' p name (i + 1) index_
      else ret index_
  end.

Definition CamelCase (name : string) : M string :=
  buf <- GetBuffer ;;
  defer (PutBuffer buf)
    (let name := bytes name in
     index_ <- CamelCase_find (S (length name))
                 (fun c => negb (Ascii.eqb c underscore)) name 0 (-1) ;;
     if negb (index_ =? -1) then
       name <- slice name index_ (len name) ;;
       index_ <- CamelCase_find (S (length name))
                   (fun c => Ascii.eqb c underscore) name 0 (-1) ;;
       (if index_ =? -1 then
          Buffer_WriteString buf (str name)
        else
          head <- slice name 0 index_ ;;
          Buffer_WriteString buf (str head) ;;
          tail <- slice name (index_ + 1) (len name) ;;
          titled <- TitleCase (str tail) ;;
          Buffer_WriteString buf titled) ;;
       Buffer_String buf
     else
       ret "").

(** ** TitleCaseIdentifier (lines 289-326) *)

(** Lines 300-322.  The counter [i] of the loop is never read and is left
    out. *)
Fixpoint TitleCaseIdentifier_loop (fuel : nat) (id : list ascii) (ln : Z)
    (buf : nat) (lastDot nextDot : Z) (addDots : bool) : M unit :=
  match fuel with
  | O => out_of_fuel
  | S fuel' =>
      if 0 <=? nextDot then
        log (EvPrintln [lastDot; nextDot]) ;;
        fragment <- slice id lastDot nextDot ;;
        titled <- TitleCase (str fragment) ;;
        (if addDots then Buffer_WriteByte buf dot else ret tt) ;;
        Buffer_WriteString buf titled ;;
        let addDots := true in
        if nextDot =? ln then ret tt                        (* break *)
        else
          let lastDot := nextDot + 1 in
          tail <- slice id lastDot (len id) ;;
          let nextDot := IndexByte tail dot in
          let nextDot := if 0 <=? nextDot then nextDot + lastDot else ln in
          TitleCaseIdentifier_loop fuel' id ln buf lastDot nextDot addDots
      else ret tt
  end.

Definition TitleCaseIdentifier (id : string) : M string :=
  let nextDot := IndexByte (bytes id) dot in
  if nextDot <? 0 then
    TitleCase id
  else
    buf <- GetBuffer ;;
    let lastDot := 0 in
    let ln := slen id in
    let addDots := false in
    TitleCaseIdentifier_loop (S (S (length (bytes id)))) (bytes id) ln buf
      lastDot nextDot addDots ;;
    PutBuffer buf ;;
    Buffer_String buf.

(** ** Placeholders (lines 372-398) and WhereClause (lines 419-435) *)

(** [fmt.Sprintf("$%d", z)] *)
Definition fmt_dollar (z : Z) : string := str ("$"%char :: fmt_d z).

(** [fmt.Sprintf(`"%s"=$%d`, c, z)] *)
Definition fmt_assign (c : string) (z : Z) : string :=
  str ([dquote] ++ bytes c ++ [dquote; "="%char; "$"%char] ++ fmt_d z).

(** Lines 383-392. *)
Fixpoint Placeholders_loop (fuel : nat) (buf : nat) (count start group i : Z)
    : M unit :=
  match fuel with
  | O => out_of_fuel
  | S fuel' =>
      if i <? count then
        (if negb (i =? 0) then
           if (1 <? group) && (Z.rem i group =? 0)
           then Buffer_WriteString buf "),("
           else Buffer_WriteByte buf ","%char
         else ret tt) ;;
        Buffer_WriteString buf (fmt_dollar (wrap64 (start + i))) ;;
        Placeholders_loop fuel' buf count start group (i + 1)
      else ret tt
  end.

Definition Placeholders (count start group : Z) : M string :=
  buf <- GetBuffer ;;
  defer (PutBuffer buf)
    ((if (start =? 0) || (group =? 0)
      then panic "Invalid start or group numbers supplied."
      else ret tt) ;;
     (if 1 <? group then Buffer_WriteByte buf "("%char else ret tt) ;;
     Placeholders_loop (S (Z.to_nat count)) buf count start group 0 ;;
     (if 1 <? group then Buffer_WriteByte buf ")"%char else ret tt) ;;
     Buffer_String buf).

(** Lines 427-432: [for i, c := range cols], with [n] holding [len(cols)]. *)
Fixpoint WhereClause_loop (buf : nat) (start n i : Z) (cols : list string)
    : M unit :=
  match cols with
  | [] => ret tt
  | c :: rest =>
      Buffer_WriteString buf (fmt_assign c (wrap64 (start + i))) ;;
      (if i <? n - 1 then Buffer_WriteString buf " AND " else ret tt) ;;
      WhereClause_loop buf start n (i + 1) rest
  end.

Definition WhereClause (start : Z) (cols : list string) : M string :=
  (if start =? 0
   then panic "0 is not a valid start number for whereClause"
   else ret tt) ;;
  buf <- GetBuffer ;;
  defer (PutBuffer buf)
    (WhereClause_loop buf start (Z.of_nat (length cols)) 0 cols ;;
     Buffer_String buf).

(** ** The behaviour the specification describes

    These definitions follow the words of the specification, not the code;
    the theorems below compare the two. *)
Module Spec.

Definition lower_alphabet : list ascii := bytes "abcdefghijklmnopqrstuvwxyz".
Definition upper_alphabet : list ascii := bytes "ABCDEFGHIJKLMNOPQRSTUVWXYZ".

(** An ASCII lowercase letter, a digit, a vowel (a, e, i, o, u, y). *)
Definition is_lower (c : ascii) : bool := bool_decide (c ∈ lower_alphabet).
Definition is_digit (c : ascii) : bool := bool_decide (c ∈ bytes "0123456789").
Definition is_vowel (c : ascii) : bool := bool_decide (c ∈ bytes "aeiouy").

(** The uppercase letter of a lowercase letter; any other byte unchanged. *)
Definition to_upper (c : ascii) : ascii :=
  match list_find (fun x => x = c) lower_alphabet with
  | Some (i, _) => default c (upper_alphabet !! i)
  | None => c
  end.

(** Alphabetic Prefix: the substring of a word preceding its first digit,
    or the whole word if it contains no digit. *)
Fixpoint alpha_prefix (word : list ascii) : list ascii :=
  match word with
  | [] => []
  | c :: rest => if is_digit c then [] else c :: alpha_prefix rest
  end.

(** The Uppercase-Token Set. *)
Definition uppercase_tokens : list string := ["guid"; "id"; "uid"; "uuid"].

Definition acronym (word : list ascii) : bool :=
  bool_decide (str (alpha_prefix word) ∈ uppercase_tokens)
  || negb (existsb is_vowel word).

Definition upper_all (word : list ascii) : list ascii := map to_upper word.

Definition capitalize (word : list ascii) : list ascii :=
  match word with
  | [] => []
  | c :: rest => if is_lower c then to_upper c :: rest else word
  end.

(** Case Renderer. *)
Definition render (word : list ascii) : list ascii :=
  if acronym word then upper_all word else capitalize word.

(** Splitting on a separator byte, as [strings.Split] does: a string with
    k separators has k+1 components, empty ones included. *)
Fixpoint split_on (sep : ascii) (s : list ascii) : list (list ascii) :=
  match s with
  | [] => [[]]
  | c :: rest =>
      if Ascii.eqb c sep then [] :: split_on sep rest
      else match split_on sep rest with
           | w :: ws => (c :: w) :: ws
           | [] => [[c]]
           end
  end.

Fixpoint join (sep : ascii) (parts : list (list ascii)) : list ascii :=
  match parts with
  | [] => []
  | [w] => w
  | w :: ws => w ++ sep :: join sep ws
  end.

(** Word Segmenter: the maximal underscore-free runs, left to right. *)
Definition words (s : list ascii) : list (list ascii) :=
  filter (fun w => w <> []) (split_on underscore s).

(** TitleCase on a cache miss: the rendered words, concatenated. *)
Definition TitleCase (n : string) : string :=
  str (concat (map render (words (bytes n)))).

Fixpoint strip_underscores (s : list ascii) : list ascii :=
  match s with
  | c :: rest => if Ascii.eqb c underscore then strip_underscores rest else s
  | [] => []
  end.

(** The portion of [s] before its first underscore, and the portion after
    it when there is one. *)
Fixpoint cut_underscore (s : list ascii) : list ascii * option (list ascii) :=
  match s with
  | [] => ([], None)
  | c :: rest =>
      if Ascii.eqb c underscore then ([], Some rest)
      else let '(h, t) := cut_underscore rest in (c :: h, t)
  end.

Definition CamelCase (name : string) : string :=
  match strip_underscores (bytes name) with
  | [] => ""
  | rest =>
      match cut_underscore rest with
      | (_, None) => str rest
      | (head, Some tail) => str (head ++ bytes (TitleCase (str tail)))
      end
  end.

(** Split on '.', TitleCase every fragment, rejoin with '.'. *)
Definition TitleCaseIdentifier (id : string) : string :=
  str (join dot (map (fun f => bytes (TitleCase (str f)))
                     (split_on dot (bytes id)))).

(** The number of dot-separated components of a string. *)
Definition components (s : string) : nat := length (split_on dot (bytes s)).

End Spec.

(** ** Invariants and bookkeeping used by the proofs *)

(** [appended b out w w']: [w'] is [w] after [out] was appended to buffer
    [b]; the cache, the pool and the other buffers are as before. *)
Definition appended (b : nat) (out : list ascii) (w w' : World) : Prop :=
  titleCaseCache w' = titleCaseCache w /\
  bufPool w' = bufPool w /\
  exists old, heap w !! b = Some old /\ heap w' = <[b := old ++ out]> (heap w).

(** Every cache entry is what the algorithm computes for its key. *)
Definition cache_ok (w : World) : Prop :=
  forall k v, titleCaseCache w !! k = Some v -> v = Spec.TitleCase k.

(** The pool holds allocated buffers, each once. *)
Definition pool_ok (w : World) : Prop :=
  Forall (fun b => (b < length (heap w))%nat) (bufPool w) /\ NoDup (bufPool w).

Definition world_ok (w : World) : Prop := cache_ok w /\ pool_ok w.

(** A buffer some caller holds: allocated and not in the pool. *)
Definition held (w : World) (b : nat) : Prop :=
  (b < length (heap w))%nat /\ b ∉ bufPool w.

(** A step that leaves alone the buffers that are held when it starts. *)
Definition preserves_held (w w' : World) : Prop :=
  forall b, held w b -> held w' b /\ heap w' !! b = heap w !! b.

(** The caller holds buffer [b], whose bytes are [content]. *)
Definition owns (w : World) (b : nat) (content : list ascii) : Prop :=
  held w b /\ heap w !! b = Some content.

(** A step that leaves alone every held buffer other than [b]. *)
Definition frame_except (b : nat) (w w' : World) : Prop :=
  forall b', b' <> b -> held w b' -> held w' b' /\ heap w' !! b' = heap w !! b'.

(** The position of the first byte of [l] that satisfies [p]. *)
Fixpoint find_first (p : ascii -> bool) (l : list ascii) : option nat :=
  match l with
  | [] => None
  | c :: rest => if p c then Some 0%nat else S <$> find_first p rest
  end.

(** A call of one of the functions of the package. *)
Inductive Call : Type :=
  | CallTitleCase (n : string)
  | CallCamelCase (name : string)
  | CallTitleCaseIdentifier (id : string)
  | CallPlaceholders (count start group : Z)
  | CallWhereClause (start : Z) (cols : list string).

Definition run_call (c : Call) : M string :=
  match c with
  | CallTitleCase n => TitleCase n
  | CallCamelCase name => CamelCase name
  | CallTitleCaseIdentifier id => TitleCaseIdentifier id
  | CallPlaceholders count start group => Placeholders count start group
  | CallWhereClause start cols => WhereClause start cols
  end.

(** The worlds reached from the initial one by calls that return. *)
Inductive reachable : World -> Prop :=
  | reachable_init : reachable init_world
  | reachable_call w c r w' :
      reachable w -> run_call c w = Done r w' -> reachable w'.

(** The world a call leaves behind ([w] itself if the call does not return). *)
Definition world_after (c : Call) (w : World) : World :=
  match run_call c w with
  | Done _ w' => w'
  | _ => w
  end.

(** The world [w] with the cache entry of [n] dropped: a call of
    TitleCase(n) there computes afresh. *)
Definition forget (n : string) (w : World) : World :=
  {| titleCaseCache := delete n (titleCaseCache w); heap := heap w;
     bufPool := bufPool w; events := events w |}.

(** [scoped held tr]: starting with the buffers [held] acquired, the trace
    acquires only buffers it does not hold, writes, reads and releases only
    buffers it holds, and holds nothing when it ends. *)
Fixpoint scoped (held : list nat) (tr : list Event) : bool :=
  match tr with
  | [] => bool_decide (held = [])
  | EvGet b :: tr' => negb (bool_decide (b ∈ held)) && scoped (b :: held) tr'
  | EvPut b :: tr' =>
      bool_decide (b ∈ held) && scoped (filter (fun x => x <> b) held) tr'
  | EvWrite b :: tr' => bool_decide (b ∈ held) && scoped held tr'
  | EvRead b :: tr' => bool_decide (b ∈ held) && scoped held tr'
  | EvPrintln _ :: tr' => scoped held tr'
  end.

(** Split on '.', TitleCase each fragment, rejoin with '.': the contract of
    TitleCaseIdentifier written as a program over the embedded TitleCase. *)
Fixpoint TitleCase_each (fragments : list (list ascii)) : M (list (list ascii)) :=
  match fragments with
  | [] => ret []
  | f :: rest =>
      titled <- TitleCase (str f) ;;
      others <- TitleCase_each rest ;;
      ret (bytes titled :: others)
  end.

Definition split_TitleCase_join (id : string) : M string :=
  parts <- TitleCase_each (Spec.split_on dot (bytes id)) ;;
  ret (str (Spec.join dot parts)).

(** ** The other functions of strmangle.go *)

(** [len(s)] for a slice of any element type. *)
Definition llen {A} (s : list A) : Z := Z.of_nat (length s).

(** [s[i]] and [s[i] = v] on a slice, with Go's bounds checks. *)
Definition at_index {A} (s : list A) (i : Z) : M A :=
  match (if 0 <=? i then s !! Z.to_nat i else None) with
  | Some x => ret x
  | None => panic "index out of range"
  end.

Definition set_index {A} (s : list A) (i : Z) (v : A) : M (list A) :=
  if (0 <=? i) && (i <? llen s)
  then ret (<[Z.to_nat i := v]> s)
  else panic "index out of range".

(** [make([]string, n)] *)
Definition make_strings (n : nat) : list string := replicate n "".

(** [strings.Split(s, sep)] for a separator of one byte. *)
Definition Split (s : string) (sep : ascii) : list string :=
  map str (Spec.split_on sep (bytes s)).

(** Modelled from the spec: [boilRuleset] is a rule set of the inflection
    package, which is not among the sources.  The spec gives it two
    operations, [pluralize(word: string) -> string] and
    [singularize(word: string) -> string]. *)
Record Ruleset : Type := mkRuleset {
  Pluralize : string -> string;
  Singularize : string -> string
}.

(** Lines 115-126 of Plural and 138-149 of Singular: the two loops are the
    same but for the rule ([boilRuleset.Pluralize], [boilRuleset.Singularize])
    applied to the last component. *)
Fixpoint inflect_loop (fuel : nat) (rule : string -> string) (buf : nat)
    (splits : list string) (i : Z) : M unit :=
  match fuel with
  | O => out_of_fuel
  | S fuel' =>
      if i <? llen splits then
        (if negb (i =? 0) then Buffer_WriteByte buf underscore else ret tt) ;;
        if i =? llen splits - 1 then
          last <- at_index splits (llen splits - 1) ;;
          Buffer_WriteString buf (rule last)                  (* break *)
        else
          s <- at_index splits i ;;
          Buffer_WriteString buf s ;;
          inflect_loop fuel' rule buf splits (i + 1)
      else ret tt
  end.

(** Plural (lines 109-129) *)
Definition Plural (boilRuleset : Ruleset) (name : string) : M string :=
  buf <- GetBuffer ;;
  defer (PutBuffer buf)
    (let splits := Split name underscore in
     inflect_loop (S (length splits)) (Pluralize boilRuleset) buf splits 0 ;;
     Buffer_String buf).

(** Singular (lines 132-152) *)
Definition Singular (boilRuleset : Ruleset) (name : string) : M string :=
  buf <- GetBuffer ;;
  defer (PutBuffer buf)
    (let splits := Split name underscore in
     inflect_loop (S (length splits)) (Singularize boilRuleset) buf splits 0 ;;
     Buffer_String buf).

(** StringMap (lines 348-356).  The modifier is a function of the package,
    such as TitleCase, and runs in the same world. *)
Fixpoint StringMap_loop (modifier : string -> M string) (ret_ : list string)
    (i : Z) (strs : list string) : M (list string) :=
  match strs with
  | [] => ret ret_
  | s :: rest =>
      v <- modifier s ;;
      ret_ <- set_index ret_ i v ;;
      StringMap_loop modifier ret_ (i + 1) rest
  end.

Definition StringMap (modifier : string -> M string) (strs : list string)
    : M (list string) :=
  let ret_ := make_strings (length strs) in
  StringMap_loop modifier ret_ 0 strs.

(** PrefixStringSlice (lines 359-367) *)
Fixpoint PrefixStringSlice_loop (prefix : string) (ret_ : list string)
    (i : Z) (strs : list string) : M (list string) :=
  match strs with
  | [] => ret ret_
  | s :: rest =>
      ret_ <- set_index ret_ i (prefix +:+ s) ;;
      PrefixStringSlice_loop prefix ret_ (i + 1) rest
  end.

Definition PrefixStringSlice (prefix : string) (strs : list string)
    : M (list string) :=
  let ret_ := make_strings (length strs) in
  PrefixStringSlice_loop prefix ret_ 0 strs.

(** SetParamNames (lines 403-415) *)
Fixpoint SetParamNames_loop (buf : nat) (n i : Z) (columns : list string)
    : M unit :=
  match columns with
  | [] => ret tt
  | c :: rest =>
      Buffer_WriteString buf (fmt_assign c (i + 1)) ;;
      (if i <? n - 1 then Buffer_WriteString buf ", " else ret tt) ;;
      SetParamNames_loop buf n (i + 1) rest
  end.

Definition SetParamNames (columns : list string) : M string :=
  buf <- GetBuffer ;;
  defer (PutBuffer buf)
    (SetParamNames_loop buf (llen columns) 0 columns ;;
     Buffer_String buf).

(** JoinSlices (lines 438-452).  A nil slice is the empty list. *)
Fixpoint JoinSlices_loop (sep : string) (b ret_ : list string) (i : Z)
    (a : list string) : M (list string) :=
  match a with
  | [] => ret ret_
  | elem :: rest =>
      bi <- at_index b i ;;
      ret_ <- set_index ret_ i (elem +:+ sep +:+ bi) ;;
      JoinSlices_loop sep b ret_ (i + 1) rest
  end.

Definition JoinSlices (sep : string) (a b : list string) : M (list string) :=
  let lna := llen a in
  let lnb := llen b in
  if negb (lna =? lnb) then
    panic "joinSlices: can only merge slices of same length"
  else if lna =? 0 then
    ret []
  else
    let ret_ := make_strings (length a) in
    JoinSlices_loop sep b ret_ 0 a.

(** StringSliceMatch (lines 457-476) *)
Fixpoint StringSliceMatch_inner (aval : string) (found : bool)
    (b : list string) : bool :=
  match b with
  | [] => found
  | bval :: rest =>
      if String.eqb bval aval then true                       (* break *)
      else StringSliceMatch_inner aval found rest
  end.

Fixpoint StringSliceMatch_outer (b : list string) (a : list string) : bool :=
  match a with
  | [] => true
  | aval :: rest =>
      let found := StringSliceMatch_inner aval false b in
      if negb found then false
      else StringSliceMatch_outer b rest
  end.

Definition StringSliceMatch (a b : list string) : bool :=
  if negb (llen a =? llen b) then false
  else StringSliceMatch_outer b a.

(** ContainsAny (lines 480-490) *)
Fixpoint ContainsAny_inner (s : string) (finds : list string) : bool :=
  match finds with
  | [] => false
  | find :: rest =>
      if String.eqb s find then true else ContainsAny_inner s rest
  end.

Fixpoint ContainsAny (a : list string) (finds : list string) : bool :=
  match a with
  | [] => false
  | s :: rest =>
      if ContainsAny_inner s finds then true else ContainsAny rest finds
  end.

(** ** Descriptions used by the properties of those functions *)

(** Joining byte strings with a separator of any length. *)
Fixpoint join_with (sep : list ascii) (parts : list (list ascii)) : list ascii :=
  match parts with
  | [] => []
  | [p] => p
  | p :: ps => p ++ sep ++ join_with sep ps
  end.

(** A list cut into pieces of [n] elements, the last one possibly shorter. *)
Fixpoint chunks_fuel {A} (fuel n : nat) (l : list A) : list (list A) :=
  match fuel with
  | O => []
  | S fuel' =>
      match l with
      | [] => []
      | _ => take n l :: chunks_fuel fuel' n (drop n l)
      end
  end.

Definition chunks {A} (n : nat) (l : list A) : list (list A) :=
  chunks_fuel (length l) n l.

(** The placeholders [$start], [$start+1], ... of [count] parameters, counted
    from the [i]-th. *)
Fixpoint placeholder_items (count : nat) (start i : Z) : list (list ascii) :=
  match count with
  | O => []
  | S count' =>
      bytes (fmt_dollar (wrap64 (start + i)))
      :: placeholder_items count' start (i + 1)
  end.

(** The assignments ["c"=$k] of a list of columns, numbered from [k]. *)
Fixpoint assignments (wrap : Z -> Z) (k : Z) (cols : list string)
    : list (list ascii) :=
  match cols with
  | [] => []
  | c :: rest => bytes (fmt_assign c (wrap k)) :: assignments wrap (k + 1) rest
  end.

(** What the loop of Placeholders writes for [count] parameters from the
    [i]-th on: before each but the very first a separator, "),(" where a
    group is full and "," elsewhere. *)
Fixpoint placeholders_from (count : nat) (start group i : Z) : list ascii :=
  match count with
  | O => []
  | S count' =>
      (if i =? 0 then []
       else if (1 <? group) && (Z.rem i group =? 0) then bytes "),("
       else bytes ",")
      ++ bytes (fmt_dollar (wrap64 (start + i)))
      ++ placeholders_from count' start group (i + 1)
  end.

(** The components of a name with the rule applied to the last one. *)
Fixpoint inflect_last (rule : string -> string) (parts : list string)
    : list (list ascii) :=
  match parts with
  | [] => []
  | [p] => [bytes (rule p)]
  | p :: ps => bytes p :: inflect_last rule ps
  end.

(** Buffers that are not in the pool. *)
Definition outstanding (w : World) : Z :=
  Z.of_nat (length (heap w)) - Z.of_nat (length (bufPool w)).

(** [does Rc d m]: whenever [m] returns, the cache after is related by [Rc]
    to the cache before and [d] more buffers are outside the pool. *)
Definition does (Rc : relation (gmap string string)) (d : Z) {A} (m : M A)
    : Prop :=
  forall w a w',
    m w = Done a w' ->
    Rc (titleCaseCache w) (titleCaseCache w') /\
    outstanding w' = outstanding w + d.

(** The lines [fmt.Println] wrote. *)
Definition printed (w : World) : list (list Z) :=
  rev (omap (fun e => match e with EvPrintln args => Some args | _ => None end)
            (events w)).

(** [quiet m]: whenever [m] returns, it has printed nothing. *)
Definition quiet {A} (m : M A) : Prop :=
  forall w a w', m w = Done a w' -> printed w' = printed w.

(** The byte ranges [start, end) of the components of a string, the first
    of which starts at [offset]; components are one separator byte apart. *)
Fixpoint component_ranges (offset : Z) (parts : list (list ascii)) : list (list Z) :=
  match parts with
  | [] => []
  | p :: ps => [offset; offset + len p] :: component_ranges (offset + len p + 1) ps
  end.

(** * Proofs *)

(** ** Bytes: the numeric tests of the code against the character classes *)

Ltac all_bytes c :=
  destruct c as [[] [] [] [] [] [] [] []]; vm_compute; reflexivity.

Lemma is_lower_code (c : ascii) :
  Spec.is_lower c = (96 <? code c) && (code c <? 123).
Proof. all_bytes c. Qed.

Lemma is_digit_code (c : ascii) :
  Spec.is_digit c = (47 <? code c) && (code c <? 58).
Proof. all_bytes c. Qed.

Lemma is_vowel_code (c : ascii) :
  Spec.is_vowel c =
  (code c =? 97) || (code c =? 101) || (code c =? 105)
  || (code c =? 111) || (code c =? 117) || (code c =? 121).
Proof. all_bytes c. Qed.

Lemma to_upper_code (c : ascii) :
  Spec.to_upper c =
  if (96 <? code c) && (code c <? 123) then byte_of_Z (code c - 32) else c.
Proof. all_bytes c. Qed.

(** ** Running the monad *)

Lemma bind_run {A B} (m : M A) (k : A -> M B) w a w1 :
  m w = Done a w1 -> bind m k w = k a w1.
Proof. intros H. unfold bind. by rewrite H. Qed.

Lemma ret_run {A} (a : A) w : ret a w = Done a w.
Proof. reflexivity. Qed.

Lemma appended_refl b w : is_Some (heap w !! b) -> appended b [] w w.
Proof.
  intros [old Hold]. repeat split; exists old; split; [done|].
  rewrite app_nil_r. symmetry. by apply list_insert_id.
Qed.

Lemma appended_lookup b out w w' old :
  appended b out w w' -> heap w !! b = Some old ->
  heap w' !! b = Some (old ++ out).
Proof.
  intros (_ & _ & old' & Hold & ->) H. rewrite Hold in H. injection H as ->.
  apply list_lookup_insert_eq. by eapply lookup_lt_Some.
Qed.

Lemma appended_is_Some b out w w' :
  appended b out w w' -> is_Some (heap w' !! b).
Proof.
  intros H. destruct H as (Hc & Hp & old & Hold & Hh).
  exists (old ++ out). eapply appended_lookup; [|done]. repeat split; eauto.
Qed.

Lemma appended_trans b o1 o2 w w1 w2 :
  appended b o1 w w1 -> appended b o2 w1 w2 -> appended b (o1 ++ o2) w w2.
Proof.
  intros H1 H2.
  destruct H1 as (Hc1 & Hp1 & old & Hold & Hh1).
  destruct H2 as (Hc2 & Hp2 & old2 & Hold2 & Hh2).
  repeat split; [congruence | congruence |].
  exists old. split; [done|].
  rewrite Hh2, Hh1, list_insert_insert_eq. f_equal.
  rewrite Hh1, list_lookup_insert_eq in Hold2 by (by eapply lookup_lt_Some).
  injection Hold2 as <-. by rewrite app_assoc.
Qed.

Lemma appended_other b out w w' b' :
  appended b out w w' -> b' <> b -> heap w' !! b' = heap w !! b'.
Proof.
  intros (_ & _ & old & _ & ->) Hne. by apply list_lookup_insert_ne.
Qed.

Lemma appended_length b out w w' :
  appended b out w w' -> length (heap w') = length (heap w).
Proof. intros (_ & _ & old & _ & ->). apply length_insert. Qed.

Lemma Buffer_Write_appended b bs w :
  is_Some (heap w !! b) ->
  exists w', Buffer_Write b bs w = Done tt w' /\ appended b bs w w'.
Proof.
  intros [old Hold]. unfold Buffer_Write. rewrite Hold. eexists. split; [done|].
  repeat split. by exists old.
Qed.

Lemma Buffer_WriteByte_appended b c w :
  is_Some (heap w !! b) ->
  exists w', Buffer_WriteByte b c w = Done tt w' /\ appended b [c] w w'.
Proof. apply Buffer_Write_appended. Qed.

Lemma Buffer_WriteString_appended b s w :
  is_Some (heap w !! b) ->
  exists w', Buffer_WriteString b s w = Done tt w' /\ appended b (bytes s) w w'.
Proof. apply Buffer_Write_appended. Qed.

(** ** The Case Renderer *)

Lemma writeUpper_appended b word w :
  is_Some (heap w !! b) ->
  exists w', writeUpper b word w = Done tt w' /\
             appended b (Spec.upper_all word) w w'.
Proof.
  revert w. induction word as [|c rest IH]; intros w Hb.
  - exists w. split; [done|]. by apply appended_refl.
  - cbn [writeUpper Spec.upper_all map].
    assert (exists w1, (if (96 <? code c) && (code c <? 123)
                        then Buffer_WriteByte b (byte_of_Z (code c - 32))
                        else Buffer_WriteByte b c) w = Done tt w1
                       /\ appended b [Spec.to_upper c] w w1) as (w1 & Hrun & Happ).
    { rewrite to_upper_code.
      destruct ((96 <? code c) && (code c <? 123)); by apply Buffer_WriteByte_appended. }
    rewrite (bind_run _ _ _ _ _ Hrun).
    destruct (IH w1) as (w2 & Hrun2 & Happ2); [by eapply appended_is_Some|].
    exists w2. split; [done|].
    change (Spec.to_upper c :: map Spec.to_upper rest)
      with ([Spec.to_upper c] ++ Spec.upper_all rest).
    by eapply appended_trans.
Qed.

Lemma scanWord_vowels word i wl v ns :
  (scanWord word i wl v ns).1 = v || existsb Spec.is_vowel word.
Proof.
  revert i v ns. induction word as [|c rest IH]; intros i v ns; cbn [scanWord existsb].
  - by rewrite orb_false_r.
  - rewrite IH, is_vowel_code. by destruct v.
Qed.

Lemma scanWord_numStart_kept word i wl v ns :
  ns <> wl -> (scanWord word i wl v ns).2 = ns.
Proof.
  revert i v ns. induction word as [|c rest IH]; intros i v ns Hne; cbn [scanWord].
  - done.
  - replace (ns =? wl) with false by (symmetry; by apply Z.eqb_neq).
    rewrite andb_false_r. by apply IH.
Qed.

Lemma scanWord_numStart word i wl v :
  i + len word = wl ->
  (scanWord word i wl v wl).2 = i + len (Spec.alpha_prefix word).
Proof.
  revert i v. induction word as [|c rest IH]; intros i v Hlen;
    cbn [scanWord Spec.alpha_prefix].
  - unfold len in *. cbn [length snd] in *. lia.
  - rewrite Z.eqb_refl, andb_true_r, <- is_digit_code.
    unfold len in Hlen. cbn [length] in Hlen.
    destruct (Spec.is_digit c).
    + rewrite scanWord_numStart_kept by lia. unfold len. cbn [length]. lia.
    + rewrite IH by (unfold len; lia). unfold len. cbn [length]. lia.
Qed.

Lemma alpha_prefix_take word :
  take (length (Spec.alpha_prefix word)) word = Spec.alpha_prefix word.
Proof.
  induction word as [|c rest IH]; cbn [Spec.alpha_prefix]; [done|].
  destruct (Spec.is_digit c); [done|]. cbn. by rewrite IH.
Qed.

Lemma alpha_prefix_length word :
  (length (Spec.alpha_prefix word) <= length word)%nat.
Proof.
  induction word as [|c rest IH]; cbn [Spec.alpha_prefix]; [done|].
  destruct (Spec.is_digit c); cbn; lia.
Qed.

Lemma uppercaseWords_has_spec key :
  uppercaseWords_has key = bool_decide (key ∈ Spec.uppercase_tokens).
Proof.
  unfold uppercaseWords_has, uppercaseWords, Spec.uppercase_tokens.
  apply bool_decide_ext.
  rewrite !elem_of_union, !elem_of_singleton, !elem_of_cons, elem_of_nil. tauto.
Qed.

Lemma slice_run s lo hi w :
  0 <= lo -> lo <= hi -> hi <= len s ->
  slice s lo hi w = Done (take (Z.to_nat (hi - lo)) (drop (Z.to_nat lo) s)) w.
Proof.
  intros H1 H2 H3. unfold slice.
  apply Z.leb_le in H1, H2, H3. by rewrite H1, H2, H3.
Qed.

Lemma index_run s i c w :
  0 <= i -> s !! Z.to_nat i = Some c -> index s i w = Done c w.
Proof.
  intros H1 H2. unfold index. apply Z.leb_le in H1. by rewrite H1, H2.
Qed.

Lemma renderWord_appended b word w :
  is_Some (heap w !! b) ->
  exists w', renderWord b word w = Done tt w' /\
             appended b (Spec.render word) w w'.
Proof.
  intros Hb. unfold renderWord.
  pose proof (scanWord_vowels word 0 (len word) false (len word)) as Hv.
  pose proof (scanWord_numStart word 0 (len word) false eq_refl) as Hn.
  destruct (scanWord word 0 (len word) false (len word)) as [vowels numStart].
  cbn [fst snd orb] in Hv, Hn. subst vowels numStart.
  pose proof (alpha_prefix_length word) as Hle.
  erewrite bind_run by (apply slice_run; unfold len; lia).
  replace (Z.to_nat (0 + len (Spec.alpha_prefix word) - 0))
    with (length (Spec.alpha_prefix word)) by (unfold len; lia).
  change (Z.to_nat 0) with 0%nat. rewrite drop_0, alpha_prefix_take.
  rewrite uppercaseWords_has_spec.
  unfold Spec.render, Spec.acronym.
  destruct (bool_decide _ || negb (existsb Spec.is_vowel word)) eqn:Hacr.
  - by apply writeUpper_appended.
  - destruct word as [|c rest].
    { cbn in Hacr. by rewrite orb_true_r in Hacr. }
    rewrite (bind_run _ _ _ _ _ (index_run (c :: rest) 0 c w ltac:(lia) eq_refl)).
    cbn [Spec.capitalize]. rewrite is_lower_code.
    destruct ((96 <? code c) && (code c <? 123)) eqn:Hlow.
    + rewrite (bind_run _ _ _ _ _ (index_run (c :: rest) 0 c w ltac:(lia) eq_refl)).
      destruct (Buffer_WriteByte_appended b (byte_of_Z (code c - 32)) w Hb)
        as (w1 & Hrun1 & Happ1).
      rewrite (bind_run _ _ _ _ _ Hrun1).
      erewrite bind_run by (apply slice_run; unfold len; cbn [length]; lia).
      replace (Z.to_nat (len (c :: rest) - 1)) with (length rest)
        by (unfold len; cbn [length]; lia).
      change (Z.to_nat 1) with 1%nat. cbn [drop]. rewrite drop_0, firstn_all.
      destruct (Buffer_Write_appended b rest w1) as (w2 & Hrun2 & Happ2);
        [by eapply appended_is_Some|].
      exists w2. split; [done|].
      rewrite to_upper_code, Hlow.
      change (byte_of_Z (code c - 32) :: rest)
        with ([byte_of_Z (code c - 32)] ++ rest).
      by eapply appended_trans.
    + by apply Buffer_Write_appended.
Qed.

(** ** The Word Segmenter *)

Lemma split_on_no_sep sep w :
  Forall (fun c => c <> sep) w -> Spec.split_on sep w = [w].
Proof.
  induction 1 as [|c rest Hc _ IH]; cbn [Spec.split_on]; [done|].
  apply Ascii.eqb_neq in Hc. by rewrite Hc, IH.
Qed.

Lemma split_on_app_sep sep w r :
  Forall (fun c => c <> sep) w ->
  Spec.split_on sep (w ++ sep :: r) = w :: Spec.split_on sep r.
Proof.
  induction 1 as [|c rest Hc _ IH]; cbn [Spec.split_on app].
  - by rewrite Ascii.eqb_refl.
  - apply Ascii.eqb_neq in Hc. by rewrite Hc, IH.
Qed.

Lemma words_nil : Spec.words [] = [].
Proof. reflexivity. Qed.

Lemma words_underscore r : Spec.words (underscore :: r) = Spec.words r.
Proof.
  unfold Spec.words. cbn [Spec.split_on]. rewrite Ascii.eqb_refl.
  by rewrite filter_cons_False by (intros H; by apply H).
Qed.

Lemma words_last w :
  w <> [] -> Forall (fun c => c <> underscore) w -> Spec.words w = [w].
Proof.
  intros Hne Hw. unfold Spec.words. rewrite split_on_no_sep by done.
  by rewrite filter_cons_True.
Qed.

Lemma words_first w r :
  w <> [] -> Forall (fun c => c <> underscore) w ->
  Spec.words (w ++ underscore :: r) = w :: Spec.words r.
Proof.
  intros Hne Hw. unfold Spec.words. rewrite split_on_app_sep by done.
  by rewrite filter_cons_True.
Qed.

Lemma split_on_not_nil sep s : Spec.split_on sep s <> [].
Proof.
  destruct s as [|c rest]; cbn [Spec.split_on]; [done|].
  destruct (Ascii.eqb c sep); [done|]. by destruct (Spec.split_on sep rest).
Qed.

Lemma join_cons sep w ws :
  ws <> [] -> Spec.join sep (w :: ws) = w ++ sep :: Spec.join sep ws.
Proof. by destruct ws. Qed.

(** The pieces of a split, joined with the separator, are the string. *)
Lemma join_split_on sep s : Spec.join sep (Spec.split_on sep s) = s.
Proof.
  induction s as [|c rest IH]; cbn [Spec.split_on]; [done|].
  destruct (Ascii.eqb_spec c sep) as [->|Hne].
  - rewrite join_cons by apply split_on_not_nil. cbn [app]. by rewrite IH.
  - pose proof (split_on_not_nil sep rest) as Hnil.
    destruct (Spec.split_on sep rest) as [|w ws]; [done|].
    rewrite <- IH. by destruct ws.
Qed.

(** The words, concatenated, are the string with its underscores dropped. *)
Lemma concat_words s :
  concat (Spec.words s) = filter (fun c => c <> underscore) s.
Proof.
  unfold Spec.words. induction s as [|c rest IH]; cbn [Spec.split_on]; [done|].
  destruct (Ascii.eqb_spec c underscore) as [->|Hne].
  - rewrite filter_cons_False by (intros H; by apply H).
    rewrite (filter_cons_False _ underscore) by (intros H; by apply H). done.
  - rewrite (filter_cons_True _ c) by done. rewrite <- IH.
    destruct (Spec.split_on underscore rest) as [|w ws]; [done|].
    rewrite filter_cons_True by done. cbn [concat app].
    destruct (decide (w = [])) as [->|Hw].
    + by rewrite filter_cons_False by (intros H; by apply H).
    + by rewrite filter_cons_True by done.
Qed.

(** Every word is non-empty and free of underscores. *)
Lemma split_on_free sep s :
  Forall (Forall (fun c => c <> sep)) (Spec.split_on sep s).
Proof.
  induction s as [|c rest IH]; cbn [Spec.split_on].
  - by repeat constructor.
  - destruct (Ascii.eqb_spec c sep) as [->|Hne].
    + by constructor.
    + destruct (Spec.split_on sep rest) as [|w ws].
      * by repeat constructor.
      * inversion IH; subst. constructor; [by constructor | done].
Qed.

Lemma words_wellformed s :
  Forall (fun w => w <> [] /\ Forall (fun c => c <> underscore) w) (Spec.words s).
Proof.
  unfold Spec.words. apply List.Forall_forall. intros w Hw.
  apply list_elem_of_In in Hw. apply list_elem_of_filter in Hw as [Hne Hin].
  split; [done|].
  pose proof (split_on_free underscore s) as HF.
  rewrite List.Forall_forall in HF. by apply HF, list_elem_of_In.
Qed.

(** ** The loop of TitleCase *)

Lemma bind_assoc {A B C} (m : M A) (f : A -> M B) (g : B -> M C) w :
  bind (bind m f) g w = bind m (fun x => bind (f x) g) w.
Proof. unfold bind. by destruct (m w). Qed.

Lemma bind_ret {A B} (a : A) (k : A -> M B) w : bind (ret a) k w = k a w.
Proof. reflexivity. Qed.

Lemma index_nat s (i : nat) c w :
  s !! i = Some c -> index s (Z.of_nat i) w = Done c w.
Proof. intros H. apply index_run; [lia|]. by rewrite Nat2Z.id. Qed.

Lemma slice_nat s (lo hi : nat) w :
  (lo <= hi)%nat -> (hi <= length s)%nat ->
  slice s (Z.of_nat lo) (Z.of_nat hi) w = Done (take (hi - lo) (drop lo s)) w.
Proof.
  intros H1 H2. rewrite slice_run by (unfold len; lia).
  by rewrite Nat2Z.id, <- Nat2Z.inj_sub, Nat2Z.id by done.
Qed.

Lemma TitleCase_loop_appended fuel name b (s e : nat) w :
  is_Some (heap w !! b) ->
  (s <= e)%nat ->
  ((s < length name)%nat -> (e <= length name)%nat) ->
  Forall (fun c => c <> underscore) (take (e - s) (drop s name)) ->
  ((length name - s) + (length name - e) < fuel)%nat ->
  exists w',
    TitleCase_loop fuel name (len name) b (Z.of_nat s) (Z.of_nat e) w
      = Done tt w' /\
    appended b (concat (map Spec.render (Spec.words (drop s name)))) w w'.
Proof.
  revert s e w. induction fuel as [|fuel IH]; intros s e w Hb Hse Hbound Hfree Hfuel;
    [lia|].
  cbn [TitleCase_loop].
  destruct (Z.ltb_spec (Z.of_nat s) (len name)) as [Hs|Hs]; unfold len in Hs.
  2:{ exists w. split; [done|].
      rewrite drop_ge by lia. by apply appended_refl. }
  assert (Hs' : (s < length name)%nat) by lia. specialize (Hbound Hs').
  destruct (lookup_lt_is_Some_2 name s Hs') as [c Hc].
  (* the step that renders the word name[s:e] and moves on *)
  assert (Hword : forall rest,
    (s < e)%nat ->
    drop s name = take (e - s) (drop s name) ++ rest ->
    Spec.words (drop s name)
      = take (e - s) (drop s name) :: Spec.words (drop (S e) name) ->
    exists w',
      (word <- slice name (Z.of_nat s) (Z.of_nat e) ;;
       renderWord b word ;;
       TitleCase_loop fuel name (len name) b (Z.of_nat e + 1) (Z.of_nat e + 1)) w
        = Done tt w' /\
      appended b (concat (map Spec.render (Spec.words (drop s name)))) w w').
  { intros rest Hlt Hsplit Hwords.
    erewrite bind_run by (by apply slice_nat).
    destruct (renderWord_appended b (take (e - s) (drop s name)) w Hb)
      as (w1 & Hrun1 & Happ1).
    rewrite (bind_run _ _ _ _ _ Hrun1).
    replace (Z.of_nat e + 1) with (Z.of_nat (S e)) by lia.
    destruct (IH (S e) (S e) w1) as (w2 & Hrun2 & Happ2);
      [by eapply appended_is_Some | lia | lia
      | by rewrite Nat.sub_diag | lia |].
    exists w2. split; [done|].
    rewrite Hwords. cbn [map concat]. by eapply appended_trans. }
  destruct (Z.ltb_spec (Z.of_nat e) (len name)) as [He|He]; unfold len in He.
  - assert (He' : (e < length name)%nat) by lia.
    destruct (lookup_lt_is_Some_2 name e He') as [c' Hc'].
    rewrite bind_assoc. erewrite bind_run by (by apply index_nat).
    destruct (Ascii.eqb_spec c underscore) as [->|Hcne].
    + (* an underscore at start: skip it *)
      rewrite bind_ret.
      assert (s = e) as <-.
      { destruct (decide (s = e)) as [|Hne]; [done|exfalso].
        replace (e - s)%nat with (S (e - s - 1)) in Hfree by lia.
        rewrite (drop_S _ _ _ Hc) in Hfree. cbn [take] in Hfree.
        by inversion Hfree. }
      replace (Z.of_nat s + 1) with (Z.of_nat (S s)) by lia.
      destruct (IH (S s) (S s) w) as (w' & Hrun & Happ);
        [done | lia | lia | by rewrite Nat.sub_diag | lia |].
      exists w'. split; [done|].
      by rewrite (drop_S _ _ _ Hc), words_underscore.
    + rewrite bind_assoc. erewrite bind_run by (by apply index_nat).
      destruct (Ascii.eqb_spec c' underscore) as [->|Hcne'].
      * (* the word ends before an underscore *)
        cbn [negb]. rewrite bind_ret.
        assert (Hlt : (s < e)%nat).
        { destruct (decide (s = e)) as [->|]; [congruence | lia]. }
        assert (Hsplit : drop s name =
                         take (e - s) (drop s name) ++ underscore :: drop (S e) name).
        { rewrite <- (take_drop (e - s) (drop s name)) at 1. f_equal.
          rewrite drop_drop. replace (s + (e - s))%nat with e by lia.
          by apply drop_S. }
        apply (Hword _ Hlt Hsplit).
        rewrite Hsplit at 1. apply words_first; [|done].
        intros Hnil. apply (f_equal length) in Hnil.
        rewrite length_take, length_drop in Hnil. cbn in Hnil. lia.
      * (* the word goes on *)
        cbn [negb]. rewrite bind_ret.
        replace (Z.of_nat e + 1) with (Z.of_nat (S e)) by lia.
        destruct (IH s (S e) w) as (w' & Hrun & Happ); [done | lia | lia | | lia |].
        { replace (S e - s)%nat with (S (e - s)) by lia.
          rewrite (take_S_r _ _ c').
          - apply Forall_app. split; [done | by repeat constructor].
          - rewrite lookup_drop. by replace (s + (e - s))%nat with e by lia. }
        by exists w'.
  - (* the last word ends where the name does *)
    rewrite bind_ret.
    assert (e = length name) as -> by lia.
    assert (Hall : take (length name - s) (drop s name) = drop s name).
    { apply take_ge. rewrite length_drop. lia. }
    apply (Hword [] ltac:(lia)).
    + by rewrite Hall, app_nil_r.
    + rewrite (drop_ge name (S (length name))) by lia. rewrite words_nil.
      rewrite Hall in *. apply words_last; [|done].
      intros Hnil. apply (f_equal length) in Hnil.
      rewrite length_drop in Hnil. cbn in Hnil. lia.
Qed.

(** ** Well-formed worlds *)

Lemma preserves_held_refl w : preserves_held w w.
Proof. by intros b Hb. Qed.

Lemma preserves_held_trans w1 w2 w3 :
  preserves_held w1 w2 -> preserves_held w2 w3 -> preserves_held w1 w3.
Proof.
  intros H12 H23 b Hb. destruct (H12 b Hb) as [Hb2 Heq2].
  destruct (H23 b Hb2) as [Hb3 Heq3]. split; [done | congruence].
Qed.

Lemma init_world_ok : world_ok init_world.
Proof.
  split; [|split].
  - intros k v H. cbn in H. by rewrite lookup_empty in H.
  - constructor.
  - constructor.
Qed.

Lemma held_is_Some w b : held w b -> is_Some (heap w !! b).
Proof. intros [Hlt _]. by apply lookup_lt_is_Some_2. Qed.

Lemma appended_pool_ok b out w w' : appended b out w w' -> pool_ok w -> pool_ok w'.
Proof.
  intros Happ [Hval Hnd]. pose proof (appended_length _ _ _ _ Happ) as Hlen.
  destruct Happ as (_ & Hp & _). unfold pool_ok. rewrite Hp, Hlen. done.
Qed.

Lemma appended_held b out w w' b' : appended b out w w' -> held w b' -> held w' b'.
Proof.
  intros Happ [Hlt Hnin]. pose proof (appended_length _ _ _ _ Happ) as Hlen.
  destruct Happ as (_ & Hp & _). unfold held. rewrite Hp, Hlen. done.
Qed.

Lemma appended_preserves_held b out w w' :
  appended b out w w' -> forall b', b' <> b -> held w b' ->
  held w' b' /\ heap w' !! b' = heap w !! b'.
Proof.
  intros Happ b' Hne Hb'. split; [by eapply appended_held|].
  by eapply appended_other.
Qed.

Lemma GetBuffer_run w :
  pool_ok w ->
  exists b w1,
    GetBuffer w = Done b w1 /\
    titleCaseCache w1 = titleCaseCache w /\
    heap w1 !! b = Some [] /\
    held w1 b /\ pool_ok w1 /\
    (forall b', held w b' ->
       b' <> b /\ held w1 b' /\ heap w1 !! b' = heap w !! b').
Proof.
  intros [Hval Hnd]. unfold GetBuffer, pool_ok, held.
  destruct (bufPool w) as [|b rest] eqn:Hpool.
  - exists (length (heap w)). eexists. split; [done|]. cbn.
    rewrite length_app. cbn [length].
    split_and!; try done.
    + by rewrite lookup_app_r, Nat.sub_diag by lia.
    + lia.
    + apply not_elem_of_nil.
    + intros b' [Hlt _]. split_and!; [lia | lia | |].
      * apply not_elem_of_nil.
      * by rewrite lookup_app_l.
  - inversion Hval as [|? ? Hb Hrest]; subst.
    inversion Hnd as [|? ? Hnin Hnd']; subst.
    exists b. eexists. split; [done|]. cbn.
    rewrite length_insert.
    split_and!; try done.
    + by apply list_lookup_insert_eq.
    + intros b' [Hlt Hnin'].
      assert (b' <> b) by (intros ->; apply Hnin'; by left).
      split_and!; try done.
      * intros Hin. apply Hnin'. by right.
      * by apply list_lookup_insert_ne.
Qed.

Lemma PutBuffer_run b w :
  held w b -> pool_ok w ->
  exists w',
    PutBuffer b w = Done tt w' /\
    titleCaseCache w' = titleCaseCache w /\
    heap w' = heap w /\
    pool_ok w' /\
    (forall b', b' <> b -> held w b' -> held w' b').
Proof.
  intros [Hlt Hnin] [Hval Hnd]. eexists. split; [done|].
  unfold pool_ok, held. cbn.
  split_and!; try done.
  - by constructor.
  - by constructor.
  - intros b' Hne [Hlt' Hnin']. split; [done|].
    intros Hin. apply elem_of_cons in Hin as [|]; done.
Qed.

Lemma Buffer_String_run b w old :
  heap w !! b = Some old ->
  exists w',
    Buffer_String b w = Done (str old) w' /\
    titleCaseCache w' = titleCaseCache w /\
    heap w' = heap w /\ bufPool w' = bufPool w.
Proof. intros H. unfold Buffer_String. rewrite H. by eexists. Qed.

(** ** TitleCase *)

Lemma str_bytes s : str (bytes s) = s.
Proof. apply string_of_list_ascii_of_string. Qed.

Lemma bytes_str l : bytes (str l) = l.
Proof. apply list_ascii_of_string_of_list_ascii. Qed.

Lemma TitleCase_hit_run n w v :
  titleCaseCache w !! n = Some v -> TitleCase n w = Done v w.
Proof.
  intros H. unfold TitleCase, RLock, RUnlock, cache_get.
  rewrite bind_ret. unfold bind at 1. rewrite H. by rewrite bind_ret.
Qed.

Lemma TitleCase_miss_run n w :
  pool_ok w -> titleCaseCache w !! n = None ->
  exists w',
    TitleCase n w = Done (Spec.TitleCase n) w' /\
    titleCaseCache w' = <[n := Spec.TitleCase n]> (titleCaseCache w) /\
    pool_ok w' /\ preserves_held w w'.
Proof.
  intros Hpool Hmiss. unfold TitleCase, RLock, RUnlock, Lock, Unlock, cache_get.
  rewrite bind_ret. unfold bind at 1. rewrite Hmiss, bind_ret.
  destruct (GetBuffer_run w Hpool)
    as (b & w1 & Hget & Hc1 & Hb1 & Hheld1 & Hpool1 & Hframe1).
  rewrite (bind_run _ _ _ _ _ Hget).
  destruct (TitleCase_loop_appended (TitleCase_fuel (bytes n)) (bytes n) b 0 0 w1)
    as (w2 & Hloop & Happ); [by eexists | lia | lia | by constructor
                             | unfold TitleCase_fuel; lia |].
  change (Z.of_nat 0) with 0 in Hloop. unfold slen.
  rewrite (bind_run _ _ _ _ _ Hloop).
  rewrite drop_0 in Happ.
  pose proof (appended_lookup _ _ _ _ _ Happ Hb1) as Hb2. cbn [app] in Hb2.
  destruct (Buffer_String_run b w2 _ Hb2) as (w3 & Hstr & Hc3 & Hh3 & Hp3).
  rewrite (bind_run _ _ _ _ _ Hstr). fold (Spec.TitleCase n).
  assert (Hheld3 : held w3 b).
  { unfold held. rewrite Hh3, Hp3. by eapply appended_held. }
  assert (Hpool3 : pool_ok w3).
  { unfold pool_ok. rewrite Hh3, Hp3. by eapply appended_pool_ok. }
  destruct (PutBuffer_run b w3 Hheld3 Hpool3)
    as (w4 & Hput & Hc4 & Hh4 & Hpool4 & Hframe4).
  rewrite (bind_run _ _ _ _ _ Hput), bind_ret.
  unfold cache_set. unfold bind at 1. rewrite bind_ret.
  eexists. split; [done|]. cbn.
  split_and!.
  - pose proof Happ as (Hc2 & _ & _). congruence.
  - done.
  - intros b' Hb'. destruct (Hframe1 b' Hb') as (Hne & Hb'1 & Heq1).
    unfold held. cbn. split.
    + apply Hframe4; [done|]. unfold held. rewrite Hh3, Hp3.
      by eapply appended_held.
    + rewrite Hh4, Hh3, <- Heq1. by eapply appended_other.
Qed.

Lemma TitleCase_run n w :
  world_ok w ->
  exists w',
    TitleCase n w = Done (Spec.TitleCase n) w' /\
    world_ok w' /\ preserves_held w w'.
Proof.
  intros [Hcache Hpool].
  destruct (titleCaseCache w !! n) as [v|] eqn:Hn.
  - exists w. rewrite (TitleCase_hit_run _ _ _ Hn), (Hcache _ _ Hn).
    split_and!; done.
  - destruct (TitleCase_miss_run n w Hpool Hn) as (w' & Hrun & Hc & Hp & Hf).
    exists w'. split; [done|]. split; [split; [|done] | done].
    intros k v. rewrite Hc. intros Hk.
    apply lookup_insert_Some in Hk as [[<- <-]|[_ Hk]]; [done|].
    by apply Hcache.
Qed.

(** ** Calls that hold a buffer *)

Lemma frame_except_refl b w : frame_except b w w.
Proof. by intros b' _ Hb'. Qed.

Lemma frame_except_trans b w1 w2 w3 :
  frame_except b w1 w2 -> frame_except b w2 w3 -> frame_except b w1 w3.
Proof.
  intros H12 H23 b' Hne Hb. destruct (H12 b' Hne Hb) as [Hb2 Heq2].
  destruct (H23 b' Hne Hb2) as [Hb3 Heq3]. split; [done | congruence].
Qed.

Lemma preserves_held_frame b w w' : preserves_held w w' -> frame_except b w w'.
Proof. intros H b' _ Hb'. by apply H. Qed.

Lemma world_ok_same_cache w w' :
  titleCaseCache w' = titleCaseCache w -> cache_ok w -> pool_ok w' -> world_ok w'.
Proof. intros Hc Hcache Hpool. split; [|done]. unfold cache_ok. by rewrite Hc. Qed.

Lemma Buffer_Write_owned b bs w c :
  world_ok w -> owns w b c ->
  exists w',
    Buffer_Write b bs w = Done tt w' /\
    world_ok w' /\ owns w' b (c ++ bs) /\ frame_except b w w'.
Proof.
  intros [Hcache Hpool] [Hheld Hb].
  destruct (Buffer_Write_appended b bs w) as (w' & Hrun & Happ); [by eexists|].
  exists w'. split; [done|]. split_and!.
  - pose proof Happ as (Hc & _).
    apply (world_ok_same_cache w); [done | done | by eapply appended_pool_ok].
  - split; [by eapply appended_held | by eapply appended_lookup].
  - intros b' Hne Hb'. by eapply appended_preserves_held.
Qed.

Lemma TitleCase_owned n b w c :
  world_ok w -> owns w b c ->
  exists w',
    TitleCase n w = Done (Spec.TitleCase n) w' /\
    world_ok w' /\ owns w' b c /\ frame_except b w w'.
Proof.
  intros Hok [Hheld Hb].
  destruct (TitleCase_run n w Hok) as (w' & Hrun & Hok' & Hframe).
  exists w'. split; [done|]. split; [done|].
  destruct (Hframe b Hheld) as [Hheld' Heq].
  split; [split; [done | congruence] | by apply preserves_held_frame].
Qed.

Lemma log_owned e b w c :
  world_ok w -> owns w b c ->
  exists w',
    log e w = Done tt w' /\
    world_ok w' /\ owns w' b c /\ frame_except b w w'.
Proof. intros Hok Hown. eexists. split; [done|]. by split_and!. Qed.

Lemma GetBuffer_owned w :
  world_ok w ->
  exists b w1,
    GetBuffer w = Done b w1 /\
    world_ok w1 /\ owns w1 b [] /\
    (forall b', held w b' ->
       b' <> b /\ held w1 b' /\ heap w1 !! b' = heap w !! b').
Proof.
  intros [Hcache Hpool].
  destruct (GetBuffer_run w Hpool) as (b & w1 & Hget & Hc & Hb & Hheld & Hp & Hf).
  exists b, w1. split; [done|]. split_and!; try done.
  by apply (world_ok_same_cache w).
Qed.

Lemma PutBuffer_owned b w c :
  world_ok w -> owns w b c ->
  exists w',
    PutBuffer b w = Done tt w' /\
    world_ok w' /\ heap w' !! b = Some c /\ frame_except b w w'.
Proof.
  intros [Hcache Hpool] [Hheld Hb].
  destruct (PutBuffer_run b w Hheld Hpool) as (w' & Hput & Hc & Hh & Hp & Hf).
  exists w'. split; [done|]. split_and!.
  - by apply (world_ok_same_cache w).
  - by rewrite Hh.
  - intros b' Hne Hb'. split; [by apply Hf | by rewrite Hh].
Qed.

Lemma Buffer_String_owned b w c :
  world_ok w -> owns w b c ->
  exists w',
    Buffer_String b w = Done (str c) w' /\
    world_ok w' /\ owns w' b c /\ frame_except b w w'.
Proof.
  intros Hok [Hheld Hb]. unfold Buffer_String. rewrite Hb.
  eexists. split; [done|]. by split_and!.
Qed.

(** From acquiring [b] to a world where [b] is back in the pool. *)
Lemma scoped_preserves_held b w w1 w' :
  (forall b', held w b' ->
     b' <> b /\ held w1 b' /\ heap w1 !! b' = heap w !! b') ->
  frame_except b w1 w' -> preserves_held w w'.
Proof.
  intros Hget Hframe b' Hb'. destruct (Hget b' Hb') as (Hne & Hb1 & Heq1).
  destruct (Hframe b' Hne Hb1) as [Hb2 Heq2]. split; [done | congruence].
Qed.

Lemma defer_run {A} (d : M unit) (body : M A) w a w1 w2 :
  body w = Done a w1 -> d w1 = Done tt w2 -> defer d body w = Done a w2.
Proof. intros H1 H2. unfold defer. by rewrite H1, H2. Qed.

(** ** CamelCase *)

Lemma CamelCase_find_run fuel p name (i : nat) idx w :
  (length name - i < fuel)%nat ->
  CamelCase_find fuel p name (Z.of_nat i) idx w =
  Done (match find_first p (drop i name) with
        | Some k => Z.of_nat (i + k)
        | None => idx
        end) w.
Proof.
  revert i. induction fuel as [|fuel IH]; intros i Hfuel; [lia|].
  cbn [CamelCase_find].
  destruct (Z.ltb_spec (Z.of_nat i) (len name)) as [Hi|Hi]; unfold len in Hi.
  - destruct (lookup_lt_is_Some_2 name i ltac:(lia)) as [c Hc].
    rewrite (bind_run _ _ _ _ _ (index_nat _ _ _ w Hc)).
    rewrite (drop_S _ _ _ Hc). cbn [find_first].
    destruct (p c).
    + by rewrite Nat.add_0_r.
    + replace (Z.of_nat i + 1) with (Z.of_nat (S i)) by lia.
      rewrite IH by lia.
      destruct (find_first p (drop (S i) name)) as [k|]; cbn; [|done].
      do 2 f_equal. lia.
  - rewrite drop_ge by lia. done.
Qed.

Lemma find_first_lt p l k : find_first p l = Some k -> (k < length l)%nat.
Proof.
  revert k. induction l as [|c rest IH]; intros k; cbn [find_first]; [done|].
  destruct (p c).
  - intros [= <-]. cbn. lia.
  - destruct (find_first p rest) as [k'|]; cbn; [|done].
    intros [= <-]. specialize (IH k' eq_refl). lia.
Qed.

Lemma strip_underscores_find l :
  Spec.strip_underscores l =
  match find_first (fun c => negb (Ascii.eqb c underscore)) l with
  | Some k => drop k l
  | None => []
  end.
Proof.
  induction l as [|c rest IH]; cbn [Spec.strip_underscores find_first]; [done|].
  destruct (Ascii.eqb c underscore); cbn [negb]; [|done].
  rewrite IH. by destruct (find_first _ rest).
Qed.

Lemma cut_underscore_find l :
  Spec.cut_underscore l =
  match find_first (fun c => Ascii.eqb c underscore) l with
  | Some k => (take k l, Some (drop (S k) l))
  | None => (l, None)
  end.
Proof.
  induction l as [|c rest IH]; cbn [Spec.cut_underscore find_first]; [done|].
  destruct (Ascii.eqb c underscore); [done|].
  rewrite IH. by destruct (find_first _ rest).
Qed.

Lemma CamelCase_run name w :
  world_ok w ->
  exists w',
    CamelCase name w = Done (Spec.CamelCase name) w' /\
    world_ok w' /\ preserves_held w w'.
Proof.
  intros Hok. unfold CamelCase.
  destruct (GetBuffer_owned w Hok) as (b & w1 & Hget & Hok1 & Hown1 & Hframe1).
  rewrite (bind_run _ _ _ _ _ Hget).
  (* the body of the function, up to its return *)
  assert (Hbody : exists w2 c,
    (let name := bytes name in
     index_ <- CamelCase_find (S (length name))
                 (fun c => negb (Ascii.eqb c underscore)) name 0 (-1) ;;
     if negb (index_ =? -1) then
       name <- slice name index_ (len name) ;;
       index_ <- CamelCase_find (S (length name))
                   (fun c => Ascii.eqb c underscore) name 0 (-1) ;;
       (if index_ =? -1 then
          Buffer_WriteString b (str name)
        else
          head <- slice name 0 index_ ;;
          Buffer_WriteString b (str head) ;;
          tail <- slice name (index_ + 1) (len name) ;;
          titled <- TitleCase (str tail) ;;
          Buffer_WriteString b titled) ;;
       Buffer_String b
     else
       ret "") w1 = Done (Spec.CamelCase name) w2 /\
    world_ok w2 /\ owns w2 b c /\ frame_except b w1 w2).
  { cbv zeta. unfold Spec.CamelCase.
    erewrite bind_run by (apply (CamelCase_find_run _ _ _ 0%nat); lia).
    rewrite strip_underscores_find, drop_0.
    destruct (find_first _ (bytes name)) as [k|] eqn:Hk.
    2:{ cbn. exists w1, []. split_and!; try done. }
    pose proof (find_first_lt _ _ _ Hk) as Hklt.
    replace (negb (Z.of_nat (0 + k) =? -1)) with true
      by (symmetry; apply negb_true_iff, Z.eqb_neq; lia).
    cbn [Nat.add].
    rewrite (bind_run _ _ _ _ _
      (slice_nat (bytes name) k (length (bytes name)) w1 ltac:(lia) ltac:(lia))).
    rewrite take_ge by (rewrite length_drop; lia).
    set (rest := drop k (bytes name)).
    assert (Hrest : rest <> []).
    { intros Hnil. apply (f_equal length) in Hnil. unfold rest in Hnil.
      rewrite length_drop in Hnil. cbn in Hnil. lia. }
    erewrite bind_run by (apply (CamelCase_find_run _ _ _ 0%nat); lia).
    rewrite drop_0.
    destruct rest as [|r0 rest'] eqn:Hrest'; [done|]. rewrite <- Hrest'.
    rewrite cut_underscore_find.
    destruct (find_first _ rest) as [j|] eqn:Hj.
    - pose proof (find_first_lt _ _ _ Hj) as Hjlt.
      replace (Z.of_nat (0 + j) =? -1) with false
        by (symmetry; apply Z.eqb_neq; lia).
      cbn [Nat.add]. rewrite !bind_assoc.
      rewrite (bind_run _ _ _ _ _
        (slice_nat rest 0 j w1 ltac:(lia) ltac:(lia))).
      rewrite Nat.sub_0_r, drop_0, bind_assoc.
      destruct (Buffer_Write_owned b (bytes (str (take j rest))) w1 [] Hok1 Hown1)
        as (w2 & Hrun2 & Hok2 & Hown2 & Hframe2).
      unfold Buffer_WriteString at 1. rewrite (bind_run _ _ _ _ _ Hrun2), bind_assoc.
      replace (Z.of_nat j + 1) with (Z.of_nat (S j)) by lia.
      rewrite (bind_run _ _ _ _ _
        (slice_nat rest (S j) (length rest) w2 ltac:(lia) ltac:(lia))).
      rewrite take_ge by (rewrite length_drop; lia). rewrite bind_assoc.
      destruct (TitleCase_owned (str (drop (S j) rest)) b w2 _ Hok2 Hown2)
        as (w3 & Hrun3 & Hok3 & Hown3 & Hframe3).
      rewrite (bind_run _ _ _ _ _ Hrun3).
      destruct (Buffer_Write_owned b (bytes (Spec.TitleCase (str (drop (S j) rest))))
                  w3 _ Hok3 Hown3)
        as (w4 & Hrun4 & Hok4 & Hown4 & Hframe4).
      unfold Buffer_WriteString. rewrite (bind_run _ _ _ _ _ Hrun4).
      destruct (Buffer_String_owned b w4 _ Hok4 Hown4)
        as (w5 & Hrun5 & Hok5 & Hown5 & Hframe5).
      rewrite Hrun5. cbn [app]. rewrite bytes_str.
      eexists _, _. split_and!; try done.
      repeat (eapply frame_except_trans; [done|]). apply frame_except_refl.
    - change (-1 =? -1) with true. cbv iota.
      destruct (Buffer_Write_owned b (bytes (str rest)) w1 [] Hok1 Hown1)
        as (w2 & Hrun2 & Hok2 & Hown2 & Hframe2).
      unfold Buffer_WriteString. rewrite (bind_run _ _ _ _ _ Hrun2).
      destruct (Buffer_String_owned b w2 _ Hok2 Hown2)
        as (w3 & Hrun3 & Hok3 & Hown3 & Hframe3).
      rewrite Hrun3. cbn [app]. rewrite bytes_str.
      eexists _, _. split_and!; try done.
      by eapply frame_except_trans. }
  destruct Hbody as (w2 & c & Hbody & Hok2 & Hown2 & Hframe2).
  destruct (PutBuffer_owned b w2 c Hok2 Hown2) as (w3 & Hput & Hok3 & _ & Hframe3).
  exists w3. split; [by eapply defer_run|]. split; [done|].
  eapply scoped_preserves_held; [done|]. by eapply frame_except_trans.
Qed.

(** ** TitleCaseIdentifier *)

Lemma IndexByte_find s c :
  IndexByte s c =
  match find_first (fun x => Ascii.eqb x c) s with
  | Some k => Z.of_nat k
  | None => -1
  end.
Proof.
  induction s as [|x rest IH]; cbn [IndexByte find_first]; [done|].
  destruct (Ascii.eqb x c); [done|]. rewrite IH.
  destruct (find_first _ rest) as [k|]; cbn [fmap option_fmap option_map].
  - destruct (Z.ltb_spec (Z.of_nat k) 0); lia.
  - done.
Qed.

Lemma find_first_Some p l k :
  find_first p l = Some k ->
  Forall (fun c => p c = false) (take k l) /\
  exists c, l !! k = Some c /\ p c = true.
Proof.
  revert k. induction l as [|c rest IH]; intros k; cbn [find_first]; [done|].
  destruct (p c) eqn:Hp.
  - intros [= <-]. split; [constructor | by exists c].
  - destruct (find_first p rest) as [k'|]; cbn; [|done].
    intros [= <-]. destruct (IH k' eq_refl) as [Hall Hex].
    split; [by constructor | done].
Qed.

Lemma find_first_None p l :
  find_first p l = None -> Forall (fun c => p c = false) l.
Proof.
  induction l as [|c rest IH]; cbn [find_first]; [constructor|].
  destruct (p c) eqn:Hp; [done|].
  destruct (find_first p rest); cbn; [done|]. intros _. constructor; auto.
Qed.

Lemma Forall_eqb_neq sep l :
  Forall (fun c => Ascii.eqb c sep = false) l -> Forall (fun c => c <> sep) l.
Proof.
  induction 1 as [|c rest Hc _ IH]; constructor; [|done].
  by apply Ascii.eqb_neq.
Qed.

Lemma TitleCaseIdentifier_loop_run fuel id b (L N : nat) addDots w acc :
  world_ok w -> owns w b acc ->
  (L <= N)%nat -> (N <= length id)%nat ->
  Forall (fun c => c <> dot) (take (N - L) (drop L id)) ->
  N = length id \/ id !! N = Some dot ->
  (length id - L < fuel)%nat ->
  exists w',
    TitleCaseIdentifier_loop fuel id (len id) b (Z.of_nat L) (Z.of_nat N)
      addDots w = Done tt w' /\
    world_ok w' /\
    owns w' b
      (acc ++ (if addDots then [dot] else []) ++
       Spec.join dot (map (fun f => bytes (Spec.TitleCase (str f)))
                          (Spec.split_on dot (drop L id)))) /\
    frame_except b w w'.
Proof.
  revert L N addDots w acc.
  induction fuel as [|fuel IH];
    intros L N addDots w acc Hok Hown HLN HN Hfree Hnext Hfuel; [lia|].
  cbn [TitleCaseIdentifier_loop].
  replace (0 <=? Z.of_nat N) with true by (symmetry; apply Z.leb_le; lia).
  destruct (log_owned (EvPrintln [Z.of_nat L; Z.of_nat N]) b w acc Hok Hown)
    as (w1 & Hrun1 & Hok1 & Hown1 & Hframe1).
  rewrite (bind_run _ _ _ _ _ Hrun1).
  rewrite (bind_run _ _ _ _ _ (slice_nat id L N w1 HLN HN)).
  set (fragment := take (N - L) (drop L id)) in *.
  destruct (TitleCase_owned (str fragment) b w1 acc Hok1 Hown1)
    as (w2 & Hrun2 & Hok2 & Hown2 & Hframe2).
  rewrite (bind_run _ _ _ _ _ Hrun2).
  set (titled := Spec.TitleCase (str fragment)) in *.
  assert (Hdots : exists w3,
    (if addDots then Buffer_WriteByte b dot else ret tt) w2 = Done tt w3 /\
    world_ok w3 /\ owns w3 b (acc ++ (if addDots then [dot] else [])) /\
    frame_except b w2 w3).
  { destruct addDots.
    - by apply Buffer_Write_owned.
    - exists w2. rewrite app_nil_r. by split_and!. }
  destruct Hdots as (w3 & Hrun3 & Hok3 & Hown3 & Hframe3).
  rewrite (bind_run _ _ _ _ _ Hrun3).
  destruct (Buffer_Write_owned b (bytes titled) w3 _ Hok3 Hown3)
    as (w4 & Hrun4 & Hok4 & Hown4 & Hframe4).
  unfold Buffer_WriteString at 1. rewrite (bind_run _ _ _ _ _ Hrun4).
  assert (Hframe14 : frame_except b w w4).
  { repeat (eapply frame_except_trans; [done|]). apply frame_except_refl. }
  rewrite <- app_assoc in Hown4.
  destruct (Z.eqb_spec (Z.of_nat N) (len id)) as [Hend|Hend]; unfold len in Hend.
  - (* the last fragment *)
    assert (N = length id) as HNlen by lia.
    assert (Hall : drop L id = fragment).
    { unfold fragment. symmetry. apply take_ge. rewrite length_drop. lia. }
    exists w4. rewrite Hall, split_on_no_sep by done. cbn [map Spec.join].
    by split_and!.
  - destruct Hnext as [?|Hdot]; [lia|].
    assert (Hsplit : drop L id = fragment ++ dot :: drop (S N) id).
    { rewrite <- (take_drop (N - L) (drop L id)) at 1. fold fragment. f_equal.
      rewrite drop_drop. replace (L + (N - L))%nat with N by lia.
      by apply drop_S. }
    replace (Z.of_nat N + 1) with (Z.of_nat (S N)) by lia.
    assert (HNlt : (N < length id)%nat) by (by eapply lookup_lt_Some).
    rewrite (bind_run _ _ _ _ _
      (slice_nat id (S N) (length id) w4 ltac:(lia) ltac:(lia))).
    rewrite take_ge by (rewrite length_drop; lia).
    rewrite IndexByte_find.
    assert (Hnext' : exists N' : nat,
      (if 0 <=? match find_first (fun x => Ascii.eqb x dot) (drop (S N) id) with
                | Some k => Z.of_nat k
                | None => -1
                end
       then match find_first (fun x => Ascii.eqb x dot) (drop (S N) id) with
            | Some k => Z.of_nat k
            | None => -1
            end + Z.of_nat (S N)
       else len id) = Z.of_nat N' /\
      (S N <= N')%nat /\ (N' <= length id)%nat /\
      Forall (fun c => c <> dot) (take (N' - S N) (drop (S N) id)) /\
      (N' = length id \/ id !! N' = Some dot)).
    { destruct (find_first _ (drop (S N) id)) as [k|] eqn:Hk.
      - exists (S N + k)%nat.
        pose proof (find_first_lt _ _ _ Hk) as Hklt. rewrite length_drop in Hklt.
        destruct (find_first_Some _ _ _ Hk) as (Hpre & c & Hc & Hcdot).
        apply Ascii.eqb_eq in Hcdot as ->. rewrite lookup_drop in Hc.
        replace (0 <=? Z.of_nat k) with true by (symmetry; apply Z.leb_le; lia).
        split_and!; [lia | lia | lia | | by right].
        replace (S N + k - S N)%nat with k by lia. by apply Forall_eqb_neq.
      - exists (length id). cbn. split_and!; [done | lia | lia | | by left].
        apply Forall_eqb_neq. rewrite take_ge by (rewrite length_drop; lia).
        by apply find_first_None. }
    destruct Hnext' as (N' & -> & HN'1 & HN'2 & Hfree' & Hnext').
    destruct (IH (S N) N' true w4 _ Hok4 Hown4 HN'1 HN'2 Hfree' Hnext' ltac:(lia))
      as (w5 & Hrun5 & Hok5 & Hown5 & Hframe5).
    exists w5. split; [done|]. split; [done|]. split; [|by eapply frame_except_trans].
    rewrite Hsplit, split_on_app_sep by done. cbn [map].
    rewrite join_cons by (intros Hnil; apply map_eq_nil in Hnil;
                          by apply split_on_not_nil in Hnil).
    fold titled. rewrite <- !app_assoc in Hown5. cbn [app] in Hown5.
    done.
Qed.

Lemma TitleCaseIdentifier_run id w :
  world_ok w ->
  exists w',
    TitleCaseIdentifier id w = Done (Spec.TitleCaseIdentifier id) w' /\
    world_ok w' /\ preserves_held w w' /\
    (dot ∈ bytes id ->
     exists b rest, events w' = EvRead b :: EvPut b :: rest /\ b ∈ bufPool w').
Proof.
  intros Hok. unfold TitleCaseIdentifier, Spec.TitleCaseIdentifier.
  rewrite IndexByte_find.
  destruct (find_first _ (bytes id)) as [k|] eqn:Hk.
  - pose proof (find_first_lt _ _ _ Hk) as Hklt.
    destruct (find_first_Some _ _ _ Hk) as (Hpre & c & Hc & Hcdot).
    apply Ascii.eqb_eq in Hcdot as ->.
    replace (Z.of_nat k <? 0) with false by (symmetry; apply Z.ltb_ge; lia).
    destruct (GetBuffer_owned w Hok) as (b & w1 & Hget & Hok1 & Hown1 & Hframe1).
    rewrite (bind_run _ _ _ _ _ Hget).
    destruct (TitleCaseIdentifier_loop_run (S (S (length (bytes id)))) (bytes id)
                b 0 k false w1 [] Hok1 Hown1)
      as (w2 & Hrun2 & Hok2 & Hown2 & Hframe2);
      [lia | lia | | by right | lia |].
    { rewrite Nat.sub_0_r, drop_0. by apply Forall_eqb_neq. }
    change (Z.of_nat 0) with 0 in Hrun2. unfold slen.
    rewrite (bind_run _ _ _ _ _ Hrun2).
    rewrite drop_0 in Hown2. cbn [app] in Hown2.
    destruct (PutBuffer_owned b w2 _ Hok2 Hown2)
      as (w3 & Hput & Hok3 & Hb3 & Hframe3).
    rewrite (bind_run _ _ _ _ _ Hput).
    (* the buffer is read after it went back to the pool *)
    destruct (Buffer_String_run b w3 _ Hb3) as (w4 & Hstr & Hc4 & Hh4 & Hp4).
    exists w4. split; [done|]. split_and!.
    + destruct Hok3 as [Hcache3 Hpool3].
      apply (world_ok_same_cache w3); [done | done |].
      unfold pool_ok. by rewrite Hh4, Hp4.
    + eapply scoped_preserves_held; [done|].
      eapply frame_except_trans; [done|]. eapply frame_except_trans; [done|].
      intros b' Hne Hb'. unfold held. by rewrite Hh4, Hp4.
    + intros _. exists b, (events w2).
      unfold PutBuffer in Hput. injection Hput as <-.
      unfold Buffer_String in Hstr. rewrite Hb3 in Hstr. injection Hstr as <-.
      cbn. split; [done | by left].
  - cbn [Z.ltb Z.compare].
    destruct (TitleCase_run id w Hok) as (w' & Hrun & Hok' & Hframe).
    pose proof (Forall_eqb_neq _ _ (find_first_None _ _ Hk)) as Hfree.
    exists w'. split_and!; try done.
    + rewrite split_on_no_sep by done.
      cbn [map Spec.join]. by rewrite !str_bytes.
    + intros Hin. rewrite Forall_forall in Hfree. by destruct (Hfree _ Hin).
Qed.

(** The components of the result are as many as those of the input. *)

Lemma to_upper_not_dot c : c <> dot -> Spec.to_upper c <> dot.
Proof.
  destruct c as [[] [] [] [] [] [] [] []]; vm_compute; congruence.
Qed.

Lemma render_free word :
  Forall (fun c => c <> dot) word -> Forall (fun c => c <> dot) (Spec.render word).
Proof.
  intros Hfree. unfold Spec.render.
  destruct (Spec.acronym word).
  - unfold Spec.upper_all. induction Hfree as [|c rest Hc _ IH]; cbn [map].
    + constructor.
    + constructor; [by apply to_upper_not_dot | done].
  - destruct Hfree as [|c rest Hc Hrest]; cbn [Spec.capitalize]; [constructor|].
    destruct (Spec.is_lower c); constructor; try done. by apply to_upper_not_dot.
Qed.

Lemma split_on_Forall (P : ascii -> Prop) sep s :
  Forall P s -> Forall (Forall P) (Spec.split_on sep s).
Proof.
  induction 1 as [|c rest Hc _ IH]; cbn [Spec.split_on].
  - by repeat constructor.
  - destruct (Ascii.eqb c sep).
    + by constructor.
    + destruct (Spec.split_on sep rest) as [|w ws].
      * by repeat constructor.
      * inversion IH; subst. constructor; [by constructor | done].
Qed.

Lemma TitleCase_free f :
  Forall (fun c => c <> dot) f ->
  Forall (fun c => c <> dot) (bytes (Spec.TitleCase (str f))).
Proof.
  intros Hfree. unfold Spec.TitleCase, Spec.words. rewrite !bytes_str.
  pose proof (split_on_Forall _ underscore f Hfree) as Hsplit.
  induction Hsplit as [|w ws Hw _ IH]; [constructor|].
  destruct (decide (w <> [])) as [Hne|Hnil].
  - rewrite filter_cons_True by done. cbn [map concat].
    apply Forall_app. split; [by apply render_free | done].
  - by rewrite filter_cons_False by done.
Qed.

Lemma split_on_join sep l :
  l <> [] -> Forall (Forall (fun c => c <> sep)) l ->
  Spec.split_on sep (Spec.join sep l) = l.
Proof.
  intros Hne Hfree. induction Hfree as [|w ws Hw Hws IH]; [done|].
  destruct ws as [|w' ws'].
  - cbn [Spec.join]. by apply split_on_no_sep.
  - rewrite join_cons by done. rewrite split_on_app_sep by done.
    f_equal. by apply IH.
Qed.

Lemma TitleCaseIdentifier_components id :
  Spec.components (Spec.TitleCaseIdentifier id) = Spec.components id.
Proof.
  unfold Spec.components, Spec.TitleCaseIdentifier. rewrite bytes_str.
  rewrite split_on_join.
  - apply length_map.
  - intros Hnil. apply map_eq_nil in Hnil. by apply split_on_not_nil in Hnil.
  - pose proof (split_on_free dot (bytes id)) as Hfree.
    induction Hfree as [|f fs Hf _ IH]; cbn [map]; constructor; [|done].
    by apply TitleCase_free.
Qed.

(** ** Placeholders and WhereClause *)

Lemma Placeholders_loop_run fuel b count start group i w c :
  world_ok w -> owns w b c ->
  (Z.to_nat (count - i) < fuel)%nat ->
  exists out w',
    Placeholders_loop fuel b count start group i w = Done tt w' /\
    world_ok w' /\ owns w' b (c ++ out) /\ frame_except b w w'.
Proof.
  revert i w c. induction fuel as [|fuel IH]; intros i w c Hok Hown Hfuel; [lia|].
  cbn [Placeholders_loop].
  destruct (Z.ltb_spec i count) as [Hi|Hi].
  2:{ exists [], w. rewrite app_nil_r. by split_and!. }
  assert (Hsep : exists sep w1,
    (if negb (i =? 0) then
       if (1 <? group) && (Z.rem i group =? 0)
       then Buffer_WriteString b "),("
       else Buffer_WriteByte b ","%char
     else ret tt) w = Done tt w1 /\
    world_ok w1 /\ owns w1 b (c ++ sep) /\ frame_except b w w1).
  { destruct (negb (i =? 0)).
    - destruct ((1 <? group) && (Z.rem i group =? 0)).
      + eexists. by apply Buffer_Write_owned.
      + eexists. by apply Buffer_Write_owned.
    - exists [], w. rewrite app_nil_r. by split_and!. }
  destruct Hsep as (sep & w1 & Hrun1 & Hok1 & Hown1 & Hframe1).
  rewrite (bind_run _ _ _ _ _ Hrun1).
  destruct (Buffer_Write_owned b (bytes (fmt_dollar (wrap64 (start + i)))) w1 _ Hok1 Hown1)
    as (w2 & Hrun2 & Hok2 & Hown2 & Hframe2).
  unfold Buffer_WriteString at 1. rewrite (bind_run _ _ _ _ _ Hrun2).
  destruct (IH (i + 1) w2 _ Hok2 Hown2 ltac:(lia))
    as (out & w3 & Hrun3 & Hok3 & Hown3 & Hframe3).
  exists (sep ++ bytes (fmt_dollar (wrap64 (start + i))) ++ out), w3.
  split; [done|]. split; [done|]. split.
  - by rewrite !app_assoc.
  - eapply frame_except_trans; [done|]. by eapply frame_except_trans.
Qed.

Lemma Placeholders_run count start group w :
  world_ok w -> start <> 0 -> group <> 0 ->
  exists s w',
    Placeholders count start group w = Done s w' /\
    world_ok w' /\ preserves_held w w'.
Proof.
  intros Hok Hstart Hgroup. unfold Placeholders.
  destruct (GetBuffer_owned w Hok) as (b & w1 & Hget & Hok1 & Hown1 & Hframe1).
  rewrite (bind_run _ _ _ _ _ Hget).
  apply Z.eqb_neq in Hstart, Hgroup. rewrite Hstart, Hgroup. cbn [orb].
  assert (Hparen : forall ch w c, world_ok w -> owns w b c ->
    exists out w',
      (if 1 <? group then Buffer_WriteByte b ch else ret tt) w = Done tt w' /\
      world_ok w' /\ owns w' b (c ++ out) /\ frame_except b w w').
  { intros ch w0 c0 Hok0 Hown0. destruct (1 <? group).
    - eexists. by apply Buffer_Write_owned.
    - exists [], w0. rewrite app_nil_r. by split_and!. }
  destruct (Hparen "("%char w1 [] Hok1 Hown1)
    as (o2 & w2 & Hrun2 & Hok2 & Hown2 & Hframe2).
  destruct (Placeholders_loop_run (S (Z.to_nat count)) b count start group 0
              w2 _ Hok2 Hown2 ltac:(lia))
    as (o3 & w3 & Hrun3 & Hok3 & Hown3 & Hframe3).
  destruct (Hparen ")"%char w3 _ Hok3 Hown3)
    as (o4 & w4 & Hrun4 & Hok4 & Hown4 & Hframe4).
  destruct (Buffer_String_owned b w4 _ Hok4 Hown4)
    as (w5 & Hrun5 & Hok5 & Hown5 & Hframe5).
  destruct (PutBuffer_owned b w5 _ Hok5 Hown5) as (w6 & Hput & Hok6 & _ & Hframe6).
  eexists _, w6. split.
  - eapply defer_run; [|done].
    rewrite bind_ret, (bind_run _ _ _ _ _ Hrun2), (bind_run _ _ _ _ _ Hrun3),
      (bind_run _ _ _ _ _ Hrun4). done.
  - split; [done|]. eapply scoped_preserves_held; [done|].
    repeat (eapply frame_except_trans; [done|]). apply frame_except_refl.
Qed.

Lemma Placeholders_panics count start group w :
  start = 0 \/ group = 0 ->
  exists b w',
    Placeholders count start group w
      = Panic "Invalid start or group numbers supplied." w' /\
    events w' = EvPut b :: EvGet b :: events w.
Proof.
  intros Hzero. unfold Placeholders.
  assert ((start =? 0) || (group =? 0) = true) as Htest.
  { destruct Hzero as [->| ->]; [done | by rewrite orb_true_r]. }
  unfold bind at 1. unfold GetBuffer.
  destruct (bufPool w) as [|b rest]; unfold defer, bind, panic, PutBuffer;
    rewrite Htest; cbn; eauto.
Qed.

Lemma WhereClause_loop_run b start n i cols w c :
  world_ok w -> owns w b c ->
  exists out w',
    WhereClause_loop b start n i cols w = Done tt w' /\
    world_ok w' /\ owns w' b (c ++ out) /\ frame_except b w w'.
Proof.
  revert i w c. induction cols as [|col rest IH]; intros i w c Hok Hown;
    cbn [WhereClause_loop].
  { exists [], w. rewrite app_nil_r. by split_and!. }
  destruct (Buffer_Write_owned b (bytes (fmt_assign col (wrap64 (start + i)))) w _ Hok Hown)
    as (w1 & Hrun1 & Hok1 & Hown1 & Hframe1).
  unfold Buffer_WriteString at 1. rewrite (bind_run _ _ _ _ _ Hrun1).
  assert (Hand : exists sep w2,
    (if i <? n - 1 then Buffer_WriteString b " AND " else ret tt) w1 = Done tt w2 /\
    world_ok w2 /\
    owns w2 b ((c ++ bytes (fmt_assign col (wrap64 (start + i)))) ++ sep) /\
    frame_except b w1 w2).
  { destruct (i <? n - 1).
    - eexists. by apply Buffer_Write_owned.
    - exists [], w1. rewrite app_nil_r. by split_and!. }
  destruct Hand as (sep & w2 & Hrun2 & Hok2 & Hown2 & Hframe2).
  rewrite (bind_run _ _ _ _ _ Hrun2).
  destruct (IH (i + 1) w2 _ Hok2 Hown2) as (out & w3 & Hrun3 & Hok3 & Hown3 & Hframe3).
  exists (bytes (fmt_assign col (wrap64 (start + i))) ++ sep ++ out), w3.
  split; [done|]. split; [done|]. split.
  - by rewrite !app_assoc.
  - eapply frame_except_trans; [done|]. by eapply frame_except_trans.
Qed.

Lemma WhereClause_run start cols w :
  world_ok w -> start <> 0 ->
  exists s w',
    WhereClause start cols w = Done s w' /\
    world_ok w' /\ preserves_held w w'.
Proof.
  intros Hok Hstart. unfold WhereClause.
  apply Z.eqb_neq in Hstart. rewrite Hstart, bind_ret.
  destruct (GetBuffer_owned w Hok) as (b & w1 & Hget & Hok1 & Hown1 & Hframe1).
  rewrite (bind_run _ _ _ _ _ Hget).
  destruct (WhereClause_loop_run b start (Z.of_nat (length cols)) 0 cols w1 _
              Hok1 Hown1)
    as (o2 & w2 & Hrun2 & Hok2 & Hown2 & Hframe2).
  destruct (Buffer_String_owned b w2 _ Hok2 Hown2)
    as (w3 & Hrun3 & Hok3 & Hown3 & Hframe3).
  destruct (PutBuffer_owned b w3 _ Hok3 Hown3) as (w4 & Hput & Hok4 & _ & Hframe4).
  eexists _, w4. split.
  - eapply defer_run; [|done]. by rewrite (bind_run _ _ _ _ _ Hrun2).
  - split; [done|]. eapply scoped_preserves_held; [done|].
    repeat (eapply frame_except_trans; [done|]). apply frame_except_refl.
Qed.

Lemma WhereClause_panics cols w :
  WhereClause 0 cols w = Panic "0 is not a valid start number for whereClause" w.
Proof. reflexivity. Qed.

(** ** Worlds that calls of the package can produce *)

Lemma reachable_ok w : reachable w -> world_ok w.
Proof.
  induction 1 as [|w c r w' _ IH Hrun]; [apply init_world_ok|].
  destruct c as [n|name|id|count start group|start cols]; cbn [run_call] in Hrun.
  - destruct (TitleCase_run n w IH) as (w'' & Hrun' & Hok & _). congruence.
  - destruct (CamelCase_run name w IH) as (w'' & Hrun' & Hok & _). congruence.
  - destruct (TitleCaseIdentifier_run id w IH) as (w'' & Hrun' & Hok & _).
    congruence.
  - destruct (decide (start = 0 \/ group = 0)) as [Hzero|Hnz].
    + destruct (Placeholders_panics count start group w Hzero) as (b & w'' & Hp & _).
      congruence.
    + destruct (Placeholders_run count start group w IH) as (s & w'' & Hrun' & Hok & _);
        [lia | lia | congruence].
  - destruct (decide (start = 0)) as [->|Hnz].
    + by rewrite WhereClause_panics in Hrun.
    + destruct (WhereClause_run start cols w IH Hnz) as (s & w'' & Hrun' & Hok & _).
      congruence.
Qed.

(** ** Auxiliary facts *)

Lemma TitleCase_each_run fragments w :
  world_ok w ->
  exists w',
    TitleCase_each fragments w
      = Done (map (fun f => bytes (Spec.TitleCase (str f))) fragments) w' /\
    world_ok w'.
Proof.
  revert w. induction fragments as [|f rest IH]; intros w Hok; cbn [TitleCase_each map].
  - by exists w.
  - destruct (TitleCase_run (str f) w Hok) as (w1 & Hrun1 & Hok1 & _).
    rewrite (bind_run _ _ _ _ _ Hrun1).
    destruct (IH w1 Hok1) as (w2 & Hrun2 & Hok2).
    rewrite (bind_run _ _ _ _ _ Hrun2). by exists w2.
Qed.

Lemma words_all_underscores s :
  Forall (fun c => c = underscore) s -> Spec.words s = [].
Proof.
  induction 1 as [|c rest -> _ IH]; [done|]. by rewrite words_underscore.
Qed.

Lemma to_upper_not_lower c : Spec.is_lower c = false -> Spec.to_upper c = c.
Proof.
  destruct c as [[] [] [] [] [] [] [] []]; vm_compute; congruence.
Qed.

Lemma is_vowel_is_lower c : Spec.is_vowel c = true -> Spec.is_lower c = true.
Proof.
  destruct c as [[] [] [] [] [] [] [] []]; vm_compute; congruence.
Qed.

(** * The claims *)

(** C1. For every string [id], TitleCaseIdentifier returns the string
    obtained by splitting [id] on '.', applying TitleCase to each fragment and
    rejoining the results with '.' in the original order; the result has
    exactly as many dot-separated components as [id] (empty fragments and a
    trailing "*" included), and TitleCaseIdentifier("a.b.c") is "A.B.C". *)
Theorem TitleCaseIdentifier_split_map_join (id : string) (w : World) :
  world_ok w ->
  exists r w1 w2,
    TitleCaseIdentifier id w = Done r w1 /\
    split_TitleCase_join id w = Done r w2 /\
    r = Spec.TitleCaseIdentifier id /\
    Spec.components r = Spec.components id /\
    result (TitleCaseIdentifier "a.b.c" init_world) = Some "A.B.C" /\
    result (TitleCaseIdentifier ".a..b_id.*" init_world) = Some ".A..BID.*".
Proof.
  intros Hok.
  destruct (TitleCaseIdentifier_run id w Hok) as (w1 & Hrun1 & _).
  destruct (TitleCase_each_run (Spec.split_on dot (bytes id)) w Hok)
    as (w2 & Hrun2 & _).
  exists (Spec.TitleCaseIdentifier id), w1, w2. split_and!; try done.
  - unfold split_TitleCase_join. by rewrite (bind_run _ _ _ _ _ Hrun2).
  - apply TitleCaseIdentifier_components.
Qed.

Lemma TitleCaseIdentifier_split_map_join_witness :
  exists r w1 w2,
    TitleCaseIdentifier "schema.table.column_id" init_world = Done r w1 /\
    split_TitleCase_join "schema.table.column_id" init_world = Done r w2 /\
    r = Spec.TitleCaseIdentifier "schema.table.column_id" /\
    Spec.components r = Spec.components "schema.table.column_id" /\
    result (TitleCaseIdentifier "a.b.c" init_world) = Some "A.B.C" /\
    result (TitleCaseIdentifier ".a..b_id.*" init_world) = Some ".A..BID.*".
Proof.
  exact (TitleCaseIdentifier_split_map_join "schema.table.column_id"
           init_world init_world_ok).
Defined.

(** C2, as stated: TitleCase("xyz") returns "XYZ".  It does not. *)
Lemma TitleCase_xyz_is_not_XYZ :
  result (TitleCase "xyz" init_world) <> Some "XYZ".
Proof. vm_compute. discriminate. Qed.

(** C2, amended.  TitleCase("xyz") returns "Xyz": y is one of the vowels the
    code tests for, so "xyz" is not vowel-free and only its first letter is
    uppercased.  A word that has none of a, e, i, o, u, y, such as "xz", is
    rendered fully uppercase by the no-vowel heuristic. *)
Theorem TitleCase_xyz_is_Xyz (w : World) :
  world_ok w ->
  (exists w', TitleCase "xyz" w = Done "Xyz" w') /\
  (exists w', TitleCase "xz" w = Done "XZ" w') /\
  Spec.is_vowel "y" = true /\
  forall b word w0,
    is_Some (heap w0 !! b) ->
    existsb Spec.is_vowel word = false ->
    exists w', renderWord b word w0 = Done tt w' /\
               appended b (Spec.upper_all word) w0 w'.
Proof.
  intros Hok. split_and!.
  - destruct (TitleCase_run "xyz" w Hok) as (w' & Hrun & _). by exists w'.
  - destruct (TitleCase_run "xz" w Hok) as (w' & Hrun & _). by exists w'.
  - done.
  - intros b word w0 Hb Hnv.
    destruct (renderWord_appended b word w0 Hb) as (w' & Hrun & Happ).
    exists w'. split; [done|].
    unfold Spec.render, Spec.acronym in Happ.
    by rewrite Hnv, orb_true_r in Happ.
Qed.

Lemma TitleCase_xyz_is_Xyz_witness :
  (exists w', TitleCase "xyz" init_world = Done "Xyz" w') /\
  (exists w', TitleCase "xz" init_world = Done "XZ" w') /\
  Spec.is_vowel "y" = true /\
  forall b word w0,
    is_Some (heap w0 !! b) ->
    existsb Spec.is_vowel word = false ->
    exists w', renderWord b word w0 = Done tt w' /\
               appended b (Spec.upper_all word) w0 w'.
Proof. exact (TitleCase_xyz_is_Xyz init_world init_world_ok). Defined.

(** C3. The Case Renderer appends to the buffer: the word with every ASCII
    lowercase letter uppercased (any other byte unchanged) when the word's
    alphabetic prefix is one of guid, id, uid, uuid or the word has none of
    the vowels a, e, i, o, u, y; otherwise the word with its first character
    uppercased if that is an ASCII lowercase letter, and the word unchanged
    if it is not. *)
Theorem renderWord_renders (b : nat) (word : list ascii) (w : World) :
  is_Some (heap w !! b) ->
  exists w',
    renderWord b word w = Done tt w' /\
    appended b
      (if bool_decide (str (Spec.alpha_prefix word) ∈ ["guid"; "id"; "uid"; "uuid"])
          || negb (existsb Spec.is_vowel word)
       then map Spec.to_upper word
       else match word with
            | [] => []
            | c :: rest => if Spec.is_lower c then Spec.to_upper c :: rest else word
            end) w w' /\
    (forall c, Spec.is_lower c = false -> Spec.to_upper c = c) /\
    map Spec.to_upper (bytes "az09AZ_") = bytes "AZ09AZ_".
Proof.
  intros Hb. destruct (renderWord_appended b word w Hb) as (w' & Hrun & Happ).
  exists w'. split_and!; try done. apply to_upper_not_lower.
Qed.

Lemma renderWord_renders_witness :
  exists w',
    renderWord 0 (bytes "id9") (mkWorld ∅ [[]] [] []) = Done tt w' /\
    appended 0
      (if bool_decide (str (Spec.alpha_prefix (bytes "id9"))
                         ∈ ["guid"; "id"; "uid"; "uuid"])
          || negb (existsb Spec.is_vowel (bytes "id9"))
       then map Spec.to_upper (bytes "id9")
       else match bytes "id9" with
            | [] => []
            | c :: rest =>
                if Spec.is_lower c then Spec.to_upper c :: rest else bytes "id9"
            end) (mkWorld ∅ [[]] [] []) w' /\
    (forall c, Spec.is_lower c = false -> Spec.to_upper c = c) /\
    map Spec.to_upper (bytes "az09AZ_") = bytes "AZ09AZ_".
Proof.
  apply (renderWord_renders 0 (bytes "id9") (mkWorld ∅ [[]] [] [])).
  by exists [].
Defined.

(** C4. On a cache miss TitleCase returns the rendered forms of the words of
    its input (the maximal underscore-free runs, left to right, none empty),
    concatenated with nothing in between, and stores that string in the
    cache; TitleCase("column_name_id") is "ColumnNameID". *)
Theorem TitleCase_miss_concat_rendered_words (n : string) (w : World) :
  pool_ok w ->
  titleCaseCache w !! n = None ->
  exists w',
    TitleCase n w
      = Done (str (concat (map Spec.render (Spec.words (bytes n))))) w' /\
    titleCaseCache w'
      = <[n := str (concat (map Spec.render (Spec.words (bytes n))))]>
          (titleCaseCache w) /\
    Forall (fun word => word <> [] /\ Forall (fun c => c <> underscore) word)
      (Spec.words (bytes n)) /\
    concat (Spec.words (bytes n)) = filter (fun c => c <> underscore) (bytes n) /\
    result (TitleCase "column_name_id" init_world) = Some "ColumnNameID".
Proof.
  intros Hpool Hmiss.
  destruct (TitleCase_miss_run n w Hpool Hmiss) as (w' & Hrun & Hc & _).
  exists w'. split_and!; try done.
  - apply words_wellformed.
  - apply concat_words.
Qed.

Lemma TitleCase_miss_concat_rendered_words_witness :
  exists w',
    TitleCase "column_name_id" init_world
      = Done (str (concat (map Spec.render
                             (Spec.words (bytes "column_name_id"))))) w' /\
    titleCaseCache w'
      = <["column_name_id" :=
            str (concat (map Spec.render (Spec.words (bytes "column_name_id"))))]>
          (titleCaseCache init_world) /\
    Forall (fun word => word <> [] /\ Forall (fun c => c <> underscore) word)
      (Spec.words (bytes "column_name_id")) /\
    concat (Spec.words (bytes "column_name_id"))
      = filter (fun c => c <> underscore) (bytes "column_name_id") /\
    result (TitleCase "column_name_id" init_world) = Some "ColumnNameID".
Proof.
  apply (TitleCase_miss_concat_rendered_words "column_name_id" init_world).
  - split; constructor.
  - apply lookup_empty.
Defined.

(** C5. TitleCaseIdentifier breaks the discipline of the pool: on "a.b" it
    puts its buffer back (EvPut 0) and only then reads it to build the value
    it returns (EvRead 0).  TitleCase and CamelCase read before they
    release. *)
Theorem TitleCaseIdentifier_reads_released_buffer :
  trace (TitleCaseIdentifier "a.b" init_world)
    = [EvGet 0; EvPrintln [0; 1];
       EvGet 1; EvWrite 1; EvWrite 1; EvRead 1; EvPut 1; EvWrite 0;
       EvPrintln [2; 3];
       EvGet 1; EvWrite 1; EvRead 1; EvPut 1; EvWrite 0; EvWrite 0;
       EvPut 0; EvRead 0] /\
  scoped [] (trace (TitleCaseIdentifier "a.b" init_world)) = false /\
  scoped [] (trace (TitleCase "a_b" init_world)) = true /\
  scoped [] (trace (CamelCase "a_b" init_world)) = true.
Proof. vm_compute. by split_and!. Qed.

(** The same on every input that has a dot: the last two events of the call
    are the release of the buffer and then the read of it, and the buffer is
    in the pool when the call returns. *)
Lemma TitleCaseIdentifier_dotted_reads_after_put (id : string) (w : World) :
  world_ok w -> dot ∈ bytes id ->
  exists b rest w',
    TitleCaseIdentifier id w = Done (Spec.TitleCaseIdentifier id) w' /\
    events w' = EvRead b :: EvPut b :: rest /\ b ∈ bufPool w'.
Proof.
  intros Hok Hdot.
  destruct (TitleCaseIdentifier_run id w Hok) as (w' & Hrun & _ & _ & Hev).
  destruct (Hev Hdot) as (b & rest & Hevents & Hin). by exists b, rest, w'.
Qed.

(** C6. CamelCase strips the leading underscores; if nothing remains it
    returns the empty string; if the remainder has no underscore it returns
    the remainder verbatim; otherwise it returns the portion before the first
    remaining underscore verbatim, followed directly by TitleCase of the
    portion after that underscore.  CamelCase("var_name_id") is
    "varNameID". *)
Theorem CamelCase_strip_cut_title (name : string) (w : World) :
  world_ok w ->
  exists w',
    CamelCase name w
      = Done (match Spec.strip_underscores (bytes name) with
              | [] => ""
              | rest =>
                  match Spec.cut_underscore rest with
                  | (_, None) => str rest
                  | (head, Some tail) =>
                      str (head ++ bytes (Spec.TitleCase (str tail)))
                  end
              end) w' /\
    (forall tail, exists w'', TitleCase tail w' = Done (Spec.TitleCase tail) w'') /\
    result (CamelCase "var_name_id" init_world) = Some "varNameID" /\
    result (CamelCase "___" init_world) = Some "" /\
    result (CamelCase "noUnderscore" init_world) = Some "noUnderscore".
Proof.
  intros Hok. destruct (CamelCase_run name w Hok) as (w' & Hrun & Hok' & _).
  exists w'. split_and!; try done.
  intros tail. destruct (TitleCase_run tail w' Hok') as (w'' & Hrun' & _).
  by exists w''.
Qed.

Lemma CamelCase_strip_cut_title_witness :
  exists w',
    CamelCase "__var_name_id" init_world
      = Done (match Spec.strip_underscores (bytes "__var_name_id") with
              | [] => ""
              | rest =>
                  match Spec.cut_underscore rest with
                  | (_, None) => str rest
                  | (head, Some tail) =>
                      str (head ++ bytes (Spec.TitleCase (str tail)))
                  end
              end) w' /\
    (forall tail, exists w'', TitleCase tail w' = Done (Spec.TitleCase tail) w'') /\
    result (CamelCase "var_name_id" init_world) = Some "varNameID" /\
    result (CamelCase "___" init_world) = Some "" /\
    result (CamelCase "noUnderscore" init_world) = Some "noUnderscore".
Proof.
  exact (CamelCase_strip_cut_title "__var_name_id" init_world init_world_ok).
Defined.

(** C7, as stated: Placeholders aborts for every start <= 0 or group <= 0 and
    WhereClause for every start <= 0.  With a negative start neither
    aborts. *)
Lemma negative_start_does_not_abort :
  (-1 <= 0 /\ is_panic (Placeholders 1 (-1) 1 init_world) = false /\
   result (Placeholders 1 (-1) 1 init_world) = Some "$-1") /\
  (-3 <= 0 /\ is_panic (WhereClause (-3) ["a"; "b"] init_world) = false /\
   result (WhereClause (-3) ["a"; "b"] init_world)
     = Some (fmt_assign "a" (-3) +:+ " AND " +:+ fmt_assign "b" (-2))).
Proof. vm_compute. split_and!; done. Qed.

(** C7, amended.  Placeholders(count, start, group) aborts exactly when start
    is 0 or group is 0, and WhereClause(start, cols) exactly when start is 0,
    in both cases before anything is written to a buffer; with any other
    start and group, negative ones included, they return a string. *)
Theorem numbering_aborts_on_zero_only
    (count start group : Z) (cols : list string) (w : World) :
  world_ok w ->
  (start = 0 \/ group = 0 ->
   exists b w',
     Placeholders count start group w
       = Panic "Invalid start or group numbers supplied." w' /\
     events w' = EvPut b :: EvGet b :: events w) /\
  (start <> 0 -> group <> 0 ->
   exists s w', Placeholders count start group w = Done s w') /\
  (start = 0 ->
   WhereClause start cols w
     = Panic "0 is not a valid start number for whereClause" w) /\
  (start <> 0 -> exists s w', WhereClause start cols w = Done s w').
Proof.
  intros Hok. split_and!.
  - apply Placeholders_panics.
  - intros Hs Hg.
    destruct (Placeholders_run count start group w Hok Hs Hg) as (s & w' & Hrun & _).
    by exists s, w'.
  - intros ->. apply WhereClause_panics.
  - intros Hs. destruct (WhereClause_run start cols w Hok Hs) as (s & w' & Hrun & _).
    by exists s, w'.
Qed.

Lemma numbering_aborts_on_zero_only_witness :
  (-1 = 0 \/ 2 = 0 ->
   exists b w',
     Placeholders 3 (-1) 2 init_world
       = Panic "Invalid start or group numbers supplied." w' /\
     events w' = EvPut b :: EvGet b :: events init_world) /\
  (-1 <> 0 -> 2 <> 0 ->
   exists s w', Placeholders 3 (-1) 2 init_world = Done s w') /\
  (-1 = 0 ->
   WhereClause (-1) ["a"] init_world
     = Panic "0 is not a valid start number for whereClause" init_world) /\
  (-1 <> 0 -> exists s w', WhereClause (-1) ["a"] init_world = Done s w').
Proof.
  exact (numbering_aborts_on_zero_only 3 (-1) 2 ["a"] init_world init_world_ok).
Defined.

(** C8. In every world the package can reach, TitleCase(x) returns the same
    string, the one segmenting and rendering [x] produces, whatever was called
    before; every entry of the cache maps its key to that string, and a cache
    hit returns what a fresh computation returns. *)
Theorem TitleCase_deterministic (w : World) :
  reachable w ->
  (forall x, exists w',
     TitleCase x w = Done (Spec.TitleCase x) w' /\ reachable w') /\
  (forall n v, titleCaseCache w !! n = Some v -> v = Spec.TitleCase n) /\
  (forall n v, titleCaseCache w !! n = Some v ->
     TitleCase n w = Done v w /\
     exists w', TitleCase n (forget n w) = Done v w').
Proof.
  intros Hreach. pose proof (reachable_ok w Hreach) as Hok. split_and!.
  - intros x. destruct (TitleCase_run x w Hok) as (w' & Hrun & _).
    exists w'. split; [done|].
    by apply (reachable_call w (CallTitleCase x) (Spec.TitleCase x) w').
  - apply Hok.
  - intros n v Hn. split; [by apply TitleCase_hit_run|].
    destruct Hok as [Hcache Hpool].
    destruct (TitleCase_miss_run n (forget n w) Hpool) as (w' & Hrun & _).
    { cbn. apply lookup_delete_eq. }
    exists w'. by rewrite (Hcache n v Hn).
Qed.

Lemma TitleCase_deterministic_witness :
  let w := world_after (CallCamelCase "var_name_id")
             (world_after (CallTitleCase "fun_id") init_world) in
  (forall x, exists w',
     TitleCase x w = Done (Spec.TitleCase x) w' /\ reachable w') /\
  (forall n v, titleCaseCache w !! n = Some v -> v = Spec.TitleCase n) /\
  (forall n v, titleCaseCache w !! n = Some v ->
     TitleCase n w = Done v w /\
     exists w', TitleCase n (forget n w) = Done v w').
Proof.
  apply TitleCase_deterministic.
  eapply (reachable_call _ (CallCamelCase "var_name_id") "varNameID").
  - eapply (reachable_call _ (CallTitleCase "fun_id") "FunID").
    + apply reachable_init.
    + vm_compute. reflexivity.
  - vm_compute. reflexivity.
Defined.

(** C9. TitleCase, CamelCase and TitleCaseIdentifier are total: on every
    input string each returns a string, without a panic (no index or slice
    out of range) and within the fuel of its loops; no word of the segmenter
    is empty; TitleCase of an empty or all-underscore input is the empty
    string. *)
Theorem case_conversion_total (s : string) (w : World) :
  world_ok w ->
  (exists w', TitleCase s w = Done (Spec.TitleCase s) w') /\
  (exists w', TitleCase s (forget s w) = Done (Spec.TitleCase s) w') /\
  (exists w', CamelCase s w = Done (Spec.CamelCase s) w') /\
  (exists w', TitleCaseIdentifier s w = Done (Spec.TitleCaseIdentifier s) w') /\
  Forall (fun word => word <> []) (Spec.words (bytes s)) /\
  (Forall (fun c => c = underscore) (bytes s) ->
   exists w', TitleCase s w = Done "" w') /\
  result (TitleCase "" init_world) = Some "" /\
  result (TitleCase "___" init_world) = Some "".
Proof.
  intros Hok. split_and!; try done.
  - destruct (TitleCase_run s w Hok) as (w' & Hrun & _). by exists w'.
  - destruct Hok as [_ Hpool].
    destruct (TitleCase_miss_run s (forget s w) Hpool) as (w' & Hrun & _).
    { cbn. apply lookup_delete_eq. }
    by exists w'.
  - destruct (CamelCase_run s w Hok) as (w' & Hrun & _). by exists w'.
  - destruct (TitleCaseIdentifier_run s w Hok) as (w' & Hrun & _). by exists w'.
  - eapply Forall_impl; [apply words_wellformed|]. by intros word [Hne _].
  - intros Hall. destruct (TitleCase_run s w Hok) as (w' & Hrun & _).
    exists w'. rewrite Hrun. unfold Spec.TitleCase.
    by rewrite words_all_underscores.
Qed.

Lemma case_conversion_total_witness :
  (exists w', TitleCase "__" init_world = Done (Spec.TitleCase "__") w') /\
  (exists w', TitleCase "__" (forget "__" init_world)
              = Done (Spec.TitleCase "__") w') /\
  (exists w', CamelCase "__" init_world = Done (Spec.CamelCase "__") w') /\
  (exists w', TitleCaseIdentifier "__" init_world
              = Done (Spec.TitleCaseIdentifier "__") w') /\
  Forall (fun word => word <> []) (Spec.words (bytes "__")) /\
  (Forall (fun c => c = underscore) (bytes "__") ->
   exists w', TitleCase "__" init_world = Done "" w') /\
  result (TitleCase "" init_world) = Some "" /\
  result (TitleCase "___" init_world) = Some "".
Proof. exact (case_conversion_total "__" init_world init_world_ok). Defined.

(** C10. The vowel test knows the lowercase vowels only.  A word with no
    lowercase vowel byte, and so every word whose letters are all uppercase
    (uppercase vowels included), takes the acronym path and is written with
    its lowercase letters uppercased; TitleCase("Abc") is "ABC". *)
Theorem uppercase_vowels_do_not_count (b : nat) (word : list ascii) (w : World) :
  is_Some (heap w !! b) ->
  Forall (fun c => Spec.is_vowel c = false) word ->
  (exists w', renderWord b word w = Done tt w' /\
              appended b (Spec.upper_all word) w w') /\
  Spec.acronym word = true /\
  (forall word', Forall (fun c => Spec.is_lower c = false) word' ->
     Forall (fun c => Spec.is_vowel c = false) word' /\
     Spec.upper_all word' = word') /\
  Forall (fun c => Spec.is_vowel c = false) (bytes "AEIOUY") /\
  (forall w0, world_ok w0 -> exists w', TitleCase "Abc" w0 = Done "ABC" w') /\
  result (TitleCase "Abc" init_world) = Some "ABC".
Proof.
  intros Hb Hnv.
  assert (Hex : existsb Spec.is_vowel word = false).
  { induction Hnv as [|c rest Hc _ IH]; [done|]. cbn [existsb]. by rewrite Hc, IH. }
  assert (Hacr : Spec.acronym word = true).
  { unfold Spec.acronym. by rewrite Hex, orb_true_r. }
  split_and!; try done.
  - destruct (renderWord_appended b word w Hb) as (w' & Hrun & Happ).
    exists w'. split; [done|]. unfold Spec.render in Happ. by rewrite Hacr in Happ.
  - intros word' Hup. split.
    + eapply Forall_impl; [exact Hup|]. intros c Hc. cbn beta in Hc.
      destruct (Spec.is_vowel c) eqn:Hv; [|done].
      apply is_vowel_is_lower in Hv. congruence.
    + unfold Spec.upper_all. induction Hup as [|c rest Hc _ IH]; [done|].
      cbn [map]. by rewrite IH, to_upper_not_lower.
  - by repeat constructor.
  - intros w0 Hok0. destruct (TitleCase_run "Abc" w0 Hok0) as (w' & Hrun & _).
    by exists w'.
Qed.

Lemma uppercase_vowels_do_not_count_witness :
  (exists w', renderWord 0 (bytes "UUID") (mkWorld ∅ [[]] [] []) = Done tt w' /\
              appended 0 (Spec.upper_all (bytes "UUID")) (mkWorld ∅ [[]] [] []) w') /\
  Spec.acronym (bytes "UUID") = true /\
  (forall word', Forall (fun c => Spec.is_lower c = false) word' ->
     Forall (fun c => Spec.is_vowel c = false) word' /\
     Spec.upper_all word' = word') /\
  Forall (fun c => Spec.is_vowel c = false) (bytes "AEIOUY") /\
  (forall w0, world_ok w0 -> exists w', TitleCase "Abc" w0 = Done "ABC" w') /\
  result (TitleCase "Abc" init_world) = Some "ABC".
Proof.
  apply (uppercase_vowels_do_not_count 0 (bytes "UUID") (mkWorld ∅ [[]] [] [])).
  - by exists [].
  - by repeat constructor.
Defined.


(** * Further properties of the package *)

(** ** Strings *)

Lemma bytes_app a b : bytes (a +:+ b) = bytes a ++ bytes b.
Proof.
  unfold bytes. induction a as [|c a IH]; [done|].
  simpl. by rewrite IH.
Qed.

Lemma str_app x y : str (x ++ y) = str x +:+ str y.
Proof.
  unfold str. induction x as [|c x IH]; [done|].
  simpl. by rewrite IH.
Qed.

Lemma bytes_inj a b : bytes a = bytes b -> a = b.
Proof. intros H. by rewrite <- (str_bytes a), <- (str_bytes b), H. Qed.

(** ** What TitleCase keeps of its input *)

Lemma split_on_app sep a b :
  Spec.split_on sep (a ++ sep :: b) = Spec.split_on sep a ++ Spec.split_on sep b.
Proof.
  induction a as [|c a IH]; cbn [app Spec.split_on].
  - by rewrite Ascii.eqb_refl.
  - destruct (Ascii.eqb c sep); [by rewrite IH|].
    rewrite IH. pose proof (split_on_not_nil sep a) as Hne.
    by destruct (Spec.split_on sep a).
Qed.

Lemma words_app a b :
  Spec.words (a ++ underscore :: b) = Spec.words a ++ Spec.words b.
Proof. unfold Spec.words. by rewrite split_on_app, filter_app. Qed.

Lemma Spec_TitleCase_app a b :
  Spec.TitleCase (a +:+ "_" +:+ b) = Spec.TitleCase a +:+ Spec.TitleCase b.
Proof.
  unfold Spec.TitleCase. rewrite !bytes_app. cbn [bytes list_ascii_of_string app].
  change "_"%char with underscore.
  by rewrite words_app, map_app, concat_app, str_app.
Qed.

Lemma to_upper_not_underscore c : c <> underscore -> Spec.to_upper c <> underscore.
Proof.
  destruct c as [[] [] [] [] [] [] [] []]; vm_compute; congruence.
Qed.

Lemma render_length word : length (Spec.render word) = length word.
Proof.
  unfold Spec.render. destruct (Spec.acronym word).
  - apply length_map.
  - destruct word as [|c rest]; cbn [Spec.capitalize]; [done|].
    by destruct (Spec.is_lower c).
Qed.

Lemma render_no_underscore word :
  Forall (fun c => c <> underscore) word ->
  Forall (fun c => c <> underscore) (Spec.render word).
Proof.
  intros Hfree. unfold Spec.render.
  destruct (Spec.acronym word).
  - unfold Spec.upper_all. induction Hfree as [|c rest Hc _ IH]; cbn [map].
    + constructor.
    + constructor; [by apply to_upper_not_underscore | done].
  - destruct Hfree as [|c rest Hc Hrest]; cbn [Spec.capitalize]; [constructor|].
    destruct (Spec.is_lower c); constructor; try done.
    by apply to_upper_not_underscore.
Qed.

Lemma rendered_words_no_underscore s :
  Forall (fun c => c <> underscore) (concat (map Spec.render (Spec.words s))).
Proof.
  pose proof (words_wellformed s) as Hw.
  induction Hw as [|w ws [_ Hfree] _ IH]; cbn [map concat]; [constructor|].
  apply Forall_app. split; [by apply render_no_underscore | done].
Qed.

Lemma rendered_words_length s :
  length (concat (map Spec.render (Spec.words s)))
  = length (filter (fun c => c <> underscore) s).
Proof.
  rewrite <- concat_words.
  induction (Spec.words s) as [|w ws IH]; cbn [map concat]; [done|].
  by rewrite !length_app, render_length, IH.
Qed.

Lemma render_no_lower word :
  Forall (fun c => Spec.is_lower c = false) word -> Spec.render word = word.
Proof.
  intros Hup. unfold Spec.render.
  assert (Hmap : Spec.upper_all word = word).
  { unfold Spec.upper_all. induction Hup as [|c rest Hc _ IH]; [done|].
    cbn [map]. by rewrite IH, to_upper_not_lower. }
  destruct (Spec.acronym word); [done|].
  destruct Hup as [|c rest Hc _]; cbn [Spec.capitalize]; [done|]. by rewrite Hc.
Qed.

Lemma rendered_words_no_lower s :
  Forall (fun c => Spec.is_lower c = false) s ->
  concat (map Spec.render (Spec.words s)) = filter (fun c => c <> underscore) s.
Proof.
  intros Hup. rewrite <- concat_words. f_equal.
  pose proof (split_on_Forall _ underscore s Hup) as Hsplit.
  unfold Spec.words.
  induction Hsplit as [|w ws Hw _ IH]; [done|].
  destruct (decide (w <> [])) as [Hne|Hnil].
  - rewrite filter_cons_True by done. cbn [map]. by rewrite IH, render_no_lower.
  - by rewrite filter_cons_False by done.
Qed.

(** ** What CamelCase and TitleCaseIdentifier keep of their input *)

Lemma Spec_CamelCase_no_underscore name :
  Forall (fun c => c <> underscore) (bytes (Spec.CamelCase name)).
Proof.
  unfold Spec.CamelCase.
  destruct (Spec.strip_underscores (bytes name)) as [|c rest] eqn:Hstrip;
    [constructor|].
  rewrite cut_underscore_find.
  destruct (find_first _ (c :: rest)) as [k|] eqn:Hk.
  - rewrite bytes_str. apply Forall_app. split.
    + destruct (find_first_Some _ _ _ Hk) as [Hpre _]. by apply Forall_eqb_neq.
    + unfold Spec.TitleCase. rewrite bytes_str. apply rendered_words_no_underscore.
  - rewrite bytes_str. by apply Forall_eqb_neq, find_first_None.
Qed.

Lemma join_app sep l1 l2 :
  l1 <> [] -> l2 <> [] ->
  Spec.join sep (l1 ++ l2) = Spec.join sep l1 ++ sep :: Spec.join sep l2.
Proof.
  intros H1 H2. induction l1 as [|w ws IH]; [done|].
  destruct ws as [|w' ws'].
  - cbn [app]. by rewrite join_cons.
  - change ((w :: w' :: ws') ++ l2) with (w :: ((w' :: ws') ++ l2)).
    rewrite !join_cons by done. rewrite IH by done. by rewrite <- app_assoc.
Qed.

Lemma Spec_TitleCaseIdentifier_app a b :
  Spec.TitleCaseIdentifier (a +:+ "." +:+ b)
  = Spec.TitleCaseIdentifier a +:+ "." +:+ Spec.TitleCaseIdentifier b.
Proof.
  unfold Spec.TitleCaseIdentifier. rewrite !bytes_app.
  cbn [bytes list_ascii_of_string app]. change "."%char with dot.
  rewrite split_on_app, map_app, join_app.
  - rewrite str_app. f_equal.
  - intros H. apply map_eq_nil in H. by apply split_on_not_nil in H.
  - intros H. apply map_eq_nil in H. by apply split_on_not_nil in H.
Qed.

(** ** What a call does to the cache and to the pool *)

Lemma bind_inv {A B} (m : M A) (k : A -> M B) w b w' :
  bind m k w = Done b w' ->
  exists a w1, m w = Done a w1 /\ k a w1 = Done b w'.
Proof. unfold bind. destruct (m w) as [a w1| |]; [|done..]. by exists a, w1. Qed.

Lemma defer_inv {A} (d : M unit) (body : M A) w a w' :
  defer d body w = Done a w' ->
  exists w1, body w = Done a w1 /\ d w1 = Done tt w'.
Proof.
  unfold defer. destruct (body w) as [a1 w1|msg w1|]; [| |done].
  - destruct (d w1) as [[] w2| |] eqn:Hd; [|done..].
    intros [= <- <-]. by exists w1.
  - by destruct (d w1).
Qed.

Section Does.
Context (Rc : relation (gmap string string)) `{!PreOrder Rc}.

Lemma does_ret {A} (a : A) : does Rc 0 (ret a).
Proof. intros w a' w' [= <- <-]. split; [done | lia]. Qed.

Lemma does_panic {A} msg d : does Rc d (@panic A msg).
Proof. by intros w a w' H. Qed.

Lemma does_out_of_fuel {A} d : does Rc d (@out_of_fuel A).
Proof. by intros w a w' H. Qed.

Lemma does_bind {A B} (m : M A) (k : A -> M B) d1 d2 d :
  does Rc d1 m -> (forall a, does Rc d2 (k a)) -> d = d1 + d2 ->
  does Rc d (bind m k).
Proof.
  intros Hm Hk -> w b w' Hrun.
  apply bind_inv in Hrun as (a & w1 & H1 & H2).
  destruct (Hm _ _ _ H1) as [Hc1 Hq1]. destruct (Hk a _ _ _ H2) as [Hc2 Hq2].
  split; [by etrans | lia].
Qed.

Lemma does_bind0 {A B} (m : M A) (k : A -> M B) :
  does Rc 0 m -> (forall a, does Rc 0 (k a)) -> does Rc 0 (bind m k).
Proof. intros Hm Hk. by apply (does_bind m k 0 0). Qed.

Lemma does_defer {A} (dfr : M unit) (body : M A) d1 d2 d :
  does Rc d1 body -> does Rc d2 dfr -> d = d1 + d2 ->
  does Rc d (defer dfr body).
Proof.
  intros Hb Hd -> w a w' Hrun.
  apply defer_inv in Hrun as (w1 & H1 & H2).
  destruct (Hb _ _ _ H1) as [Hc1 Hq1]. destruct (Hd _ _ _ H2) as [Hc2 Hq2].
  split; [by etrans | lia].
Qed.

Lemma does_GetBuffer : does Rc 1 GetBuffer.
Proof.
  intros w b w'. unfold GetBuffer, outstanding.
  destruct (bufPool w) as [|b0 rest]; intros [= <- <-]; cbn.
  - split; [done|]. rewrite length_app. cbn. lia.
  - split; [done|]. rewrite length_insert. lia.
Qed.

Lemma does_PutBuffer b : does Rc (-1) (PutBuffer b).
Proof.
  intros w [] w' [= <-]. unfold outstanding. cbn. split; [done | lia].
Qed.

Lemma does_Buffer_Write b bs : does Rc 0 (Buffer_Write b bs).
Proof.
  intros w [] w'. unfold Buffer_Write, outstanding.
  destruct (heap w !! b); [|done]. intros [= <-]. cbn.
  split; [done|]. rewrite length_insert. lia.
Qed.

Lemma does_Buffer_String b : does Rc 0 (Buffer_String b).
Proof.
  intros w s w'. unfold Buffer_String, outstanding.
  destruct (heap w !! b); [|done]. intros [= <- <-]. cbn. split; [done | lia].
Qed.

Lemma does_log e : does Rc 0 (log e).
Proof. intros w [] w' [= <-]. unfold outstanding. cbn. split; [done | lia]. Qed.

Lemma does_index s i : does Rc 0 (index s i).
Proof.
  unfold index. destruct (if 0 <=? i then s !! Z.to_nat i else None);
    [apply does_ret | apply does_panic].
Qed.

Lemma does_slice s lo hi : does Rc 0 (slice s lo hi).
Proof.
  unfold slice. destruct ((0 <=? lo) && (lo <=? hi) && (hi <=? len s));
    [apply does_ret | apply does_panic].
Qed.

Lemma does_at_index {A} (s : list A) i : does Rc 0 (at_index s i).
Proof.
  unfold at_index. destruct (if 0 <=? i then s !! Z.to_nat i else None);
    [apply does_ret | apply does_panic].
Qed.

Lemma does_set_index {A} (s : list A) i v : does Rc 0 (set_index s i v).
Proof.
  unfold set_index. destruct ((0 <=? i) && (i <? llen s));
    [apply does_ret | apply does_panic].
Qed.
End Does.

(** One step of a walk through code that keeps the balance of the pool. *)
Ltac does_step :=
  first
    [ apply does_ret | apply does_panic | apply does_out_of_fuel
    | apply does_Buffer_Write | apply does_Buffer_String | apply does_log
    | apply does_index | apply does_slice | apply does_at_index
    | apply does_set_index
    | apply does_bind0; [ first [assumption | typeclasses eauto] | | intros ? ]
    | match goal with
      | |- does _ _ (if ?c then _ else _) => destruct c
      | |- does _ _ (match ?x with Some _ => _ | None => _ end) => destruct x
      | |- does _ _ (let '(_, _) := ?x in _) => destruct x
      end ].

Ltac does_walk := repeat (does_step; try first [assumption | typeclasses eauto]).

Section DoesLoops.
Context (Rc : relation (gmap string string)) `{!PreOrder Rc}.

Lemma does_writeUpper buf word : does Rc 0 (writeUpper buf word).
Proof.
  induction word as [|c rest IH]; cbn [writeUpper]; [by apply does_ret|].
  apply does_bind0; [done | | by intros].
  unfold Buffer_WriteByte. destruct ((96 <? code c) && (code c <? 123));
    by apply does_Buffer_Write.
Qed.

Lemma does_renderWord buf word : does Rc 0 (renderWord buf word).
Proof.
  unfold renderWord, Buffer_WriteByte.
  destruct (scanWord word 0 (len word) false (len word)) as [vowels numStart].
  apply does_bind0; [done | by apply does_slice | intros key].
  destruct (uppercaseWords_has (str key) || negb vowels);
    [by apply does_writeUpper|].
  does_walk.
Qed.

Lemma does_TitleCase_loop fuel name ln buf start end_ :
  does Rc 0 (TitleCase_loop fuel name ln buf start end_).
Proof.
  revert start end_. induction fuel as [|fuel IH]; intros start end_;
    cbn [TitleCase_loop]; [by apply does_out_of_fuel|].
  destruct (start <? ln); [|by apply does_ret].
  apply does_bind0; [done | does_walk | intros [[s' e']|]].
  - apply IH.
  - apply does_bind0; [done | by apply does_slice | intros word].
    apply does_bind0; [done | by apply does_renderWord | intros _]. apply IH.
Qed.

Lemma does_CamelCase_find fuel p name i index_ :
  does Rc 0 (CamelCase_find fuel p name i index_).
Proof.
  revert i. induction fuel as [|fuel IH]; intros i;
    cbn [CamelCase_find]; [by apply does_out_of_fuel|].
  destruct (i <? len name); [|by apply does_ret].
  apply does_bind0; [done | by apply does_index | intros c].
  destruct (p c); [by apply does_ret | apply IH].
Qed.

Lemma does_Placeholders_loop fuel buf count start group i :
  does Rc 0 (Placeholders_loop fuel buf count start group i).
Proof.
  revert i. induction fuel as [|fuel IH]; intros i;
    cbn [Placeholders_loop]; [by apply does_out_of_fuel|].
  unfold Buffer_WriteString, Buffer_WriteByte.
  destruct (i <? count); [|by apply does_ret].
  apply does_bind0; [done | does_walk | intros _].
  apply does_bind0; [done | by apply does_Buffer_Write | intros _]. apply IH.
Qed.

Lemma does_WhereClause_loop buf start n i cols :
  does Rc 0 (WhereClause_loop buf start n i cols).
Proof.
  revert i. induction cols as [|c rest IH]; intros i;
    cbn [WhereClause_loop]; [by apply does_ret|].
  unfold Buffer_WriteString.
  apply does_bind0; [done | by apply does_Buffer_Write | intros _].
  apply does_bind0; [done | does_walk | intros _]. apply IH.
Qed.

Lemma does_SetParamNames_loop buf n i cols :
  does Rc 0 (SetParamNames_loop buf n i cols).
Proof.
  revert i. induction cols as [|c rest IH]; intros i;
    cbn [SetParamNames_loop]; [by apply does_ret|].
  unfold Buffer_WriteString.
  apply does_bind0; [done | by apply does_Buffer_Write | intros _].
  apply does_bind0; [done | does_walk | intros _]. apply IH.
Qed.

Lemma does_inflect_loop fuel rule buf splits i :
  does Rc 0 (inflect_loop fuel rule buf splits i).
Proof.
  revert i. induction fuel as [|fuel IH]; intros i;
    cbn [inflect_loop]; [by apply does_out_of_fuel|].
  unfold Buffer_WriteString, Buffer_WriteByte.
  destruct (i <? llen splits); [|by apply does_ret].
  apply does_bind0; [done | does_walk | intros _].
  destruct (i =? llen splits - 1); [does_walk|].
  apply does_bind0; [done | by apply does_at_index | intros s].
  apply does_bind0; [done | by apply does_Buffer_Write | intros _]. apply IH.
Qed.

(** A function that takes a buffer, runs a balanced body and puts the
    buffer back when the body is done. *)
Lemma does_scoped_buffer {A} (body : nat -> M A) :
  (forall buf, does Rc 0 (body buf)) ->
  does Rc 0 (buf <- GetBuffer ;; defer (PutBuffer buf) (body buf)).
Proof.
  intros Hbody. apply (does_bind Rc _ _ 1 (-1)); [by apply does_GetBuffer | | done].
  intros buf. apply (does_defer Rc _ _ 0 (-1));
    [done | by apply does_PutBuffer | done].
Qed.

Lemma does_StringMap_loop modifier ret_ i strs :
  (forall s, does Rc 0 (modifier s)) ->
  does Rc 0 (StringMap_loop modifier ret_ i strs).
Proof.
  intros Hmod. revert ret_ i. induction strs as [|s rest IH]; intros ret_ i;
    cbn [StringMap_loop]; [by apply does_ret|].
  apply does_bind0; [done | done | intros v].
  apply does_bind0; [done | by apply does_set_index | intros ret_']. apply IH.
Qed.
End DoesLoops.

Lemma TitleCase_effect n w r w' :
  TitleCase n w = Done r w' ->
  titleCaseCache w ⊆ titleCaseCache w' /\
  outstanding w' = outstanding w /\
  titleCaseCache w' !! n = Some r /\
  (forall k, k <> n -> titleCaseCache w' !! k = titleCaseCache w !! k).
Proof.
  intros Hrun. unfold TitleCase, RLock, RUnlock, Lock, Unlock in Hrun.
  rewrite bind_ret in Hrun. unfold bind at 1, cache_get in Hrun.
  destruct (titleCaseCache w !! n) as [val|] eqn:Hn; rewrite bind_ret in Hrun.
  - injection Hrun as <- <-. by split_and!.
  - apply bind_inv in Hrun as (b & w1 & Hget & Hrun).
    apply (does_GetBuffer eq) in Hget as [Hc1 Hq1].
    apply bind_inv in Hrun as ([] & w2 & Hloop & Hrun).
    apply (does_TitleCase_loop eq) in Hloop as [Hc2 Hq2].
    apply bind_inv in Hrun as (s & w3 & Hstr & Hrun).
    apply (does_Buffer_String eq) in Hstr as [Hc3 Hq3].
    apply bind_inv in Hrun as ([] & w4 & Hput & Hrun).
    apply (does_PutBuffer eq) in Hput as [Hc4 Hq4].
    rewrite bind_ret in Hrun. unfold bind at 1, cache_set in Hrun.
    rewrite bind_ret in Hrun. injection Hrun as <- <-.
    assert (Hc : titleCaseCache w4 = titleCaseCache w) by congruence.
    unfold outstanding in *. cbn. rewrite Hc. split_and!.
    + by apply insert_subseteq.
    + lia.
    + apply lookup_insert_eq.
    + intros k Hk. by apply lookup_insert_ne.
Qed.

Lemma does_TitleCase n : does (⊆) 0 (TitleCase n).
Proof.
  intros w r w' Hrun. destruct (TitleCase_effect _ _ _ _ Hrun) as (Hc & Hq & _).
  split; [done | lia].
Qed.

Lemma does_CamelCase name : does (⊆) 0 (CamelCase name).
Proof.
  unfold CamelCase. apply does_scoped_buffer; [typeclasses eauto|]. intros buf.
  cbv zeta. unfold Buffer_WriteString.
  apply does_bind0; [typeclasses eauto | apply does_CamelCase_find; typeclasses eauto
                    | intros index_].
  destruct (negb (index_ =? -1)); [|apply does_ret; typeclasses eauto].
  apply does_bind0; [typeclasses eauto | apply does_slice; typeclasses eauto
                    | intros name'].
  apply does_bind0; [typeclasses eauto | apply does_CamelCase_find; typeclasses eauto
                    | intros index_'].
  apply does_bind0; [typeclasses eauto | | intros _; apply does_Buffer_String;
                                             typeclasses eauto].
  destruct (index_' =? -1); [apply does_Buffer_Write; typeclasses eauto|].
  apply does_bind0; [typeclasses eauto | apply does_slice; typeclasses eauto
                    | intros head].
  apply does_bind0; [typeclasses eauto | apply does_Buffer_Write; typeclasses eauto
                    | intros _].
  apply does_bind0; [typeclasses eauto | apply does_slice; typeclasses eauto
                    | intros tail].
  apply does_bind0; [typeclasses eauto | apply does_TitleCase | intros titled].
  apply does_Buffer_Write; typeclasses eauto.
Qed.

Lemma does_TitleCaseIdentifier_loop fuel id ln buf lastDot nextDot addDots :
  does (⊆) 0 (TitleCaseIdentifier_loop fuel id ln buf lastDot nextDot addDots).
Proof.
  revert lastDot nextDot addDots.
  induction fuel as [|fuel IH]; intros lastDot nextDot addDots;
    cbn [TitleCaseIdentifier_loop]; [apply does_out_of_fuel; typeclasses eauto|].
  unfold Buffer_WriteString, Buffer_WriteByte.
  destruct (0 <=? nextDot); [|apply does_ret; typeclasses eauto].
  apply does_bind0; [typeclasses eauto | apply does_log; typeclasses eauto
                    | intros _].
  apply does_bind0; [typeclasses eauto | apply does_slice; typeclasses eauto
                    | intros fragment].
  apply does_bind0; [typeclasses eauto | apply does_TitleCase | intros titled].
  apply does_bind0; [typeclasses eauto | | intros _].
  { destruct addDots;
      [apply does_Buffer_Write | apply does_ret]; typeclasses eauto. }
  apply does_bind0; [typeclasses eauto | apply does_Buffer_Write; typeclasses eauto
                    | intros _].
  destruct (nextDot =? ln); [apply does_ret; typeclasses eauto|].
  apply does_bind0; [typeclasses eauto | apply does_slice; typeclasses eauto
                    | intros tail].
  apply IH.
Qed.

Lemma does_TitleCaseIdentifier id : does (⊆) 0 (TitleCaseIdentifier id).
Proof.
  unfold TitleCaseIdentifier.
  destruct (IndexByte (bytes id) dot <? 0); [apply does_TitleCase|].
  apply (does_bind _ _ _ 1 (-1));
    [apply does_GetBuffer; typeclasses eauto | intros buf | done].
  apply (does_bind _ _ _ 0 (-1));
    [apply does_TitleCaseIdentifier_loop | intros _ | done].
  apply (does_bind _ _ _ (-1) 0);
    [apply does_PutBuffer; typeclasses eauto | intros _ | done].
  apply does_Buffer_String; typeclasses eauto.
Qed.

Section DoesFunctions.
Context (Rc : relation (gmap string string)) `{!PreOrder Rc}.

Lemma does_Placeholders count start group :
  does Rc 0 (Placeholders count start group).
Proof.
  unfold Placeholders. apply does_scoped_buffer; [done|]. intros buf.
  unfold Buffer_WriteByte.
  apply does_bind0; [done | does_walk | intros _].
  apply does_bind0; [done | does_walk | intros _].
  apply does_bind0; [done | by apply does_Placeholders_loop | intros _].
  does_walk.
Qed.

Lemma does_WhereClause start cols : does Rc 0 (WhereClause start cols).
Proof.
  unfold WhereClause. apply does_bind0; [done | does_walk | intros _].
  apply does_scoped_buffer; [done|]. intros buf.
  apply does_bind0; [done | by apply does_WhereClause_loop | intros _].
  by apply does_Buffer_String.
Qed.

Lemma does_SetParamNames columns : does Rc 0 (SetParamNames columns).
Proof.
  unfold SetParamNames. apply does_scoped_buffer; [done|]. intros buf.
  apply does_bind0; [done | by apply does_SetParamNames_loop | intros _].
  by apply does_Buffer_String.
Qed.

Lemma does_Plural rs name : does Rc 0 (Plural rs name).
Proof.
  unfold Plural. apply does_scoped_buffer; [done|]. intros buf. cbv zeta.
  apply does_bind0; [done | by apply does_inflect_loop | intros _].
  by apply does_Buffer_String.
Qed.

Lemma does_Singular rs name : does Rc 0 (Singular rs name).
Proof.
  unfold Singular. apply does_scoped_buffer; [done|]. intros buf. cbv zeta.
  apply does_bind0; [done | by apply does_inflect_loop | intros _].
  by apply does_Buffer_String.
Qed.
End DoesFunctions.

Lemma does_run_call c : does (⊆) 0 (run_call c).
Proof.
  destruct c; cbn [run_call].
  - apply does_TitleCase.
  - apply does_CamelCase.
  - apply does_TitleCaseIdentifier.
  - apply does_Placeholders; typeclasses eauto.
  - apply does_WhereClause; typeclasses eauto.
Qed.

Lemma Placeholders_panic_balanced count start group w :
  start = 0 \/ group = 0 ->
  exists w',
    Placeholders count start group w
      = Panic "Invalid start or group numbers supplied." w' /\
    outstanding w' = outstanding w /\
    titleCaseCache w' = titleCaseCache w.
Proof.
  intros Hzero. unfold Placeholders.
  assert ((start =? 0) || (group =? 0) = true) as Htest.
  { destruct Hzero as [->| ->]; [done | by rewrite orb_true_r]. }
  destruct (GetBuffer w) as [b w1| |] eqn:Hget;
    [|unfold GetBuffer in Hget; by destruct (bufPool w)..].
  rewrite (bind_run _ _ _ _ _ Hget). rewrite Htest.
  apply (does_GetBuffer eq) in Hget as [Hc1 Hq1].
  destruct (PutBuffer b w1) as [[] w2| |] eqn:Hput; [|done..].
  unfold defer, bind at 1, panic. rewrite Hput.
  apply (does_PutBuffer eq) in Hput as [Hc2 Hq2].
  exists w2. split_and!; [done | lia | congruence].
Qed.

(** ** The output of WhereClause and SetParamNames *)

Lemma join_with_cons sep p ps :
  ps <> [] -> join_with sep (p :: ps) = p ++ sep ++ join_with sep ps.
Proof. by destruct ps. Qed.

Lemma WhereClause_loop_exact b start n i cols w c :
  world_ok w -> owns w b c -> i + llen cols = n ->
  exists w',
    WhereClause_loop b start n i cols w = Done tt w' /\
    world_ok w' /\
    owns w' b (c ++ join_with (bytes " AND ") (assignments wrap64 (start + i) cols)).
Proof.
  revert i w c. induction cols as [|col rest IH]; intros i w c Hok Hown Hn;
    cbn [WhereClause_loop assignments].
  { exists w. rewrite app_nil_r. by split_and!. }
  destruct (Buffer_Write_owned b (bytes (fmt_assign col (wrap64 (start + i)))) w _
              Hok Hown) as (w1 & Hrun1 & Hok1 & Hown1 & _).
  unfold Buffer_WriteString at 1. rewrite (bind_run _ _ _ _ _ Hrun1).
  unfold llen in Hn. cbn [length] in Hn.
  replace (start + i + 1) with (start + (i + 1)) by lia.
  destruct rest as [|col' rest'].
  - replace (i <? n - 1) with false by (symmetry; apply Z.ltb_ge; cbn in Hn; lia).
    rewrite bind_ret. cbn [WhereClause_loop assignments join_with].
    exists w1. by split_and!.
  - replace (i <? n - 1) with true
      by (symmetry; apply Z.ltb_lt; cbn [length] in Hn; lia).
    destruct (Buffer_Write_owned b (bytes " AND ") w1 _ Hok1 Hown1)
      as (w2 & Hrun2 & Hok2 & Hown2 & _).
    unfold Buffer_WriteString at 1. rewrite (bind_run _ _ _ _ _ Hrun2).
    destruct (IH (i + 1) w2 _ Hok2 Hown2) as (w3 & Hrun3 & Hok3 & Hown3).
    { unfold llen. lia. }
    exists w3. split; [done|]. split; [done|].
    rewrite join_with_cons by done. cbn [assignments] in *.
    by rewrite <- !app_assoc in Hown3.
Qed.

Lemma SetParamNames_loop_exact b n i cols w c :
  world_ok w -> owns w b c -> i + llen cols = n ->
  exists w',
    SetParamNames_loop b n i cols w = Done tt w' /\
    world_ok w' /\
    owns w' b (c ++ join_with (bytes ", ") (assignments id (i + 1) cols)).
Proof.
  revert i w c. induction cols as [|col rest IH]; intros i w c Hok Hown Hn;
    cbn [SetParamNames_loop assignments].
  { exists w. rewrite app_nil_r. by split_and!. }
  destruct (Buffer_Write_owned b (bytes (fmt_assign col (i + 1))) w _
              Hok Hown) as (w1 & Hrun1 & Hok1 & Hown1 & _).
  unfold Buffer_WriteString at 1. rewrite (bind_run _ _ _ _ _ Hrun1).
  unfold llen in Hn. cbn [length] in Hn.
  destruct rest as [|col' rest'].
  - replace (i <? n - 1) with false by (symmetry; apply Z.ltb_ge; cbn in Hn; lia).
    rewrite bind_ret. cbn [SetParamNames_loop assignments join_with].
    exists w1. by split_and!.
  - replace (i <? n - 1) with true
      by (symmetry; apply Z.ltb_lt; cbn [length] in Hn; lia).
    destruct (Buffer_Write_owned b (bytes ", ") w1 _ Hok1 Hown1)
      as (w2 & Hrun2 & Hok2 & Hown2 & _).
    unfold Buffer_WriteString at 1. rewrite (bind_run _ _ _ _ _ Hrun2).
    destruct (IH (i + 1) w2 _ Hok2 Hown2) as (w3 & Hrun3 & Hok3 & Hown3).
    { unfold llen. lia. }
    exists w3. split; [done|]. split; [done|].
    rewrite join_with_cons by done. cbn [assignments] in *.
    by rewrite <- !app_assoc in Hown3.
Qed.

(** A function that takes a buffer, fills it, reads it and puts it back. *)
Lemma scoped_buffer_run (body : nat -> M unit) (out : list ascii) w :
  world_ok w ->
  (forall b w1, world_ok w1 -> owns w1 b [] ->
     exists w2, body b w1 = Done tt w2 /\ world_ok w2 /\ owns w2 b out) ->
  exists w',
    (buf <- GetBuffer ;; defer (PutBuffer buf) (body buf ;; Buffer_String buf)) w
      = Done (str out) w' /\
    world_ok w'.
Proof.
  intros Hok Hbody.
  destruct (GetBuffer_owned w Hok) as (b & w1 & Hget & Hok1 & Hown1 & _).
  rewrite (bind_run _ _ _ _ _ Hget).
  destruct (Hbody b w1 Hok1 Hown1) as (w2 & Hrun2 & Hok2 & Hown2).
  destruct (Buffer_String_owned b w2 _ Hok2 Hown2) as (w3 & Hrun3 & Hok3 & Hown3 & _).
  destruct (PutBuffer_owned b w3 _ Hok3 Hown3) as (w4 & Hput & Hok4 & _).
  exists w4. split; [|done].
  eapply defer_run; [|done]. by rewrite (bind_run _ _ _ _ _ Hrun2).
Qed.

Lemma WhereClause_exact start cols w :
  world_ok w -> start <> 0 ->
  exists w',
    WhereClause start cols w
      = Done (str (join_with (bytes " AND ") (assignments wrap64 start cols))) w' /\
    world_ok w'.
Proof.
  intros Hok Hstart. unfold WhereClause.
  apply Z.eqb_neq in Hstart. rewrite Hstart, bind_ret.
  apply (scoped_buffer_run
           (fun buf => WhereClause_loop buf start (Z.of_nat (length cols)) 0 cols));
    [done|].
  intros b w1 Hok1 Hown1.
  destruct (WhereClause_loop_exact b start (llen cols) 0 cols w1 [] Hok1 Hown1)
    as (w2 & Hrun & Hok2 & Hown2); [lia|].
  exists w2. rewrite Z.add_0_r in Hown2. by split_and!.
Qed.

Lemma SetParamNames_exact cols w :
  world_ok w ->
  exists w',
    SetParamNames cols w
      = Done (str (join_with (bytes ", ") (assignments id 1 cols))) w' /\
    world_ok w'.
Proof.
  intros Hok. unfold SetParamNames.
  apply (scoped_buffer_run
           (fun buf => SetParamNames_loop buf (llen cols) 0 cols)); [done|].
  intros b w1 Hok1 Hown1.
  destruct (SetParamNames_loop_exact b (llen cols) 0 cols w1 [] Hok1 Hown1)
    as (w2 & Hrun & Hok2 & Hown2); [lia|].
  exists w2. by split_and!.
Qed.

(** For fewer than 2^63 columns the numbers of SetParamNames are those of
    WhereClause started at 1. *)
Lemma assignments_wrap64 k cols :
  0 <= k -> k + llen cols <= 2 ^ 63 ->
  assignments wrap64 k cols = assignments id k cols.
Proof.
  revert k. induction cols as [|c rest IH]; intros k Hk Hlen;
    cbn [assignments]; [done|].
  unfold llen in *. cbn [length] in Hlen.
  rewrite IH by lia. do 3 f_equal. unfold wrap64, id.
  rewrite Z.mod_small by lia. lia.
Qed.

(** ** The output of Placeholders *)

Lemma Placeholders_loop_exact fuel b count start group i w c :
  world_ok w -> owns w b c ->
  (Z.to_nat (count - i) < fuel)%nat ->
  exists w',
    Placeholders_loop fuel b count start group i w = Done tt w' /\
    world_ok w' /\
    owns w' b (c ++ placeholders_from (Z.to_nat (count - i)) start group i).
Proof.
  revert i w c. induction fuel as [|fuel IH]; intros i w c Hok Hown Hfuel; [lia|].
  cbn [Placeholders_loop].
  destruct (Z.ltb_spec i count) as [Hi|Hi].
  2:{ exists w. replace (Z.to_nat (count - i)) with 0%nat by lia.
      cbn [placeholders_from]. rewrite app_nil_r. by split_and!. }
  replace (Z.to_nat (count - i)) with (S (Z.to_nat (count - (i + 1)))) by lia.
  cbn [placeholders_from].
  assert (Hsep : exists w1,
    (if negb (i =? 0) then
       if (1 <? group) && (Z.rem i group =? 0)
       then Buffer_WriteString b "),("
       else Buffer_WriteByte b ","%char
     else ret tt) w = Done tt w1 /\
    world_ok w1 /\
    owns w1 b (c ++ (if i =? 0 then []
                     else if (1 <? group) && (Z.rem i group =? 0)
                          then bytes "),(" else bytes ","))).
  { destruct (i =? 0); cbn [negb].
    - exists w. rewrite app_nil_r. by split_and!.
    - destruct ((1 <? group) && (Z.rem i group =? 0)).
      + destruct (Buffer_Write_owned b (bytes "),(") w _ Hok Hown)
          as (w1 & Hrun1 & Hok1 & Hown1 & _). by exists w1.
      + destruct (Buffer_Write_owned b (bytes ",") w _ Hok Hown)
          as (w1 & Hrun1 & Hok1 & Hown1 & _). by exists w1. }
  destruct Hsep as (w1 & Hrun1 & Hok1 & Hown1).
  rewrite (bind_run _ _ _ _ _ Hrun1).
  destruct (Buffer_Write_owned b (bytes (fmt_dollar (wrap64 (start + i)))) w1 _ Hok1 Hown1)
    as (w2 & Hrun2 & Hok2 & Hown2 & _).
  unfold Buffer_WriteString at 1. rewrite (bind_run _ _ _ _ _ Hrun2).
  destruct (IH (i + 1) w2 _ Hok2 Hown2 ltac:(lia)) as (w3 & Hrun3 & Hok3 & Hown3).
  exists w3. split; [done|]. split; [done|].
  by rewrite <- !app_assoc in Hown3.
Qed.

Lemma chunks_fuel_enough {A} (f1 f2 n : nat) (l : list A) :
  (0 < n)%nat -> (length l <= f1)%nat -> (length l <= f2)%nat ->
  chunks_fuel f1 n l = chunks_fuel f2 n l.
Proof.
  intros Hn. revert f2 l. induction f1 as [|f1 IH]; intros f2 l H1 H2.
  - destruct l; [|cbn in H1; lia]. by destruct f2.
  - destruct l as [|x l]; [by destruct f2|].
    destruct f2 as [|f2]; [cbn in H2; lia|].
    cbn [chunks_fuel]. f_equal.
    apply IH; rewrite length_drop; cbn [length] in *; lia.
Qed.

Lemma chunks_cons {A} (n : nat) (x : A) (l : list A) :
  (0 < n)%nat ->
  chunks n (x :: l) = take n (x :: l) :: chunks n (drop n (x :: l)).
Proof.
  intros Hn. unfold chunks. cbn [length chunks_fuel]. f_equal.
  apply chunks_fuel_enough; [done | | done].
  rewrite length_drop. cbn [length]. lia.
Qed.

Lemma chunks_one {A} (n : nat) (l : list A) :
  l <> [] -> (length l <= n)%nat -> chunks n l = [l].
Proof.
  intros Hne Hlen. destruct l as [|x l]; [done|].
  rewrite chunks_cons by (cbn in Hlen; lia).
  rewrite take_ge, drop_ge by done. done.
Qed.

Lemma chunks_full {A} (n : nat) (cur l : list A) :
  cur <> [] -> length cur = n -> chunks n (cur ++ l) = cur :: chunks n l.
Proof.
  intros Hne Hlen. destruct cur as [|x cur]; [done|].
  change ((x :: cur) ++ l) with (x :: (cur ++ l)).
  rewrite chunks_cons by (rewrite <- Hlen; cbn; lia).
  change (x :: (cur ++ l)) with ((x :: cur) ++ l).
  by rewrite take_app_length', drop_app_length'.
Qed.

Lemma join_with_snoc sep cur x :
  cur <> [] -> join_with sep (cur ++ [x]) = join_with sep cur ++ sep ++ x.
Proof.
  intros Hne. induction cur as [|p ps IH]; [done|].
  destruct ps as [|p' ps'].
  - done.
  - change ((p :: p' :: ps') ++ [x]) with (p :: ((p' :: ps') ++ [x])).
    rewrite !join_with_cons by done. rewrite IH by done.
    by rewrite <- !app_assoc.
Qed.

(** Without groups the separator is always a comma. *)
Lemma placeholders_from_ungrouped k start group i cur :
  group <= 1 -> 0 < i -> cur <> [] ->
  join_with (bytes ",") (cur ++ placeholder_items k start i)
  = join_with (bytes ",") cur ++ placeholders_from k start group i.
Proof.
  intros Hg. revert i cur. induction k as [|k IH]; intros i cur Hi Hcur;
    cbn [placeholder_items placeholders_from].
  - by rewrite !app_nil_r.
  - replace (i =? 0) with false by (symmetry; apply Z.eqb_neq; lia).
    replace (1 <? group) with false by (symmetry; apply Z.ltb_ge; lia).
    cbn [andb].
    rewrite (cons_middle _ cur), app_assoc.
    rewrite IH by (try lia; by destruct cur).
    rewrite join_with_snoc by done. by rewrite <- !app_assoc.
Qed.

Lemma mod_pred_full g i : 1 < g -> i mod g = 0 -> (i - 1) mod g = g - 1.
Proof.
  intros Hg Hi. symmetry. apply (Z.mod_unique _ _ (i / g - 1)); [lia|].
  pose proof (Z.div_mod i g ltac:(lia)). lia.
Qed.

Lemma mod_pred_room g i :
  1 < g -> i mod g <> 0 -> (i - 1) mod g = i mod g - 1.
Proof.
  intros Hg Hi. symmetry. apply (Z.mod_unique _ _ (i / g)).
  - pose proof (Z.mod_pos_bound i g ltac:(lia)). lia.
  - pose proof (Z.div_mod i g ltac:(lia)). lia.
Qed.

(** With groups of [group] parameters the separators cut the list into
    chunks. *)
Lemma placeholders_from_grouped k start group i cur :
  1 < group -> 0 < i -> cur <> [] ->
  Z.of_nat (length cur) = (i - 1) mod group + 1 ->
  join_with (bytes "),(")
    (map (join_with (bytes ","))
         (chunks (Z.to_nat group) (cur ++ placeholder_items k start i)))
  = join_with (bytes ",") cur ++ placeholders_from k start group i.
Proof.
  intros Hg. revert i cur. induction k as [|k IH]; intros i cur Hi Hcur Hlen;
    cbn [placeholder_items placeholders_from].
  - rewrite !app_nil_r. rewrite chunks_one; [done | done |].
    pose proof (Z.mod_pos_bound (i - 1) group ltac:(lia)). lia.
  - replace (i =? 0) with false by (symmetry; apply Z.eqb_neq; lia).
    replace (1 <? group) with true by (symmetry; apply Z.ltb_lt; lia).
    cbn [andb]. rewrite Z.rem_mod_nonneg by lia.
    set (x := bytes (fmt_dollar (wrap64 (start + i)))).
    destruct (Z.eqb_spec (i mod group) 0) as [Hfull|Hroom].
    + (* the group is full: close it and open the next *)
      assert (length cur = Z.to_nat group) as Hcurlen.
      { rewrite mod_pred_full in Hlen by done. lia. }
      rewrite chunks_full by done. cbn [map].
      rewrite join_with_cons.
      2:{ rewrite chunks_cons by lia. done. }
      change (x :: placeholder_items k start (i + 1))
        with ([x] ++ placeholder_items k start (i + 1)).
      rewrite (IH (i + 1) [x]); [| lia | done |].
      * done.
      * cbn [length]. replace (i + 1 - 1) with i by lia. rewrite Hfull. lia.
    + (* room left in the group *)
      rewrite (cons_middle x cur), app_assoc.
      rewrite (IH (i + 1) (cur ++ [x])); [| lia | by destruct cur |].
      * rewrite join_with_snoc by done. by rewrite <- !app_assoc.
      * rewrite length_app. cbn [length]. replace (i + 1 - 1) with i by lia.
        rewrite mod_pred_room in Hlen by done. lia.
Qed.

Lemma Placeholders_exact count start group w :
  world_ok w -> start <> 0 -> group <> 0 ->
  exists w',
    Placeholders count start group w
      = Done (str (if 1 <? group
                   then bytes "(" ++
                        join_with (bytes "),(")
                          (map (join_with (bytes ","))
                               (chunks (Z.to_nat group)
                                  (placeholder_items (Z.to_nat count) start 0)))
                        ++ bytes ")"
                   else join_with (bytes ",")
                          (placeholder_items (Z.to_nat count) start 0))) w' /\
    world_ok w'.
Proof.
  intros Hok Hstart Hgroup. unfold Placeholders.
  apply Z.eqb_neq in Hstart, Hgroup. rewrite Hstart, Hgroup. cbn [orb].
  assert (Hbody : forall k,
    placeholders_from k start group 0
    = if 1 <? group
      then join_with (bytes "),(")
             (map (join_with (bytes ","))
                  (chunks (Z.to_nat group) (placeholder_items k start 0)))
      else join_with (bytes ",") (placeholder_items k start 0)).
  { intros [|k]; cbn [placeholders_from placeholder_items].
    - by destruct (1 <? group).
    - change (0 =? 0) with true. cbv iota. cbn [app].
      set (x := bytes (fmt_dollar (wrap64 (start + 0)))).
      change (x :: placeholder_items k start (0 + 1))
        with ([x] ++ placeholder_items k start (0 + 1)).
      destruct (Z.ltb_spec 1 group) as [Hg|Hg].
      + rewrite (placeholders_from_grouped k start group (0 + 1) [x]);
          [done | done | lia | done |].
        cbn [length]. rewrite Z.mod_0_l by lia. lia.
      + by rewrite (placeholders_from_ungrouped k start group (0 + 1) [x]). }
  destruct (GetBuffer_owned w Hok) as (b & w1 & Hget & Hok1 & Hown1 & _).
  rewrite (bind_run _ _ _ _ _ Hget).
  assert (Hparen : forall ch w c, world_ok w -> owns w b c ->
    exists w',
      (if 1 <? group then Buffer_WriteByte b ch else ret tt) w = Done tt w' /\
      world_ok w' /\ owns w' b (c ++ (if 1 <? group then [ch] else []))).
  { intros ch w0 c0 Hok0 Hown0. destruct (1 <? group).
    - destruct (Buffer_Write_owned b [ch] w0 _ Hok0 Hown0)
        as (w' & Hrun & Hok' & Hown' & _). by exists w'.
    - exists w0. rewrite app_nil_r. by split_and!. }
  destruct (Hparen "("%char w1 [] Hok1 Hown1) as (w2 & Hrun2 & Hok2 & Hown2).
  destruct (Placeholders_loop_exact (S (Z.to_nat count)) b count start group 0
              w2 _ Hok2 Hown2 ltac:(lia)) as (w3 & Hrun3 & Hok3 & Hown3).
  destruct (Hparen ")"%char w3 _ Hok3 Hown3) as (w4 & Hrun4 & Hok4 & Hown4).
  destruct (Buffer_String_owned b w4 _ Hok4 Hown4)
    as (w5 & Hrun5 & Hok5 & Hown5 & _).
  destruct (PutBuffer_owned b w5 _ Hok5 Hown5) as (w6 & Hput & Hok6 & _).
  exists w6. split; [|done].
  eapply defer_run; [|done].
  rewrite bind_ret, (bind_run _ _ _ _ _ Hrun2), (bind_run _ _ _ _ _ Hrun3),
    (bind_run _ _ _ _ _ Hrun4), Hrun5.
  do 2 f_equal. rewrite Z.sub_0_r, Hbody. cbn [app].
  destruct (1 <? group); [by rewrite <- app_assoc | by rewrite app_nil_r].
Qed.

(** ** StringMap, PrefixStringSlice and JoinSlices *)

Lemma set_index_next {A} (done_ rest : list A) (x v : A) w :
  set_index (done_ ++ x :: rest) (Z.of_nat (length done_)) v w
  = Done ((done_ ++ [v]) ++ rest) w.
Proof.
  unfold set_index, llen.
  replace (0 <=? Z.of_nat (length done_)) with true
    by (symmetry; apply Z.leb_le; lia).
  replace (Z.of_nat (length done_) <? Z.of_nat (length (done_ ++ x :: rest)))
    with true by (symmetry; apply Z.ltb_lt; rewrite length_app; cbn; lia).
  cbn [andb]. rewrite Nat2Z.id.
  replace (length done_) with (length done_ + 0)%nat at 1 by lia.
  rewrite insert_app_r. cbn. by rewrite <- app_assoc.
Qed.

Lemma StringMap_loop_run (P : World -> Prop) (f : string -> string)
    (modifier : string -> M string) strs done_ w :
  (forall s w, P w -> exists w', modifier s w = Done (f s) w' /\ P w') ->
  P w ->
  exists w',
    StringMap_loop modifier (done_ ++ make_strings (length strs))
      (Z.of_nat (length done_)) strs w
      = Done (done_ ++ map f strs) w' /\ P w'.
Proof.
  intros Hmod. revert done_ w. induction strs as [|s rest IH]; intros done_ w HP;
    cbn [StringMap_loop map length make_strings replicate].
  - by exists w.
  - destruct (Hmod s w HP) as (w1 & Hrun1 & HP1).
    rewrite (bind_run _ _ _ _ _ Hrun1).
    rewrite (bind_run _ _ _ _ _ (set_index_next _ _ _ _ w1)).
    replace (Z.of_nat (length done_) + 1) with (Z.of_nat (length (done_ ++ [f s])))
      by (rewrite length_app; cbn; lia).
    destruct (IH (done_ ++ [f s]) w1 HP1) as (w2 & Hrun2 & HP2).
    exists w2. split; [|done]. unfold make_strings in Hrun2.
    rewrite Hrun2. by rewrite <- app_assoc.
Qed.

Lemma StringMap_run (P : World -> Prop) (f : string -> string)
    (modifier : string -> M string) strs w :
  (forall s w, P w -> exists w', modifier s w = Done (f s) w' /\ P w') ->
  P w ->
  exists w', StringMap modifier strs w = Done (map f strs) w' /\ P w'.
Proof.
  intros Hmod HP. unfold StringMap.
  apply (StringMap_loop_run P f modifier strs [] w Hmod HP).
Qed.

Lemma PrefixStringSlice_loop_run prefix strs done_ w :
  PrefixStringSlice_loop prefix (done_ ++ make_strings (length strs))
    (Z.of_nat (length done_)) strs w
  = Done (done_ ++ map (fun s => prefix +:+ s) strs) w.
Proof.
  revert done_. induction strs as [|s rest IH]; intros done_;
    cbn [PrefixStringSlice_loop map length make_strings replicate].
  - done.
  - rewrite (bind_run _ _ _ _ _ (set_index_next _ _ _ _ w)).
    replace (Z.of_nat (length done_) + 1)
      with (Z.of_nat (length (done_ ++ [prefix +:+ s])))
      by (rewrite length_app; cbn; lia).
    unfold make_strings in IH. rewrite IH. by rewrite <- app_assoc.
Qed.

Lemma at_index_nat {A} (s : list A) (i : nat) x w :
  s !! i = Some x -> at_index s (Z.of_nat i) w = Done x w.
Proof.
  intros H. unfold at_index.
  replace (0 <=? Z.of_nat i) with true by (symmetry; apply Z.leb_le; lia).
  by rewrite Nat2Z.id, H.
Qed.

Lemma JoinSlices_loop_run sep b a done_ bdone brest w :
  b = bdone ++ brest -> length bdone = length done_ -> length brest = length a ->
  JoinSlices_loop sep b (done_ ++ make_strings (length a))
    (Z.of_nat (length done_)) a w
  = Done (done_ ++ zip_with (fun x y => x +:+ sep +:+ y) a brest) w.
Proof.
  revert done_ bdone brest. induction a as [|elem rest IH];
    intros done_ bdone brest Hb Hlen1 Hlen2;
    cbn [JoinSlices_loop length make_strings replicate].
  - destruct brest; [|done]. cbn. by rewrite app_nil_r.
  - destruct brest as [|bi brest]; [done|]. cbn [zip_with].
    assert (Hbi : b !! length done_ = Some bi).
    { rewrite Hb, <- Hlen1. by rewrite list_lookup_middle. }
    rewrite (bind_run _ _ _ _ _ (at_index_nat _ _ _ w Hbi)).
    rewrite (bind_run _ _ _ _ _ (set_index_next _ _ _ _ w)).
    replace (Z.of_nat (length done_) + 1)
      with (Z.of_nat (length (done_ ++ [elem +:+ sep +:+ bi])))
      by (rewrite length_app; cbn; lia).
    unfold make_strings in IH.
    rewrite (IH _ (bdone ++ [bi]) brest).
    + by rewrite <- app_assoc.
    + by rewrite Hb, <- app_assoc.
    + rewrite !length_app. cbn. lia.
    + cbn in Hlen2. lia.
Qed.

(** ** StringSliceMatch and ContainsAny *)

Lemma StringSliceMatch_inner_spec aval b :
  StringSliceMatch_inner aval false b = true <-> aval ∈ b.
Proof.
  induction b as [|bval rest IH]; cbn [StringSliceMatch_inner].
  - split; [done | by intros ?%elem_of_nil].
  - destruct (String.eqb_spec bval aval) as [->|Hne].
    + split; [intros _; by left | done].
    + rewrite IH, elem_of_cons. split; [by right | intros [?|?]; [congruence | done]].
Qed.

Lemma StringSliceMatch_outer_spec b a :
  StringSliceMatch_outer b a = true <-> a ⊆ b.
Proof.
  induction a as [|aval rest IH]; cbn [StringSliceMatch_outer].
  - split; [intros _ x ?%elem_of_nil; done | done].
  - destruct (StringSliceMatch_inner aval false b) eqn:Hin; cbn [negb].
    + apply StringSliceMatch_inner_spec in Hin. rewrite IH. split.
      * intros Hsub x [->|Hx]%elem_of_cons; [done | by apply Hsub].
      * intros Hsub x Hx. apply Hsub. by right.
    + split; [done|]. intros Hsub.
      assert (aval ∈ b) as Hab by (apply Hsub; by left).
      apply StringSliceMatch_inner_spec in Hab. congruence.
Qed.

Lemma StringSliceMatch_spec a b :
  StringSliceMatch a b = true <-> length a = length b /\ a ⊆ b.
Proof.
  unfold StringSliceMatch, llen.
  destruct (Z.eqb_spec (Z.of_nat (length a)) (Z.of_nat (length b))) as [Hlen|Hlen];
    cbn [negb].
  - rewrite StringSliceMatch_outer_spec. split; [|by intros [_ ?]].
    intros Hsub. split; [lia | done].
  - split; [done|]. intros [Hlen' _]. lia.
Qed.

Lemma ContainsAny_inner_spec s finds :
  ContainsAny_inner s finds = true <-> s ∈ finds.
Proof.
  induction finds as [|find rest IH]; cbn [ContainsAny_inner].
  - split; [done | by intros ?%elem_of_nil].
  - destruct (String.eqb_spec s find) as [->|Hne].
    + split; [intros _; by left | done].
    + rewrite IH, elem_of_cons. split; [by right | intros [?|?]; [congruence | done]].
Qed.

Lemma ContainsAny_spec a finds :
  ContainsAny a finds = true <-> exists x, x ∈ a /\ x ∈ finds.
Proof.
  induction a as [|s rest IH]; cbn [ContainsAny].
  - split; [done | by intros (x & ?%elem_of_nil & _)].
  - destruct (ContainsAny_inner s finds) eqn:Hin.
    + apply ContainsAny_inner_spec in Hin. split; [|done].
      intros _. exists s. split; [by left | done].
    + rewrite IH. split.
      * intros (x & Hx & Hf). exists x. split; [by right | done].
      * intros (x & [->|Hx]%elem_of_cons & Hf).
        -- apply ContainsAny_inner_spec in Hf. congruence.
        -- by exists x.
Qed.

(** ** Plural and Singular *)

Lemma inflect_last_not_nil rule parts : parts <> [] -> inflect_last rule parts <> [].
Proof. destruct parts as [|p [|q ps]]; done. Qed.

Lemma inflect_last_snoc rule l x :
  inflect_last rule (l ++ [x]) = map bytes l ++ [bytes (rule x)].
Proof.
  induction l as [|p ps IH]; [done|].
  change ((p :: ps) ++ [x]) with (p :: (ps ++ [x])).
  cbn [inflect_last map app]. rewrite <- IH. by destruct ps.
Qed.

Lemma inflect_loop_exact fuel rule b splits done_ rest w c :
  world_ok w -> owns w b c ->
  splits = done_ ++ rest -> rest <> [] -> (length rest < fuel)%nat ->
  exists w',
    inflect_loop fuel rule b splits (Z.of_nat (length done_)) w = Done tt w' /\
    world_ok w' /\
    owns w' b (c ++ (if decide (done_ = []) then [] else [underscore])
                 ++ Spec.join underscore (inflect_last rule rest)).
Proof.
  revert done_ rest w c. induction fuel as [|fuel IH];
    intros done_ rest w c Hok Hown Hsplits Hrest Hfuel; [lia|].
  cbn [inflect_loop]. destruct rest as [|x rest]; [done|].
  assert (Hlen : llen splits = Z.of_nat (length done_) + 1 + Z.of_nat (length rest)).
  { unfold llen. rewrite Hsplits, length_app. cbn [length]. lia. }
  replace (Z.of_nat (length done_) <? llen splits) with true
    by (symmetry; apply Z.ltb_lt; lia).
  assert (Hsep : exists w1,
    (if negb (Z.of_nat (length done_) =? 0)
     then Buffer_WriteByte b underscore else ret tt) w = Done tt w1 /\
    world_ok w1 /\
    owns w1 b (c ++ (if decide (done_ = []) then [] else [underscore]))).
  { destruct done_ as [|d ds]; cbn [length].
    - exists w. rewrite decide_True by done. rewrite app_nil_r. by split_and!.
    - rewrite decide_False by done.
      replace (Z.of_nat (S (length ds)) =? 0) with false
        by (symmetry; apply Z.eqb_neq; lia).
      destruct (Buffer_Write_owned b [underscore] w _ Hok Hown)
        as (w1 & Hrun1 & Hok1 & Hown1 & _). by exists w1. }
  destruct Hsep as (w1 & Hrun1 & Hok1 & Hown1).
  rewrite (bind_run _ _ _ _ _ Hrun1).
  assert (Hx : splits !! length done_ = Some x).
  { rewrite Hsplits. by rewrite list_lookup_middle. }
  destruct rest as [|y rest].
  - (* the last component *)
    cbn [length] in Hlen.
    replace (Z.of_nat (length done_) =? llen splits - 1) with true
      by (symmetry; apply Z.eqb_eq; lia).
    replace (llen splits - 1) with (Z.of_nat (length done_)) by lia.
    rewrite (bind_run _ _ _ _ _ (at_index_nat _ _ _ w1 Hx)).
    destruct (Buffer_Write_owned b (bytes (rule x)) w1 _ Hok1 Hown1)
      as (w2 & Hrun2 & Hok2 & Hown2 & _).
    exists w2. split; [done|]. split; [done|].
    cbn [inflect_last Spec.join]. by rewrite <- app_assoc in Hown2.
  - cbn [length] in Hlen.
    replace (Z.of_nat (length done_) =? llen splits - 1) with false
      by (symmetry; apply Z.eqb_neq; lia).
    rewrite (bind_run _ _ _ _ _ (at_index_nat _ _ _ w1 Hx)).
    destruct (Buffer_Write_owned b (bytes x) w1 _ Hok1 Hown1)
      as (w2 & Hrun2 & Hok2 & Hown2 & _).
    unfold Buffer_WriteString at 1. rewrite (bind_run _ _ _ _ _ Hrun2).
    replace (Z.of_nat (length done_) + 1) with (Z.of_nat (length (done_ ++ [x])))
      by (rewrite length_app; cbn; lia).
    destruct (IH (done_ ++ [x]) (y :: rest) w2 _ Hok2 Hown2)
      as (w3 & Hrun3 & Hok3 & Hown3);
      [by rewrite Hsplits, <- app_assoc | done | cbn [length] in *; lia |].
    exists w3. split; [done|]. split; [done|].
    rewrite (decide_False (P := done_ ++ [x] = [])) in Hown3
      by (by intros [_ ?]%app_eq_nil).
    change (inflect_last rule (x :: y :: rest))
      with (bytes x :: inflect_last rule (y :: rest)).
    rewrite join_cons by (by apply inflect_last_not_nil).
    rewrite <- !app_assoc in Hown3. cbn [app] in Hown3.
    done.
Qed.

Lemma inflect_exact rule name w :
  world_ok w ->
  exists w',
    (buf <- GetBuffer ;;
     defer (PutBuffer buf)
       (let splits := Split name underscore in
        inflect_loop (S (length splits)) rule buf splits 0 ;;
        Buffer_String buf)) w
      = Done (str (Spec.join underscore
                     (inflect_last rule (Split name underscore)))) w' /\
    world_ok w'.
Proof.
  intros Hok. cbv zeta.
  apply (scoped_buffer_run
    (fun buf => inflect_loop (S (length (Split name underscore))) rule buf
                  (Split name underscore) 0)); [done|].
  intros b w1 Hok1 Hown1.
  destruct (inflect_loop_exact (S (length (Split name underscore))) rule b
              (Split name underscore) [] (Split name underscore) w1 [] Hok1 Hown1)
    as (w2 & Hrun & Hok2 & Hown2); [done | | lia |].
  { unfold Split. intros H. apply map_eq_nil in H. by apply split_on_not_nil in H. }
  exists w2. by split_and!.
Qed.

Lemma inflect_last_component rule prefix word :
  Forall (fun c => c <> underscore) (bytes word) ->
  str (Spec.join underscore (inflect_last rule (Split word underscore)))
    = rule word /\
  str (Spec.join underscore
         (inflect_last rule (Split (prefix +:+ "_" +:+ word) underscore)))
    = prefix +:+ "_" +:+ rule word.
Proof.
  intros Hfree. unfold Split. split.
  - rewrite split_on_no_sep by done. cbn [map inflect_last Spec.join].
    by rewrite !str_bytes.
  - rewrite !bytes_app. cbn [bytes list_ascii_of_string app].
    change "_"%char with underscore.
    rewrite split_on_app, (split_on_no_sep _ (bytes word)) by done.
    rewrite map_app. cbn [map]. rewrite inflect_last_snoc.
    rewrite map_map. rewrite (map_ext _ id) by (intros; apply bytes_str).
    rewrite map_id, str_bytes.
    rewrite join_app by (try done; apply split_on_not_nil).
    rewrite join_split_on. cbn [Spec.join].
    rewrite str_app. cbn [str string_of_list_ascii]. by rewrite !str_bytes.
Qed.

(** * Further properties, stated *)

(** X1. TitleCase drops every underscore and nothing else: its result has no
    underscore and as many bytes as its input has bytes other than
    underscores. *)
Theorem TitleCase_drops_underscores (n : string) (w : World) :
  world_ok w ->
  exists r w',
    TitleCase n w = Done r w' /\
    Forall (fun c => c <> underscore) (bytes r) /\
    length (bytes r) = length (filter (fun c => c <> underscore) (bytes n)).
Proof.
  intros Hok. destruct (TitleCase_run n w Hok) as (w' & Hrun & _).
  exists (Spec.TitleCase n), w'. split; [done|].
  unfold Spec.TitleCase. rewrite bytes_str.
  split; [apply rendered_words_no_underscore | apply rendered_words_length].
Qed.

Lemma TitleCase_drops_underscores_witness :
  exists r w',
    TitleCase "__fun____id_" init_world = Done r w' /\
    Forall (fun c => c <> underscore) (bytes r) /\
    length (bytes r)
    = length (filter (fun c => c <> underscore) (bytes "__fun____id_")).
Proof. exact (TitleCase_drops_underscores "__fun____id_" init_world init_world_ok). Defined.

(** X2. TitleCase works word by word: the TitleCase of two names joined by an
    underscore is the TitleCase of the first followed by the TitleCase of the
    second. *)
Theorem TitleCase_of_joined_names (a b : string) (w : World) :
  world_ok w ->
  exists ra rb w1 w2 w3,
    TitleCase a w = Done ra w1 /\
    TitleCase b w1 = Done rb w2 /\
    TitleCase (a +:+ "_" +:+ b) w2 = Done (ra +:+ rb) w3.
Proof.
  intros Hok.
  destruct (TitleCase_run a w Hok) as (w1 & Hrun1 & Hok1 & _).
  destruct (TitleCase_run b w1 Hok1) as (w2 & Hrun2 & Hok2 & _).
  destruct (TitleCase_run (a +:+ "_" +:+ b) w2 Hok2) as (w3 & Hrun3 & _).
  exists (Spec.TitleCase a), (Spec.TitleCase b), w1, w2, w3.
  by rewrite <- Spec_TitleCase_app.
Qed.

Lemma TitleCase_of_joined_names_witness :
  exists ra rb w1 w2 w3,
    TitleCase "thing_guid" init_world = Done ra w1 /\
    TitleCase "_zxc9_" w1 = Done rb w2 /\
    TitleCase ("thing_guid" +:+ "_" +:+ "_zxc9_") w2 = Done (ra +:+ rb) w3.
Proof.
  exact (TitleCase_of_joined_names "thing_guid" "_zxc9_" init_world init_world_ok).
Defined.

(** X3. A name without ASCII lowercase letters comes back from TitleCase
    with its underscores dropped and nothing else changed. *)
Theorem TitleCase_keeps_uppercase_names (n : string) (w : World) :
  world_ok w ->
  Forall (fun c => Spec.is_lower c = false) (bytes n) ->
  exists w',
    TitleCase n w
      = Done (str (filter (fun c => c <> underscore) (bytes n))) w'.
Proof.
  intros Hok Hup. destruct (TitleCase_run n w Hok) as (w' & Hrun & _).
  exists w'. rewrite Hrun. unfold Spec.TitleCase.
  by rewrite rendered_words_no_lower.
Qed.

Lemma TitleCase_keeps_uppercase_names_witness :
  exists w',
    TitleCase "ID_9A__*" init_world
      = Done (str (filter (fun c => c <> underscore) (bytes "ID_9A__*"))) w'.
Proof.
  apply (TitleCase_keeps_uppercase_names "ID_9A__*" init_world init_world_ok).
  by repeat constructor.
Defined.

(** X4. The result of CamelCase never has an underscore. *)
Theorem CamelCase_has_no_underscore (name : string) (w : World) :
  world_ok w ->
  exists r w',
    CamelCase name w = Done r w' /\
    Forall (fun c => c <> underscore) (bytes r).
Proof.
  intros Hok. destruct (CamelCase_run name w Hok) as (w' & Hrun & _).
  exists (Spec.CamelCase name), w'. split; [done|].
  apply Spec_CamelCase_no_underscore.
Qed.

Lemma CamelCase_has_no_underscore_witness :
  exists r w',
    CamelCase "__var__name_id_" init_world = Done r w' /\
    Forall (fun c => c <> underscore) (bytes r).
Proof. exact (CamelCase_has_no_underscore "__var__name_id_" init_world init_world_ok). Defined.

(** X5. TitleCaseIdentifier works component by component: on two
    identifiers joined by a dot it returns its results on the two, joined by a
    dot. *)
Theorem TitleCaseIdentifier_of_joined (a b : string) (w : World) :
  world_ok w ->
  exists ra rb w1 w2 w3,
    TitleCaseIdentifier a w = Done ra w1 /\
    TitleCaseIdentifier b w1 = Done rb w2 /\
    TitleCaseIdentifier (a +:+ "." +:+ b) w2 = Done (ra +:+ "." +:+ rb) w3.
Proof.
  intros Hok.
  destruct (TitleCaseIdentifier_run a w Hok) as (w1 & Hrun1 & Hok1 & _).
  destruct (TitleCaseIdentifier_run b w1 Hok1) as (w2 & Hrun2 & Hok2 & _).
  destruct (TitleCaseIdentifier_run (a +:+ "." +:+ b) w2 Hok2) as (w3 & Hrun3 & _).
  exists (Spec.TitleCaseIdentifier a), (Spec.TitleCaseIdentifier b), w1, w2, w3.
  by rewrite <- Spec_TitleCaseIdentifier_app.
Qed.

Lemma TitleCaseIdentifier_of_joined_witness :
  exists ra rb w1 w2 w3,
    TitleCaseIdentifier "my_schema.a_table" init_world = Done ra w1 /\
    TitleCaseIdentifier "col_id" w1 = Done rb w2 /\
    TitleCaseIdentifier ("my_schema.a_table" +:+ "." +:+ "col_id") w2
      = Done (ra +:+ "." +:+ rb) w3.
Proof.
  exact (TitleCaseIdentifier_of_joined "my_schema.a_table" "col_id"
           init_world init_world_ok).
Defined.

(** X6. A call that returns never removes or changes an entry of the cache.
    TitleCase(n) leaves its result under the key n and touches no other key;
    Placeholders and WhereClause leave the cache as it is. *)
Theorem calls_only_add_to_cache (c : Call) (w : World) (r : string) (w' : World) :
  run_call c w = Done r w' ->
  titleCaseCache w ⊆ titleCaseCache w' /\
  match c with
  | CallTitleCase n =>
      titleCaseCache w' !! n = Some r /\
      forall k, k <> n -> titleCaseCache w' !! k = titleCaseCache w !! k
  | CallPlaceholders _ _ _ | CallWhereClause _ _ =>
      titleCaseCache w' = titleCaseCache w
  | _ => True
  end.
Proof.
  intros Hrun. split; [by apply (does_run_call c w r w')|].
  destruct c; cbn [run_call] in Hrun; try done.
  - by destruct (TitleCase_effect _ _ _ _ Hrun) as (_ & _ & Hn & Hk).
  - by destruct (does_Placeholders eq _ _ _ _ _ _ Hrun).
  - by destruct (does_WhereClause eq _ _ _ _ _ Hrun).
Qed.

Lemma calls_only_add_to_cache_witness :
  let w := world_after (CallTitleCase "fun_id") init_world in
  let w' := world_after (CallTitleCase "a_b") w in
  titleCaseCache w ⊆ titleCaseCache w' /\
  (titleCaseCache w' !! "a_b" = Some "AB" /\
   forall k, k <> "a_b" -> titleCaseCache w' !! k = titleCaseCache w !! k).
Proof.
  apply (calls_only_add_to_cache (CallTitleCase "a_b")).
  vm_compute. reflexivity.
Defined.

(** X7. A call that returns leaves as many buffers outside the pool as it
    found: every buffer it took is back.  Placeholders puts its buffer back
    also when it panics on a zero start or group. *)
Theorem calls_return_their_buffers (c : Call) (w : World) (r : string) (w' : World) :
  run_call c w = Done r w' ->
  outstanding w' = outstanding w /\
  (forall rs name w0 r0 w1,
     Plural rs name w0 = Done r0 w1 \/ Singular rs name w0 = Done r0 w1 ->
     outstanding w1 = outstanding w0) /\
  (forall columns w0 r0 w1,
     SetParamNames columns w0 = Done r0 w1 -> outstanding w1 = outstanding w0) /\
  (forall count start group w0,
     start = 0 \/ group = 0 ->
     exists w1,
       Placeholders count start group w0
         = Panic "Invalid start or group numbers supplied." w1 /\
       outstanding w1 = outstanding w0).
Proof.
  intros Hrun. split_and!.
  - destruct (does_run_call c w r w' Hrun) as [_ Hq]. lia.
  - intros rs name w0 r0 w1 [H|H].
    + destruct (does_Plural eq _ _ _ _ _ H) as [_ Hq]. lia.
    + destruct (does_Singular eq _ _ _ _ _ H) as [_ Hq]. lia.
  - intros columns w0 r0 w1 H.
    destruct (does_SetParamNames eq _ _ _ _ H) as [_ Hq]. lia.
  - intros count start group w0 Hzero.
    destruct (Placeholders_panic_balanced count start group w0 Hzero)
      as (w1 & Hp & Hq & _). by exists w1.
Qed.

Lemma calls_return_their_buffers_witness :
  let w := world_after (CallTitleCase "fun_id") init_world in
  let w' := world_after (CallCamelCase "var_name_id") w in
  outstanding w' = outstanding w /\
  (forall rs name w0 r0 w1,
     Plural rs name w0 = Done r0 w1 \/ Singular rs name w0 = Done r0 w1 ->
     outstanding w1 = outstanding w0) /\
  (forall columns w0 r0 w1,
     SetParamNames columns w0 = Done r0 w1 -> outstanding w1 = outstanding w0) /\
  (forall count start group w0,
     start = 0 \/ group = 0 ->
     exists w1,
       Placeholders count start group w0
         = Panic "Invalid start or group numbers supplied." w1 /\
       outstanding w1 = outstanding w0).
Proof.
  apply (calls_return_their_buffers (CallCamelCase "var_name_id") _ "varNameID").
  vm_compute. reflexivity.
Defined.

(** X8. For a start other than 0, WhereClause returns the assignments
    "col"=$k of its columns, numbered from start on (as a 64 bit int), joined
    by " AND ", with no separator before the first or after the last; for no
    column that is the empty string. *)
Theorem WhereClause_output (start : Z) (cols : list string) (w : World) :
  world_ok w -> start <> 0 ->
  exists w',
    WhereClause start cols w
      = Done (str (join_with (bytes " AND ") (assignments wrap64 start cols))) w' /\
    world_ok w'.
Proof. apply WhereClause_exact. Qed.

Lemma WhereClause_output_witness :
  exists w',
    WhereClause 2 ["colthing"; "colstuff"] init_world
      = Done (str (join_with (bytes " AND ")
                     (assignments wrap64 2 ["colthing"; "colstuff"]))) w' /\
    world_ok w'.
Proof.
  apply (WhereClause_output 2 ["colthing"; "colstuff"] init_world init_world_ok).
  lia.
Defined.

(** X9. SetParamNames never panics: it returns the assignments "col"=$k of
    its columns, numbered from 1, joined by ", ".  For fewer than 2^63
    columns these are the assignments WhereClause makes when started at 1. *)
Theorem SetParamNames_output (columns : list string) (w : World) :
  world_ok w ->
  exists w',
    SetParamNames columns w
      = Done (str (join_with (bytes ", ") (assignments id 1 columns))) w' /\
    world_ok w' /\
    (1 + llen columns <= 2 ^ 63 ->
     assignments id 1 columns = assignments wrap64 1 columns).
Proof.
  intros Hok. destruct (SetParamNames_exact columns w Hok) as (w' & Hrun & Hok').
  exists w'. split_and!; try done.
  intros Hlen. symmetry. by apply assignments_wrap64.
Qed.

Lemma SetParamNames_output_witness :
  exists w',
    SetParamNames ["col1"; "col2"; "col3"] init_world
      = Done (str (join_with (bytes ", ")
                     (assignments id 1 ["col1"; "col2"; "col3"]))) w' /\
    world_ok w' /\
    (1 + llen ["col1"; "col2"; "col3"] <= 2 ^ 63 ->
     assignments id 1 ["col1"; "col2"; "col3"]
     = assignments wrap64 1 ["col1"; "col2"; "col3"]).
Proof. exact (SetParamNames_output ["col1"; "col2"; "col3"] init_world init_world_ok). Defined.

(** X10. For start and group other than 0, Placeholders returns the
    placeholders $start, $start+1, ... of count parameters: with a group
    greater than 1, cut into groups of that many, each group joined by ","
    and parenthesised, the groups joined by ","; with any other group, joined
    by "," with no parentheses.  With a count of 0 or less that is "()" with
    groups and the empty string without. *)
Theorem Placeholders_output (count start group : Z) (w : World) :
  world_ok w -> start <> 0 -> group <> 0 ->
  exists w',
    Placeholders count start group w
      = Done (str (if 1 <? group
                   then bytes "(" ++
                        join_with (bytes "),(")
                          (map (join_with (bytes ","))
                               (chunks (Z.to_nat group)
                                  (placeholder_items (Z.to_nat count) start 0)))
                        ++ bytes ")"
                   else join_with (bytes ",")
                          (placeholder_items (Z.to_nat count) start 0))) w' /\
    (count <= 0 ->
     placeholder_items (Z.to_nat count) start 0 = [] /\
     chunks (Z.to_nat group) (placeholder_items (Z.to_nat count) start 0) = []).
Proof.
  intros Hok Hstart Hgroup.
  destruct (Placeholders_exact count start group w Hok Hstart Hgroup)
    as (w' & Hrun & _).
  exists w'. split; [done|]. intros Hcount.
  by replace (Z.to_nat count) with 0%nat by lia.
Qed.

Lemma Placeholders_output_witness :
  exists w',
    Placeholders 7 1 3 init_world
      = Done (str (if 1 <? 3
                   then bytes "(" ++
                        join_with (bytes "),(")
                          (map (join_with (bytes ","))
                               (chunks (Z.to_nat 3)
                                  (placeholder_items (Z.to_nat 7) 1 0)))
                        ++ bytes ")"
                   else join_with (bytes ",")
                          (placeholder_items (Z.to_nat 7) 1 0))) w' /\
    (7 <= 0 ->
     placeholder_items (Z.to_nat 7) 1 0 = [] /\
     chunks (Z.to_nat 3) (placeholder_items (Z.to_nat 7) 1 0) = []).
Proof.
  apply (Placeholders_output 7 1 3 init_world init_world_ok); lia.
Defined.

(** X11. JoinSlices panics exactly when its two slices differ in length, and
    leaves the world alone; on slices of one length it returns, element by
    element, the element of the first, the separator and the element of the
    second, and reads no index out of range. *)
Theorem JoinSlices_zips (sep : string) (a b : list string) (w : World) :
  (length a <> length b ->
   JoinSlices sep a b w
     = Panic "joinSlices: can only merge slices of same length" w) /\
  (length a = length b ->
   JoinSlices sep a b w
     = Done (zip_with (fun x y => x +:+ sep +:+ y) a b) w).
Proof.
  unfold JoinSlices, llen. split; intros Hlen.
  - by replace (Z.of_nat (length a) =? Z.of_nat (length b)) with false
      by (symmetry; apply Z.eqb_neq; lia).
  - replace (Z.of_nat (length a) =? Z.of_nat (length b)) with true
      by (symmetry; apply Z.eqb_eq; lia).
    cbn [negb]. destruct a as [|x a].
    + by destruct b.
    + replace (Z.of_nat (length (x :: a)) =? 0) with false
        by (symmetry; apply Z.eqb_neq; cbn [length]; lia).
      apply (JoinSlices_loop_run sep b (x :: a) [] [] b w); done.
Qed.

(** X12. StringMap returns a slice as long as its input whose i-th element
    is the modifier applied to the i-th input, the modifier being called on
    the elements in order; no index is out of range.  With TitleCase,
    CamelCase or TitleCaseIdentifier as the modifier each element is the
    function's result on the corresponding input. *)
Theorem StringMap_maps (strs : list string) (w : World) :
  world_ok w ->
  (exists w', StringMap TitleCase strs w = Done (map Spec.TitleCase strs) w') /\
  (exists w', StringMap CamelCase strs w = Done (map Spec.CamelCase strs) w') /\
  (exists w', StringMap TitleCaseIdentifier strs w
              = Done (map Spec.TitleCaseIdentifier strs) w') /\
  (forall f : string -> string,
     StringMap (fun s => ret (f s)) strs w = Done (map f strs) w).
Proof.
  intros Hok. split_and!.
  - destruct (StringMap_run world_ok Spec.TitleCase TitleCase strs w) as (w' & H & _);
      [|done|by exists w'].
    intros s w0 H0. destruct (TitleCase_run s w0 H0) as (w1 & ? & ? & _). by exists w1.
  - destruct (StringMap_run world_ok Spec.CamelCase CamelCase strs w) as (w' & H & _);
      [|done|by exists w'].
    intros s w0 H0. destruct (CamelCase_run s w0 H0) as (w1 & ? & ? & _). by exists w1.
  - destruct (StringMap_run world_ok Spec.TitleCaseIdentifier TitleCaseIdentifier
                strs w) as (w' & H & _); [|done|by exists w'].
    intros s w0 H0.
    destruct (TitleCaseIdentifier_run s w0 H0) as (w1 & ? & ? & _). by exists w1.
  - intros f.
    destruct (StringMap_run (fun w0 => w0 = w) f (fun s => ret (f s)) strs w)
      as (w' & H & ->); [|done|done].
    intros s w0 ->. by exists w.
Qed.

Lemma StringMap_maps_witness :
  (exists w', StringMap TitleCase ["a_b"; "id"; "a_b"] init_world
              = Done (map Spec.TitleCase ["a_b"; "id"; "a_b"]) w') /\
  (exists w', StringMap CamelCase ["a_b"; "id"; "a_b"] init_world
              = Done (map Spec.CamelCase ["a_b"; "id"; "a_b"]) w') /\
  (exists w', StringMap TitleCaseIdentifier ["a_b"; "id"; "a_b"] init_world
              = Done (map Spec.TitleCaseIdentifier ["a_b"; "id"; "a_b"]) w') /\
  (forall f : string -> string,
     StringMap (fun s => ret (f s)) ["a_b"; "id"; "a_b"] init_world
     = Done (map f ["a_b"; "id"; "a_b"]) init_world).
Proof. exact (StringMap_maps ["a_b"; "id"; "a_b"] init_world init_world_ok). Defined.

(** X13. PrefixStringSlice returns, in order, every element of its slice
    with the string put before it; the world is left alone and no index is
    out of range. *)
Theorem PrefixStringSlice_prefixes (prefix : string) (strs : list string) (w : World) :
  PrefixStringSlice prefix strs w
  = Done (map (fun s => prefix +:+ s) strs) w.
Proof. apply (PrefixStringSlice_loop_run prefix strs [] w). Qed.

(** X14. StringSliceMatch is true exactly when the slices are of one length
    and every element of the first occurs in the second.  It is true of any
    two slices that hold the same elements in any order; when the first has
    no repeated element, it is true of these only.  With repeated elements it
    can be true of slices that differ, and it is not symmetric. *)
Theorem StringSliceMatch_is_inclusion (a b : list string) :
  (StringSliceMatch a b = true <->
   length a = length b /\ forall x, x ∈ a -> x ∈ b) /\
  (a ≡ₚ b -> StringSliceMatch a b = true) /\
  (NoDup a -> StringSliceMatch a b = true -> a ≡ₚ b) /\
  StringSliceMatch ["x"; "x"] ["x"; "y"] = true /\
  StringSliceMatch ["x"; "y"] ["x"; "x"] = false.
Proof.
  split_and!; try done.
  - apply StringSliceMatch_spec.
  - intros Hperm. apply StringSliceMatch_spec. split.
    + by apply Permutation_length.
    + intros x Hx. by rewrite <- Hperm.
  - intros Hnd [Hlen Hsub]%StringSliceMatch_spec.
    apply submseteq_length_Permutation; [|lia].
    by apply NoDup_submseteq.
Qed.

(** X15. ContainsAny is true exactly when some string occurs in both
    slices; so it is false when either is empty, and the two arguments can be
    exchanged. *)
Theorem ContainsAny_is_common_element (a finds : list string) :
  (ContainsAny a finds = true <-> exists x, x ∈ a /\ x ∈ finds) /\
  ContainsAny a finds = ContainsAny finds a /\
  ContainsAny a [] = false /\ ContainsAny [] finds = false.
Proof.
  split_and!.
  - apply ContainsAny_spec.
  - destruct (ContainsAny a finds) eqn:H1, (ContainsAny finds a) eqn:H2; try done.
    + apply ContainsAny_spec in H1 as (x & Hx & Hf).
      assert (ContainsAny finds a = true) by (apply ContainsAny_spec; by exists x).
      congruence.
    + apply ContainsAny_spec in H2 as (x & Hx & Hf).
      assert (ContainsAny a finds = true) by (apply ContainsAny_spec; by exists x).
      congruence.
  - destruct (ContainsAny a []) eqn:H; [|done].
    by apply ContainsAny_spec in H as (x & _ & ?%elem_of_nil).
  - done.
Qed.

(** X16. Plural applies the rule set's Pluralize, and Singular its
    Singularize, to the part of the name after its last underscore only: the
    part up to and including that underscore is copied as it is, and a name
    without underscore is handed to the rule whole. *)
Theorem Plural_inflects_last_component
    (rs : Ruleset) (prefix word : string) (w : World) :
  world_ok w ->
  Forall (fun c => c <> underscore) (bytes word) ->
  (exists w', Plural rs word w = Done (Pluralize rs word) w') /\
  (exists w', Plural rs (prefix +:+ "_" +:+ word) w
              = Done (prefix +:+ "_" +:+ Pluralize rs word) w') /\
  (exists w', Singular rs word w = Done (Singularize rs word) w') /\
  (exists w', Singular rs (prefix +:+ "_" +:+ word) w
              = Done (prefix +:+ "_" +:+ Singularize rs word) w').
Proof.
  intros Hok Hfree.
  destruct (inflect_last_component (Pluralize rs) prefix word Hfree) as [Hp1 Hp2].
  destruct (inflect_last_component (Singularize rs) prefix word Hfree) as [Hs1 Hs2].
  split_and!.
  - destruct (inflect_exact (Pluralize rs) word w Hok) as (w' & Hrun & _).
    exists w'. rewrite <- Hp1. exact Hrun.
  - destruct (inflect_exact (Pluralize rs) (prefix +:+ "_" +:+ word) w Hok)
      as (w' & Hrun & _).
    exists w'. rewrite <- Hp2. exact Hrun.
  - destruct (inflect_exact (Singularize rs) word w Hok) as (w' & Hrun & _).
    exists w'. rewrite <- Hs1. exact Hrun.
  - destruct (inflect_exact (Singularize rs) (prefix +:+ "_" +:+ word) w Hok)
      as (w' & Hrun & _).
    exists w'. rewrite <- Hs2. exact Hrun.
Qed.

Lemma Plural_inflects_last_component_witness :
  let rs := mkRuleset (fun s => s +:+ "s") (fun s => "one " +:+ s) in
  (exists w', Plural rs "person" init_world = Done (Pluralize rs "person") w') /\
  (exists w', Plural rs ("big__old" +:+ "_" +:+ "person") init_world
              = Done ("big__old" +:+ "_" +:+ Pluralize rs "person") w') /\
  (exists w', Singular rs "person" init_world
              = Done (Singularize rs "person") w') /\
  (exists w', Singular rs ("big__old" +:+ "_" +:+ "person") init_world
              = Done ("big__old" +:+ "_" +:+ Singularize rs "person") w').
Proof.
  apply (Plural_inflects_last_component
           (mkRuleset (fun s => s +:+ "s") (fun s => "one " +:+ s))
           "big__old" "person" init_world init_world_ok).
  by repeat constructor.
Defined.

(** ** What TitleCaseIdentifier prints *)

Lemma quiet_ret {A} (a : A) : quiet (ret a).
Proof. by intros w a' w' [= <- <-]. Qed.

Lemma quiet_panic {A} msg : quiet (@panic A msg).
Proof. by intros w a w' H. Qed.

Lemma quiet_bind {A B} (m : M A) (k : A -> M B) :
  quiet m -> (forall a, quiet (k a)) -> quiet (bind m k).
Proof.
  intros Hm Hk w b w' Hrun. apply bind_inv in Hrun as (a & w1 & H1 & H2).
  rewrite (Hk a _ _ _ H2). by apply (Hm _ _ _ H1).
Qed.

Lemma quiet_GetBuffer : quiet GetBuffer.
Proof.
  intros w b w'. unfold GetBuffer.
  by destruct (bufPool w) as [|b0 rest]; intros [= <- <-].
Qed.

Lemma quiet_PutBuffer b : quiet (PutBuffer b).
Proof. by intros w [] w' [= <-]. Qed.

Lemma quiet_Buffer_Write b bs : quiet (Buffer_Write b bs).
Proof.
  intros w [] w'. unfold Buffer_Write.
  destruct (heap w !! b); [|done]. by intros [= <-].
Qed.

Lemma quiet_Buffer_String b : quiet (Buffer_String b).
Proof.
  intros w s w'. unfold Buffer_String.
  destruct (heap w !! b); [|done]. by intros [= <- <-].
Qed.

Lemma quiet_index s i : quiet (index s i).
Proof.
  unfold index. destruct (if 0 <=? i then s !! Z.to_nat i else None);
    [apply quiet_ret | apply quiet_panic].
Qed.

Lemma quiet_slice s lo hi : quiet (slice s lo hi).
Proof.
  unfold slice. destruct ((0 <=? lo) && (lo <=? hi) && (hi <=? len s));
    [apply quiet_ret | apply quiet_panic].
Qed.

Ltac quiet_walk :=
  repeat first
    [ apply quiet_ret | apply quiet_panic
    | apply quiet_Buffer_Write | apply quiet_Buffer_String
    | apply quiet_index | apply quiet_slice
    | apply quiet_GetBuffer | apply quiet_PutBuffer
    | apply quiet_bind; [ | intros ? ]
    | match goal with
      | |- quiet (if ?c then _ else _) => destruct c
      end ].

Lemma quiet_writeUpper buf word : quiet (writeUpper buf word).
Proof.
  induction word as [|c rest IH]; cbn [writeUpper]; [apply quiet_ret|].
  unfold Buffer_WriteByte. apply quiet_bind; [quiet_walk | by intros].
Qed.

Lemma quiet_renderWord buf word : quiet (renderWord buf word).
Proof.
  unfold renderWord, Buffer_WriteByte.
  destruct (scanWord word 0 (len word) false (len word)) as [vowels numStart].
  apply quiet_bind; [apply quiet_slice | intros key].
  destruct (uppercaseWords_has (str key) || negb vowels);
    [apply quiet_writeUpper | quiet_walk].
Qed.

Lemma quiet_TitleCase_loop fuel name ln buf start end_ :
  quiet (TitleCase_loop fuel name ln buf start end_).
Proof.
  revert start end_. induction fuel as [|fuel IH]; intros start end_;
    cbn [TitleCase_loop]; [by intros w a w' H|].
  destruct (start <? ln); [|apply quiet_ret].
  apply quiet_bind; [quiet_walk | intros [[s' e']|]].
  - apply IH.
  - apply quiet_bind; [apply quiet_slice | intros word].
    apply quiet_bind; [apply quiet_renderWord | intros _]. apply IH.
Qed.

Lemma quiet_TitleCase n : quiet (TitleCase n).
Proof.
  unfold TitleCase, RLock, RUnlock, Lock, Unlock.
  apply quiet_bind; [apply quiet_ret | intros _].
  apply quiet_bind; [by intros w a w' [= <- <-] | intros cached].
  apply quiet_bind; [apply quiet_ret | intros _].
  destruct cached; [apply quiet_ret|].
  apply quiet_bind; [apply quiet_GetBuffer | intros buf].
  apply quiet_bind; [apply quiet_TitleCase_loop | intros _].
  apply quiet_bind; [apply quiet_Buffer_String | intros r].
  apply quiet_bind; [apply quiet_PutBuffer | intros _].
  apply quiet_bind; [apply quiet_ret | intros _].
  apply quiet_bind; [by intros w [] w' [= <-] | intros _].
  quiet_walk.
Qed.

Lemma printed_log args w w' :
  log (EvPrintln args) w = Done tt w' -> printed w' = printed w ++ [args].
Proof. by intros [= <-]. Qed.

Lemma TitleCaseIdentifier_loop_prints fuel id buf (L N : nat) addDots w w' :
  (L <= N)%nat -> (N <= length id)%nat ->
  Forall (fun c => c <> dot) (take (N - L) (drop L id)) ->
  N = length id \/ id !! N = Some dot ->
  TitleCaseIdentifier_loop fuel id (len id) buf (Z.of_nat L) (Z.of_nat N)
    addDots w = Done tt w' ->
  printed w'
  = printed w ++ component_ranges (Z.of_nat L) (Spec.split_on dot (drop L id)).
Proof.
  revert L N addDots w.
  induction fuel as [|fuel IH]; intros L N addDots w HLN HN Hfree Hnext Hrun;
    [done|].
  cbn [TitleCaseIdentifier_loop] in Hrun.
  replace (0 <=? Z.of_nat N) with true in Hrun by (symmetry; apply Z.leb_le; lia).
  apply bind_inv in Hrun as ([] & w1 & Hlog & Hrun).
  apply printed_log in Hlog.
  rewrite (bind_run _ _ _ _ _ (slice_nat id L N w1 HLN HN)) in Hrun.
  set (fragment := take (N - L) (drop L id)) in *.
  assert (Hfraglen : len fragment = Z.of_nat N - Z.of_nat L).
  { unfold len, fragment. rewrite length_take, length_drop. lia. }
  apply bind_inv in Hrun as (titled & w2 & Htitle & Hrun).
  apply quiet_TitleCase in Htitle.
  apply bind_inv in Hrun as ([] & w3 & Hdots & Hrun).
  assert (Hq3 : printed w3 = printed w2).
  { revert Hdots. unfold Buffer_WriteByte.
    destruct addDots; [apply quiet_Buffer_Write | apply quiet_ret]. }
  apply bind_inv in Hrun as ([] & w4 & Hwrite & Hrun).
  apply quiet_Buffer_Write in Hwrite.
  assert (Hq4 : printed w4 = printed w ++ [[Z.of_nat L; Z.of_nat N]]) by congruence.
  destruct (Z.eqb_spec (Z.of_nat N) (len id)) as [Hend|Hend]; unfold len in Hend.
  - injection Hrun as <-.
    assert (Hall : drop L id = fragment).
    { unfold fragment. symmetry. apply take_ge. rewrite length_drop. lia. }
    rewrite Hall, split_on_no_sep by done. cbn [component_ranges].
    rewrite Hq4, Hfraglen.
    by replace (Z.of_nat L + (Z.of_nat N - Z.of_nat L)) with (Z.of_nat N) by lia.
  - destruct Hnext as [?|Hdot]; [lia|].
    assert (Hsplit : drop L id = fragment ++ dot :: drop (S N) id).
    { rewrite <- (take_drop (N - L) (drop L id)) at 1. fold fragment. f_equal.
      rewrite drop_drop. replace (L + (N - L))%nat with N by lia.
      by apply drop_S. }
    replace (Z.of_nat N + 1) with (Z.of_nat (S N)) in Hrun by lia.
    assert (HNlt : (N < length id)%nat) by (by eapply lookup_lt_Some).
    rewrite (bind_run _ _ _ _ _
      (slice_nat id (S N) (length id) w4 ltac:(lia) ltac:(lia))) in Hrun.
    rewrite take_ge in Hrun by (rewrite length_drop; lia).
    rewrite IndexByte_find in Hrun.
    assert (Hnext' : exists N' : nat,
      (if 0 <=? match find_first (fun x => Ascii.eqb x dot) (drop (S N) id) with
                | Some k => Z.of_nat k
                | None => -1
                end
       then match find_first (fun x => Ascii.eqb x dot) (drop (S N) id) with
            | Some k => Z.of_nat k
            | None => -1
            end + Z.of_nat (S N)
       else len id) = Z.of_nat N' /\
      (S N <= N')%nat /\ (N' <= length id)%nat /\
      Forall (fun c => c <> dot) (take (N' - S N) (drop (S N) id)) /\
      (N' = length id \/ id !! N' = Some dot)).
    { destruct (find_first _ (drop (S N) id)) as [k|] eqn:Hk.
      - exists (S N + k)%nat.
        pose proof (find_first_lt _ _ _ Hk) as Hklt. rewrite length_drop in Hklt.
        destruct (find_first_Some _ _ _ Hk) as (Hpre & c & Hc & Hcdot).
        apply Ascii.eqb_eq in Hcdot as ->. rewrite lookup_drop in Hc.
        replace (0 <=? Z.of_nat k) with true by (symmetry; apply Z.leb_le; lia).
        split_and!; [lia | lia | lia | | by right].
        replace (S N + k - S N)%nat with k by lia. by apply Forall_eqb_neq.
      - exists (length id). cbn. split_and!; [done | lia | lia | | by left].
        apply Forall_eqb_neq. rewrite take_ge by (rewrite length_drop; lia).
        by apply find_first_None. }
    destruct Hnext' as (N' & HN' & HN'1 & HN'2 & Hfree' & Hnext').
    rewrite HN' in Hrun.
    rewrite (IH (S N) N' true w4 HN'1 HN'2 Hfree' Hnext' Hrun).
    rewrite Hsplit, split_on_app_sep by done. cbn [component_ranges].
    rewrite Hq4, Hfraglen, <- app_assoc. cbn [app].
    replace (Z.of_nat L + (Z.of_nat N - Z.of_nat L)) with (Z.of_nat N) by lia.
    by replace (Z.of_nat N + 1) with (Z.of_nat (S N)) by lia.
Qed.

Lemma TitleCaseIdentifier_printed id w r w' :
  TitleCaseIdentifier id w = Done r w' ->
  printed w'
  = printed w ++ (if bool_decide (dot ∈ bytes id)
                  then component_ranges 0 (Spec.split_on dot (bytes id))
                  else []).
Proof.
  unfold TitleCaseIdentifier. rewrite IndexByte_find.
  destruct (find_first _ (bytes id)) as [k|] eqn:Hk.
  - pose proof (find_first_lt _ _ _ Hk) as Hklt.
    destruct (find_first_Some _ _ _ Hk) as (Hpre & c & Hc & Hcdot).
    apply Ascii.eqb_eq in Hcdot as ->.
    replace (Z.of_nat k <? 0) with false by (symmetry; apply Z.ltb_ge; lia).
    rewrite bool_decide_true by (by eapply list_elem_of_lookup_2).
    intros Hrun.
    apply bind_inv in Hrun as (buf & w1 & Hget & Hrun).
    apply quiet_GetBuffer in Hget.
    apply bind_inv in Hrun as ([] & w2 & Hloop & Hrun).
    apply (TitleCaseIdentifier_loop_prints _ _ _ 0 k) in Hloop;
      [| lia | lia | | by right].
    2:{ rewrite Nat.sub_0_r, drop_0. by apply Forall_eqb_neq. }
    apply bind_inv in Hrun as ([] & w3 & Hput & Hrun).
    apply quiet_PutBuffer in Hput. apply quiet_Buffer_String in Hrun.
    rewrite drop_0 in Hloop. change (Z.of_nat 0) with 0 in Hloop. congruence.
  - cbn [Z.ltb Z.compare]. intros Hrun. apply quiet_TitleCase in Hrun.
    rewrite bool_decide_false, app_nil_r; [done|].
    intros Hin. pose proof (Forall_eqb_neq _ _ (find_first_None _ _ Hk)) as Hfree.
    rewrite Forall_forall in Hfree. by destruct (Hfree _ Hin).
Qed.

Lemma component_ranges_length offset parts :
  length (component_ranges offset parts) = length parts.
Proof.
  revert offset. induction parts as [|p ps IH]; intros offset; [done|].
  cbn [component_ranges length]. by rewrite IH.
Qed.

(** X17. TitleCaseIdentifier writes to standard output: on an identifier
    with a dot it prints one line for each dot-separated component, holding
    the two offsets at which the component starts and ends; on an identifier
    without dot it prints nothing, and TitleCase never prints. *)
Theorem TitleCaseIdentifier_prints_its_offsets (id : string) (w : World) :
  world_ok w ->
  exists r w',
    TitleCaseIdentifier id w = Done r w' /\
    printed w'
    = printed w ++ (if bool_decide (dot ∈ bytes id)
                    then component_ranges 0 (Spec.split_on dot (bytes id))
                    else []) /\
    (dot ∈ bytes id ->
     length (printed w') = (length (printed w) + Spec.components id)%nat) /\
    (forall n r0 w0 w1, TitleCase n w0 = Done r0 w1 -> printed w1 = printed w0).
Proof.
  intros Hok. destruct (TitleCaseIdentifier_run id w Hok) as (w' & Hrun & _).
  pose proof (TitleCaseIdentifier_printed _ _ _ _ Hrun) as Hp.
  exists (Spec.TitleCaseIdentifier id), w'. split_and!; try done.
  - intros Hdot. rewrite Hp, bool_decide_true by done.
    by rewrite length_app, component_ranges_length.
  - intros n r0 w0 w1. apply quiet_TitleCase.
Qed.

Lemma TitleCaseIdentifier_prints_its_offsets_witness :
  exists r w',
    TitleCaseIdentifier "ab.c..d" init_world = Done r w' /\
    printed w'
    = printed init_world ++
      (if bool_decide (dot ∈ bytes "ab.c..d")
       then component_ranges 0 (Spec.split_on dot (bytes "ab.c..d"))
       else []) /\
    (dot ∈ bytes "ab.c..d" ->
     length (printed w')
     = (length (printed init_world) + Spec.components "ab.c..d")%nat) /\
    (forall n r0 w0 w1, TitleCase n w0 = Done r0 w1 -> printed w1 = printed w0).
Proof.
  exact (TitleCaseIdentifier_prints_its_offsets "ab.c..d" init_world init_world_ok).
Defined.
